(** * Cozy: live Markdown formatting of a WYSIWYG editing surface

    A shallow embedding of [WysiwygEditor] (the trigger detection of
    [processSpaceTriggeredFormatting] and [processInlineFormatting], the six
    [replaceWith...] rewriters, the [input] listener with its re-entrancy
    flag, the placeholder, the debounced save, the [focus], [blur],
    [keydown] and [paste] listeners, [clear]) and of [DatabaseService]
    ([saveContent], [getLatestContent]).

    - JavaScript strings are sequences of UTF-16 code units: [list N].
    - The regular expression literals of the source are values of a small
      regex syntax, run by a backtracking matcher with greedy quantifiers.
    - The DOM is a store of nodes addressed by identity, with parent
      pointers and ordered child lists; DOM exceptions are results.
    - The editor is a record threaded through a state-and-exception monad. *)

From Stdlib Require Import Ascii String DecimalString.
From stdpp Require Import gmap strings list fin_maps.

Set Default Proof Using "Type".

(** ** JavaScript strings *)

Abbreviation char := N (only parsing).
Abbreviation jsstring := (list N) (only parsing).

Definition ch (a : ascii) : char := N_of_ascii a.
Arguments ch a%_char : simpl never.

(** A source string literal as a sequence of code units. *)
Definition js (s : string) : jsstring := ch <$> list_ascii_of_string s.

(** ECMAScript [WhiteSpace] and [LineTerminator] code points: what [\s]
    matches and what [String.prototype.trim] strips. *)
Definition isLineTerminator (c : char) : bool :=
  (c =? 10)%N || (c =? 13)%N || (c =? 0x2028)%N || (c =? 0x2029)%N.

Definition isWhiteSpace (c : char) : bool :=
  (c =? 9)%N || (c =? 11)%N || (c =? 12)%N || (c =? 32)%N || (c =? 160)%N
  || (c =? 0x1680)%N || ((0x2000 <=? c)%N && (c <=? 0x200A)%N)
  || (c =? 0x202F)%N || (c =? 0x205F)%N || (c =? 0x3000)%N || (c =? 0xFEFF)%N.

Definition isSpace (c : char) : bool := isWhiteSpace c || isLineTerminator c.

Fixpoint dropSpaces (s : jsstring) : jsstring :=
  match s with
  | [] => []
  | c :: s' => if isSpace c then dropSpaces s' else s
  end.

(** [s.trim()] *)
Definition trim (s : jsstring) : jsstring :=
  reverse (dropSpaces (reverse (dropSpaces s))).

(** Truthiness of a string: the empty string is the only falsy one. *)
Definition truthy (s : jsstring) : bool :=
  match s with [] => false | _ => true end.

(** [s.substring(a)] and [s.substring(0, b)] for indices that are natural
    numbers: both clamp to the length of [s]. *)
Definition substringFrom (a : nat) (s : jsstring) : jsstring := drop a s.
Definition substringTo (b : nat) (s : jsstring) : jsstring := take b s.

(** ** Regular expressions

    The patterns of the source use anchors, single characters, character
    classes, greedy quantifiers over one character class (captured or not)
    and one-character negative lookaround. *)

Inductive cls :=
| CChar (c : char)          (* a literal character *)
| CSet (cs : list char)     (* a bracketed set *)
| CNot (cs : list char)     (* a negated bracketed set *)
| CSpace                    (* [\s] *)
| CDot.                     (* [.], without the [s] flag *)

Definition cls_match (p : cls) (c : char) : bool :=
  match p with
  | CChar c' => (c =? c')%N
  | CSet cs => existsb (N.eqb c) cs
  | CNot cs => negb (existsb (N.eqb c) cs)
  | CSpace => isSpace c
  | CDot => negb (isLineTerminator c)
  end.

Inductive item :=
| Bol                                    (* [^], no [m] flag *)
| Eol                                    (* [$], no [m] flag *)
| One (p : cls)
| Rep (capture : bool) (p : cls) (lo : nat) (hi : option nat)
| NotBehind (p : cls)                    (* [(?<!p)] *)
| NotAhead (p : cls).                    (* [(?!p)] *)

Abbreviation regex := (list item) (only parsing).

(** Number of leading characters of [s] in class [p], at most [hi]. *)
Fixpoint span (p : cls) (hi : option nat) (s : jsstring) : nat :=
  match hi, s with
  | Some 0, _ => 0
  | _, [] => 0
  | _, c :: s' => if cls_match p c then S (span p (pred <$> hi) s') else 0
  end.

(** A greedy quantifier tries the longest repetition first and gives back
    one character at a time, down to [lo]. *)
Fixpoint backtrack {A} (lo n : nat) (k : nat → option A) : option A :=
  if n <? lo then None else
  match k n with
  | Some a => Some a
  | None => match n with 0 => None | S n' => backtrack lo n' k end
  end.

(** [run r pre rest]: match [r] at the position with the reversed text
    [pre] behind it and [rest] ahead; gives the captures in order and the
    text left after the match. *)
Fixpoint run (r : regex) (pre rest : jsstring) : option (list jsstring * jsstring) :=
  match r with
  | [] => Some ([], rest)
  | Bol :: r' => match pre with [] => run r' pre rest | _ => None end
  | Eol :: r' => match rest with [] => run r' pre rest | _ => None end
  | One p :: r' =>
      match rest with
      | c :: rest' => if cls_match p c then run r' (c :: pre) rest' else None
      | [] => None
      end
  | Rep capture p lo hi :: r' =>
      backtrack lo (span p hi rest) (λ j,
        '(caps, out) ← run r' (reverse (take j rest) ++ pre) (drop j rest);
        Some (if capture then take j rest :: caps else caps, out))
  | NotBehind p :: r' =>
      match pre with
      | c :: _ => if cls_match p c then None else run r' pre rest
      | [] => run r' pre rest
      end
  | NotAhead p :: r' =>
      match rest with
      | c :: _ => if cls_match p c then None else run r' pre rest
      | [] => run r' pre rest
      end
  end.

(** The result of [String.prototype.match] with a non-global pattern:
    [m[0]], the capture groups [m[1]] ..., and [m.index]. *)
Record RegExpMatchArray := {
  m_full : jsstring;
  m_groups : list jsstring;
  m_index : nat;
}.

(** [m[i]] for a capture group, [i >= 1]; a missing group reads as empty. *)
Definition group (i : nat) (m : RegExpMatchArray) : jsstring :=
  default [] (m_groups m !! pred i).

(** The leftmost start position at which the pattern matches. *)
Fixpoint search (r : regex) (pre rest : jsstring) (i : nat) : option RegExpMatchArray :=
  match run r pre rest with
  | Some (caps, out) =>
      Some {| m_full := take (length rest - length out) rest;
              m_groups := caps; m_index := i |}
  | None =>
      match rest with
      | [] => None
      | c :: rest' => search r (c :: pre) rest' (S i)
      end
  end.

(** [s.match(r)] *)
Definition re_match (r : regex) (s : jsstring) : option RegExpMatchArray :=
  search r [] s 0.

(** The patterns of [processSpaceTriggeredFormatting]. *)

(** The pattern "/^(#{1,6})\s+(.+)$/". *)
Definition headingRe : regex :=
  [Bol; Rep true (CChar (ch "#")) 1 (Some 6); Rep false CSpace 1 None;
   Rep true CDot 1 None; Eol].

(** The pattern "/^[-\*\+]\s*(G)$/" with the group G = ".*". *)
Definition listRe : regex :=
  [Bol; One (CSet [ch "-"; ch "*"; ch "+"]); Rep false CSpace 0 None;
   Rep true CDot 0 None; Eol].

(** The pattern "/^>\s*(G)$/" with the group G = ".*". *)
Definition blockquoteRe : regex :=
  [Bol; One (CChar (ch ">")); Rep false CSpace 0 None; Rep true CDot 0 None; Eol].

(** The patterns of [processInlineFormatting]. *)

(** The pattern "/\*\*([^*]+)\*\*/". *)
Definition boldStarRe : regex :=
  [One (CChar (ch "*")); One (CChar (ch "*")); Rep true (CNot [ch "*"]) 1 None;
   One (CChar (ch "*")); One (CChar (ch "*"))].

(** The pattern "/__([^_]+)__/". *)
Definition boldUnderRe : regex :=
  [One (CChar (ch "_")); One (CChar (ch "_")); Rep true (CNot [ch "_"]) 1 None;
   One (CChar (ch "_")); One (CChar (ch "_"))].

(** The pattern "/(?<!S)S([^*]+)S(?!S)/" with S the escaped star. *)
Definition italicStarRe : regex :=
  [NotBehind (CChar (ch "*")); One (CChar (ch "*")); Rep true (CNot [ch "*"]) 1 None;
   One (CChar (ch "*")); NotAhead (CChar (ch "*"))].

(** The pattern "/(?<!_)_([^_]+)_(?!_)/". *)
Definition italicUnderRe : regex :=
  [NotBehind (CChar (ch "_")); One (CChar (ch "_")); Rep true (CNot [ch "_"]) 1 None;
   One (CChar (ch "_")); NotAhead (CChar (ch "_"))].

(** The pattern "/`([^`]+)`/". *)
Definition codeRe : regex :=
  [One (CChar (ch "`")); Rep true (CNot [ch "`"]) 1 None; One (CChar (ch "`"))].

(** ** The DOM: a store of nodes *)

Abbreviation NodeId := positive (only parsing).

Inductive NodeKind :=
| DocumentNode
| ElementNode (tagName : string)
| TextNode (data : jsstring).

Record Node := mkNode {
  kind : NodeKind;
  parentNode : option NodeId;
  childNodes : list NodeId;
}.

(** A boundary-point pair. *)
Record Range := mkRange {
  startContainer : NodeId;
  startOffset : nat;
  endContainer : NodeId;
  endOffset : nat;
}.

(** What a pending [setTimeout] callback does when it fires. *)
Inductive TimerTask :=
| ClearProcessing      (* [this.isProcessing = false] *)
| AutoSave.            (* the empty callback of [debouncedSave] *)

(** The editor instance together with the part of the page it acts on.
    [selection] is [None] when [window.getSelection()] is [null],
    [Some None] when its [rangeCount] is 0. *)
Record Editor := mkEditor {
  nodes : gmap positive Node;
  document : NodeId;
  selection : option (option Range);
  editor : NodeId;                      (* [this.editor] *)
  classEmpty : bool;                    (* ["empty"] in [editor.classList] *)
  isProcessing : bool;
  debounceTimer : option nat;
  timers : list (nat * (TimerTask * nat));   (* id, task, delay *)
  nextTimer : nat;
}.

Definition set_nodes (f : gmap positive Node → gmap positive Node) (w : Editor) : Editor :=
  mkEditor (f (nodes w)) (document w) (selection w) (editor w) (classEmpty w)
    (isProcessing w) (debounceTimer w) (timers w) (nextTimer w).

Definition set_selection (s : option (option Range)) (w : Editor) : Editor :=
  mkEditor (nodes w) (document w) s (editor w) (classEmpty w)
    (isProcessing w) (debounceTimer w) (timers w) (nextTimer w).

Definition set_classEmpty (b : bool) (w : Editor) : Editor :=
  mkEditor (nodes w) (document w) (selection w) (editor w) b
    (isProcessing w) (debounceTimer w) (timers w) (nextTimer w).

Definition set_isProcessing (b : bool) (w : Editor) : Editor :=
  mkEditor (nodes w) (document w) (selection w) (editor w) (classEmpty w)
    b (debounceTimer w) (timers w) (nextTimer w).

Definition set_debounceTimer (t : option nat) (w : Editor) : Editor :=
  mkEditor (nodes w) (document w) (selection w) (editor w) (classEmpty w)
    (isProcessing w) t (timers w) (nextTimer w).

Definition set_timers (ts : list (nat * (TimerTask * nat))) (n : nat) (w : Editor) : Editor :=
  mkEditor (nodes w) (document w) (selection w) (editor w) (classEmpty w)
    (isProcessing w) (debounceTimer w) ts n.

(** ** Exceptions and the monad of editor code *)

Inductive Exn :=
| HierarchyRequestError
| NotFoundError
| IndexSizeError
| InvalidNodeTypeError
| TypeError.             (* a reference to a node that is not in the store *)

Inductive Outcome (A : Type) :=
| Ok (a : A)
| Throw (e : Exn).
Arguments Ok {A} a.
Arguments Throw {A} e.

(** A computation returns or throws, and leaves the state it reached. *)
Definition M (A : Type) : Type := Editor → Outcome A * Editor.

Definition ret {A} (a : A) : M A := λ w, (Ok a, w).

Definition bind {A B} (m : M A) (k : A → M B) : M B := λ w,
  match m w with
  | (Ok a, w') => k a w'
  | (Throw e, w') => (Throw e, w')
  end.

Definition throw {A} (e : Exn) : M A := λ w, (Throw e, w).

Definition get : M Editor := λ w, (Ok w, w).
Definition modify (f : Editor → Editor) : M unit := λ w, (Ok (), f w).

Declare Scope dom_scope.
Delimit Scope dom_scope with dom.
Notation "x <- m ; k" := (bind m (λ x, k))
  (at level 100, m at next level, k at level 200, right associativity,
   format "'[v' x  <-  m ; '/' k ']'") : dom_scope.
Notation "m ;; k" := (bind m (λ _, k))
  (at level 100, k at level 200, right associativity,
   format "'[v' m ;; '/' k ']'") : dom_scope.
Open Scope dom_scope.

(** ** DOM operations *)

Definition getNode (n : NodeId) : M Node :=
  w <- get;
  match nodes w !! n with
  | Some node => ret node
  | None => throw TypeError
  end.

Definition putNode (n : NodeId) (node : Node) : M unit :=
  modify (set_nodes <[n := node]>).

Definition allocNode (node : Node) : M NodeId :=
  w <- get;
  let n := fresh (dom (nodes w)) in
  putNode n node;;
  ret n.

(** [document.createElement(tag)] *)
Definition createElement (tag : string) : M NodeId :=
  allocNode (mkNode (ElementNode tag) None []).

(** [document.createTextNode(data)] *)
Definition createTextNode (data : jsstring) : M NodeId :=
  allocNode (mkNode (TextNode data) None []).

(** [node.parentNode] *)
Definition getParentNode (n : NodeId) : M (option NodeId) :=
  node <- getNode n; ret (parentNode node).

(** [node.childNodes.length] *)
Definition childCount (n : NodeId) : M nat :=
  node <- getNode n; ret (length (childNodes node)).

Definition setParent (p : option NodeId) (n : NodeId) : M unit :=
  node <- getNode n;
  putNode n (mkNode (kind node) p (childNodes node)).

Definition setChildren (l : list NodeId) (n : NodeId) : M unit :=
  node <- getNode n;
  putNode n (mkNode (kind node) (parentNode node) l).

Fixpoint forEach {A} (f : A → M unit) (l : list A) : M unit :=
  match l with
  | [] => ret ()
  | a :: l' => f a;; forEach f l'
  end.

(** [l] with [x] put in front of the first occurrence of [child]. *)
Fixpoint insertBeforeIn (x child : NodeId) (l : list NodeId) : list NodeId :=
  match l with
  | [] => [x]
  | y :: l' => if decide (y = child) then x :: y :: l' else y :: insertBeforeIn x child l'
  end.

Definition removeFrom (x : NodeId) (l : list NodeId) : list NodeId :=
  filter (λ y, y ≠ x) l.

Definition isElement (k : NodeKind) : bool :=
  match k with ElementNode _ => true | _ => false end.

Definition isText (k : NodeKind) : bool :=
  match k with TextNode _ => true | _ => false end.

(** Detach [n] from the parent it has, if any. *)
Definition detach (n : NodeId) : M unit :=
  node <- getNode n;
  match parentNode node with
  | Some old =>
      oldNode <- getNode old;
      setChildren (removeFrom n (childNodes oldNode)) old;;
      setParent None n
  | None => ret ()
  end.

(** The checks of [parent.insertBefore(node, child)] that depend on the
    kinds of the nodes. The node inserted is freshly created at every call
    of the source, so it is never an ancestor of [parent]. *)
Definition ensurePreInsertValidity (parent node child : NodeId) : M unit :=
  p <- getNode parent;
  n <- getNode node;
  c <- getNode child;
  match kind p with
  | TextNode _ => throw HierarchyRequestError
  | _ =>
    if decide (parentNode c = Some parent) then
      match kind p, kind n with
      | _, DocumentNode => throw HierarchyRequestError
      | DocumentNode, TextNode _ => throw HierarchyRequestError
      | DocumentNode, ElementNode _ =>
          w <- get;
          if existsb (λ x, match nodes w !! x with
                           | Some y => isElement (kind y)
                           | None => false
                           end) (childNodes p)
          then throw HierarchyRequestError else ret ()
      | _, _ => ret ()
      end
    else throw NotFoundError
  end.

(** [parent.insertBefore(node, child)] with a non-null [child] *)
Definition insertBefore (parent node child : NodeId) : M unit :=
  ensurePreInsertValidity parent node child;;
  detach node;;
  p <- getNode parent;
  setChildren (insertBeforeIn node child (childNodes p)) parent;;
  setParent (Some parent) node.

(** [parent.appendChild(node)] *)
Definition appendChild (parent node : NodeId) : M unit :=
  p <- getNode parent;
  n <- getNode node;
  match kind p, kind n with
  | TextNode _, _ | _, DocumentNode | DocumentNode, _ => throw HierarchyRequestError
  | ElementNode _, _ =>
      detach node;;
      p <- getNode parent;
      setChildren (childNodes p ++ [node]) parent;;
      setParent (Some parent) node
  end.

(** [parent.removeChild(child)] *)
Definition removeChild (parent child : NodeId) : M unit :=
  c <- getNode child;
  if decide (parentNode c = Some parent) then
    p <- getNode parent;
    setChildren (removeFrom child (childNodes p)) parent;;
    setParent None child
  else throw NotFoundError.

(** [element.textContent = s]: all children are removed, and a text node
    holding [s] is the only child when [s] is not empty. *)
Definition setTextContent (n : NodeId) (s : jsstring) : M unit :=
  node <- getNode n;
  forEach (setParent None) (childNodes node);;
  setChildren [] n;;
  if truthy s then
    t <- allocNode (mkNode (TextNode s) (Some n) []);
    setChildren [t] n
  else ret ().

(** [node.textContent]: the data of a text node, the concatenated data of
    the text descendants of an element in tree order. *)
Fixpoint textContentOf (fuel : nat) (h : gmap positive Node) (n : NodeId) : jsstring :=
  match fuel with
  | 0 => []
  | S fuel' =>
      match h !! n with
      | Some node =>
          match kind node with
          | TextNode data => data
          | _ => concat (textContentOf fuel' h <$> childNodes node)
          end
      | None => []
      end
  end.

Definition textContent (w : Editor) (n : NodeId) : jsstring :=
  textContentOf (S (size (nodes w))) (nodes w) n.

(** Following parent pointers from [n] reaches the document: the root of
    [n] is the document. *)
Fixpoint reachesDocument (fuel : nat) (h : gmap positive Node) (doc n : NodeId) : bool :=
  if decide (n = doc) then true else
  match fuel with
  | 0 => false
  | S fuel' =>
      match h !! n with
      | Some node =>
          match parentNode node with
          | Some p => reachesDocument fuel' h doc p
          | None => false
          end
      | None => false
      end
  end.

(** [node.isConnected] *)
Definition isConnected (w : Editor) (n : NodeId) : bool :=
  reachesDocument (size (nodes w)) (nodes w) (document w) n.

(** *** Ranges and the selection *)

(** [document.createRange()] *)
Definition createRange : M Range :=
  w <- get; ret (mkRange (document w) 0 (document w) 0).

(** The length of a node: its number of children, or of code units. *)
Definition nodeLength (node : Node) : nat :=
  match kind node with
  | TextNode data => length data
  | _ => length (childNodes node)
  end.

(** [range.setStart(node, offset)]. Every call of the source is followed
    by [range.collapse(true)], which overwrites the end. *)
Definition setStart (range : Range) (n : NodeId) (offset : nat) : M Range :=
  node <- getNode n;
  if decide (offset ≤ nodeLength node) then
    ret (mkRange n offset (endContainer range) (endOffset range))
  else throw IndexSizeError.

Fixpoint indexOf (x : NodeId) (l : list NodeId) : nat :=
  match l with
  | [] => 0
  | y :: l' => if decide (y = x) then 0 else S (indexOf x l')
  end.

(** [range.setStartAfter(node)] *)
Definition setStartAfter (range : Range) (n : NodeId) : M Range :=
  node <- getNode n;
  match parentNode node with
  | None => throw InvalidNodeTypeError
  | Some parent =>
      p <- getNode parent;
      setStart range parent (S (indexOf n (childNodes p)))
  end.

(** [range.collapse(true)] *)
Definition collapse (range : Range) : Range :=
  mkRange (startContainer range) (startOffset range)
          (startContainer range) (startOffset range).

(** [window.getSelection()] *)
Definition getSelection : M (option (option Range)) :=
  w <- get; ret (selection w).

(** [selection?.removeAllRanges()] *)
Definition removeAllRanges (sel : option (option Range)) : M unit :=
  match sel with
  | Some _ => modify (set_selection (Some None))
  | None => ret ()
  end.

(** [selection?.addRange(range)]: nothing is added when the root of the
    range is not the document, or when the selection has a range. *)
Definition addRange (sel : option (option Range)) (range : Range) : M unit :=
  match sel with
  | Some _ =>
      w <- get;
      match selection w with
      | Some None =>
          if isConnected w (startContainer range)
          then modify (set_selection (Some (Some range)))
          else ret ()
      | _ => ret ()
      end
  | None => ret ()
  end.

(** [setTimeout(task, delay)] *)
Definition setTimeout (task : TimerTask) (delay : nat) : M nat :=
  w <- get;
  let id := nextTimer w in
  modify (set_timers (timers w ++ [(id, (task, delay))]) (S id));;
  ret id.

(** [clearTimeout(id)] *)
Definition clearTimeout (id : nat) : M unit :=
  w <- get;
  modify (set_timers (filter (λ t, t.1 ≠ id) (timers w)) (nextTimer w)).

(** ** The editor *)

(** The decimal numeral of a number, as a template literal prints it. *)
Definition decimal (n : nat) : string := NilEmpty.string_of_uint (Nat.to_uint n).

Definition setIsProcessing (b : bool) : M unit := modify (set_isProcessing b).

(** The common tail of the block rewriters: the caret goes to the end of
    the content of [target]. *)
Definition setCursorAtEnd (target : NodeId) : M unit :=
  range <- createRange;
  selection <- getSelection;
  n <- childCount target;
  range <- setStart range target n;
  let range := collapse range in
  removeAllRanges selection;;
  addRange selection range.

(** The common tail of the inline rewriters: the caret goes right after
    [target]. *)
Definition setCursorAfter (target : NodeId) : M unit :=
  range <- createRange;
  selection <- getSelection;
  range <- setStartAfter range target;
  let range := collapse range in
  removeAllRanges selection;;
  addRange selection range.

Definition replaceWithHeading (textNode : NodeId) (level : nat)
    (text afterText : jsstring) : M unit :=
  setIsProcessing true;;
  heading <- createElement ("h" +:+ decimal level);
  setTextContent heading text;;
  parent <- getParentNode textNode;
  match parent with
  | Some parent =>
      insertBefore parent heading textNode;;
      (if truthy (trim afterText) then
         afterNode <- createTextNode afterText;
         insertBefore parent afterNode textNode
       else ret ());;
      removeChild parent textNode;;
      setCursorAtEnd heading
  | None => ret ()
  end;;
  setTimeout ClearProcessing 10;;
  ret ().

Definition replaceWithList (textNode : NodeId) (text afterText : jsstring) : M unit :=
  setIsProcessing true;;
  listItem <- createElement "li";
  setTextContent listItem text;;
  list <- createElement "ul";
  appendChild list listItem;;
  parent <- getParentNode textNode;
  match parent with
  | Some parent =>
      insertBefore parent list textNode;;
      (if truthy (trim afterText) then
         afterNode <- createTextNode afterText;
         insertBefore parent afterNode textNode
       else ret ());;
      removeChild parent textNode;;
      setCursorAtEnd listItem
  | None => ret ()
  end;;
  setTimeout ClearProcessing 10;;
  ret ().

Definition replaceWithBlockquote (textNode : NodeId) (text afterText : jsstring) : M unit :=
  setIsProcessing true;;
  blockquote <- createElement "blockquote";
  setTextContent blockquote text;;
  parent <- getParentNode textNode;
  match parent with
  | Some parent =>
      insertBefore parent blockquote textNode;;
      (if truthy (trim afterText) then
         afterNode <- createTextNode afterText;
         insertBefore parent afterNode textNode
       else ret ());;
      removeChild parent textNode;;
      setCursorAtEnd blockquote
  | None => ret ()
  end;;
  setTimeout ClearProcessing 10;;
  ret ().

(** [replaceWithBold], [replaceWithItalic] and [replaceWithCode] are the
    same text in the source but for the tag of the element. *)
Definition replaceWithInline (tag : string) (textNode : NodeId)
    (match_ : RegExpMatchArray) : M unit :=
  setIsProcessing true;;
  let fullMatch := m_full match_ in
  let content := group 1 match_ in
  let startIndex := m_index match_ in
  w <- get;
  let beforeText := substringTo startIndex (textContent w textNode) in
  let afterText :=
    substringFrom (startIndex + length fullMatch) (textContent w textNode) in
  parent <- getParentNode textNode;
  match parent with
  | Some parent =>
      (if truthy beforeText then
         beforeNode <- createTextNode beforeText;
         insertBefore parent beforeNode textNode
       else ret ());;
      el <- createElement tag;
      setTextContent el content;;
      insertBefore parent el textNode;;
      (if truthy afterText then
         afterNode <- createTextNode afterText;
         insertBefore parent afterNode textNode
       else ret ());;
      removeChild parent textNode;;
      setCursorAfter el
  | None => ret ()
  end;;
  setTimeout ClearProcessing 10;;
  ret ().

Definition replaceWithBold := replaceWithInline "strong".
Definition replaceWithItalic := replaceWithInline "em".
Definition replaceWithCode := replaceWithInline "code".

Definition processSpaceTriggeredFormatting : M unit :=
  selection <- getSelection;
  match selection with
  | None | Some None => ret ()
  | Some (Some range) =>
      let container := startContainer range in
      let offset := startOffset range in
      node <- getNode container;
      match kind node with
      | TextNode textContent =>
          let beforeCursor := substringTo offset textContent in
          let afterCursor := substringFrom offset textContent in
          match re_match headingRe beforeCursor with
          | Some headingMatch =>
              let level := length (group 1 headingMatch) in
              let text := group 2 headingMatch in
              replaceWithHeading container level text afterCursor
          | None =>
          match re_match listRe beforeCursor with
          | Some listMatch =>
              replaceWithList container (group 1 listMatch) afterCursor
          | None =>
          match re_match blockquoteRe beforeCursor with
          | Some blockquoteMatch =>
              replaceWithBlockquote container (group 1 blockquoteMatch) afterCursor
          | None => ret ()
          end end end
      | _ => ret ()
      end
  end.

(** [a || b] on match results *)
Definition orElse {A} (a b : option A) : option A :=
  match a with Some _ => a | None => b end.

Definition processInlineFormatting : M unit :=
  selection <- getSelection;
  match selection with
  | None | Some None => ret ()
  | Some (Some range) =>
      let container := startContainer range in
      node <- getNode container;
      match kind node with
      | TextNode textContent =>
          match orElse (re_match boldStarRe textContent)
                       (re_match boldUnderRe textContent) with
          | Some boldMatch => replaceWithBold container boldMatch
          | None =>
          match orElse (re_match italicStarRe textContent)
                       (re_match italicUnderRe textContent) with
          | Some italicMatch => replaceWithItalic container italicMatch
          | None =>
          match re_match codeRe textContent with
          | Some codeMatch => replaceWithCode container codeMatch
          | None => ret ()
          end end end
      | _ => ret ()
      end
  end.

Record InputEvent := mkInputEvent {
  inputType : string;
  data : option jsstring;
}.

Definition isInsertText (e : InputEvent) : bool :=
  bool_decide (inputType e = "insertText").

Definition processLiveFormatting (e : InputEvent) : M unit :=
  if isInsertText e && bool_decide (data e = Some (js " ")) then
    processSpaceTriggeredFormatting
  else if isInsertText e then
    processInlineFormatting
  else ret ().

(** [this.editor.textContent?.trim() === ""] *)
Definition editorIsBlank (w : Editor) : bool :=
  negb (truthy (trim (textContent w (editor w)))).

Definition showPlaceholder : M unit :=
  w <- get;
  if editorIsBlank w then modify (set_classEmpty true) else ret ().

Definition hidePlaceholder : M unit := modify (set_classEmpty false).

Definition handlePlaceholder : M unit :=
  w <- get;
  if editorIsBlank w then showPlaceholder else hidePlaceholder.

Definition debouncedSave : M unit :=
  w <- get;
  match debounceTimer w with
  | Some (S _ as t) => clearTimeout t      (* timer ids are positive *)
  | _ => ret ()
  end;;
  t <- setTimeout AutoSave 500;
  modify (set_debounceTimer (Some t)).

(** The [input] listener installed by [setupEventListeners]. *)
Definition onInput (e : InputEvent) : M unit :=
  w <- get;
  if negb (isProcessing w) then
    handlePlaceholder;;
    processLiveFormatting e;;
    debouncedSave
  else ret ().

(** A timer fires: its callback runs and the timer is gone. *)
Definition runTask (task : TimerTask) : M unit :=
  match task with
  | ClearProcessing => setIsProcessing false
  | AutoSave => ret ()
  end.

Definition onTimeout (id : nat) : M unit :=
  w <- get;
  match list_find (λ t, t.1 = id) (timers w) with
  | Some (_, (_, (task, _))) => clearTimeout id;; runTask task
  | None => ret ()
  end.

(** The events the page delivers to the editor, one at a time. *)
Inductive Event :=
| EvInput (e : InputEvent)
| EvTimeout (id : nat).

Definition step (ev : Event) : M unit :=
  match ev with
  | EvInput e => onInput e
  | EvTimeout id => onTimeout id
  end.

(** ** A sample page *)

(** [<body><div id="wysiwyg-editor">text</div></body>] with the caret in
    the text run at [offset]. *)
Definition page (text : jsstring) (offset : nat) : Editor :=
  mkEditor
    (list_to_map
       [(1%positive, mkNode DocumentNode None [2%positive]);
        (2%positive, mkNode (ElementNode "div") (Some 1%positive) [3%positive]);
        (3%positive, mkNode (TextNode text) (Some 2%positive) [])])
    1%positive (Some (Some (mkRange 3 offset 3 offset))) 2%positive
    false false None [] 1.

Definition spaceEvent : InputEvent := mkInputEvent "insertText" (Some (js " ")).

(** ** The document store

    [DatabaseService] keeps every saved content as a row of the table
    [documents]. The statements run at a time [now], the value of
    [CURRENT_TIMESTAMP], which SQLite gives to the second. *)

(** A JavaScript string is bound to a statement as UTF-8 text. A
    surrogate code unit that is not part of a pair has no UTF-8 form: it
    is stored, and read back, as U+FFFD. *)
Definition isHighSurrogate (c : char) : bool := (0xD800 <=? c)%N && (c <=? 0xDBFF)%N.
Definition isLowSurrogate (c : char) : bool := (0xDC00 <=? c)%N && (c <=? 0xDFFF)%N.

Fixpoint toWellFormed (s : jsstring) : jsstring :=
  match s with
  | [] => []
  | c :: s' =>
      if isHighSurrogate c then
        match s' with
        | d :: s'' =>
            if isLowSurrogate d then c :: d :: toWellFormed s''
            else 0xFFFD%N :: toWellFormed s'
        | [] => [0xFFFD%N]
        end
      else if isLowSurrogate c then 0xFFFD%N :: toWellFormed s'
      else c :: toWellFormed s'
  end.

Record Row := mkRow {
  row_id : nat;
  row_content : jsstring;
  created_at : nat;
  updated_at : nat;
}.

(** The table in rowid order, and the largest id that AUTOINCREMENT has
    given out. *)
Record Table := mkTable {
  rows : list Row;
  sequence : nat;
}.

(** [this.db] is [null] until [initialize] has run. *)
Record DatabaseService := mkDatabaseService {
  db : option Table;
}.

Inductive DbError :=
| DatabaseNotInitialized.

(** What [initialize] leaves on a new file: the table exists and is empty. *)
Definition newDatabase : DatabaseService :=
  mkDatabaseService (Some (mkTable [] 0)).

(** [INSERT INTO documents (content, updated_at) VALUES (?, CURRENT_TIMESTAMP)]
    with [content] bound as text; [created_at] defaults to
    [CURRENT_TIMESTAMP] too. *)
Definition saveContent (content : jsstring) (now : nat) (s : DatabaseService)
    : DbError + DatabaseService :=
  match db s with
  | None => inl DatabaseNotInitialized
  | Some tbl =>
      let id := S (sequence tbl) in
      inr (mkDatabaseService
             (Some (mkTable (rows tbl ++ [mkRow id (toWellFormed content) now now]) id)))
  end.

(** [ORDER BY updated_at DESC LIMIT 1] over a scan in rowid order: a row
    takes the place of the candidate when its [updated_at] is greater;
    among rows with the same [updated_at] SQLite keeps the one it met
    first. *)
Fixpoint firstByUpdatedAtDesc (best : option Row) (l : list Row) : option Row :=
  match l with
  | [] => best
  | r :: l' =>
      match best with
      | None => firstByUpdatedAtDesc (Some r) l'
      | Some b =>
          if updated_at b <? updated_at r
          then firstByUpdatedAtDesc (Some r) l'
          else firstByUpdatedAtDesc best l'
      end
  end.

(** [SELECT content FROM documents ORDER BY updated_at DESC LIMIT 1];
    no row reads as [null]. *)
Definition getLatestContent (s : DatabaseService) : DbError + option jsstring :=
  match db s with
  | None => inl DatabaseNotInitialized
  | Some tbl => inr (row_content <$> firstByUpdatedAtDesc None (rows tbl))
  end.

(** ** Auxiliary notions used in the statements *)

Definition notLineTerminator (c : char) : Prop := isLineTerminator c = false.
Definition whiteSpace (c : char) : Prop := isSpace c = true.

(** The shape of a text the heading pattern accepts: [k] hashes, white
    space [ws], and a remainder [r] without line terminators. *)
Definition headingShape (s : jsstring) (k : nat) (ws r : jsstring) : Prop :=
  s = replicate k (ch "#") ++ ws ++ r ∧ 1 ≤ k ≤ 6 ∧
  ws ≠ [] ∧ Forall whiteSpace ws ∧ r ≠ [] ∧ Forall notLineTerminator r.

(** The store with one node replaced, and the identity of the next node
    that is created. *)
Definition upd (n : NodeId) (node : Node) (w : Editor) : Editor :=
  set_nodes <[n := node]> w.

Definition newId (w : Editor) : NodeId := fresh (dom (nodes w)).

(** As [reachesDocument], on a path that does not go through [t]. *)
Fixpoint reachesAvoiding (fuel : nat) (h : gmap positive Node)
    (doc t n : NodeId) : bool :=
  if decide (n = doc) then true else
  if decide (n = t) then false else
  match fuel with
  | 0 => false
  | S fuel' =>
      match h !! n with
      | Some node =>
          match parentNode node with
          | Some q => reachesAvoiding fuel' h doc t q
          | None => false
          end
      | None => false
      end
  end.

(** What the three block rewriters do once the new element exists:
    [outer] is the element that goes into the tree, [target] the element
    that receives the caret. *)
Definition blockTail (outer target textNode : NodeId) (afterText : jsstring) : M unit :=
  parent <- getParentNode textNode;
  match parent with
  | Some parent =>
      insertBefore parent outer textNode;;
      (if truthy (trim afterText) then
         afterNode <- createTextNode afterText;
         insertBefore parent afterNode textNode
       else ret ());;
      removeChild parent textNode;;
      setCursorAtEnd target
  | None => ret ()
  end;;
  setTimeout ClearProcessing 10;;
  ret ().

(** The caret is collapsed at [(n, offset)]. *)
Definition caretAt (w : Editor) (n : NodeId) (offset : nat) : Prop :=
  selection w = Some (Some (mkRange n offset n offset)).

(** The fields of the editor that no DOM operation touches. *)
Definition env (w : Editor) : NodeId * NodeId * bool * option nat :=
  (document w, editor w, classEmpty w, debounceTimer w).

(** The text run [t] holds [d] and is one of the children of the element
    [p]: [l1] are the siblings before it, [l2] those after it. *)
Record Attached (w : Editor) (t p : NodeId) (d : jsstring)
    (tg : string) (pp : option NodeId) (l1 l2 : list NodeId) : Prop := {
  att_text : nodes w !! t = Some (mkNode (TextNode d) (Some p) []);
  att_parent : nodes w !! p = Some (mkNode (ElementNode tg) pp (l1 ++ t :: l2));
  att_before : t ∉ l1;
  att_after : t ∉ l2;
}.

(** The document node exists and [n] is in its tree. *)
Definition InDocument (w : Editor) (n : NodeId) : Prop :=
  (∃ D, nodes w !! document w = Some D ∧ kind D = DocumentNode) ∧
  isConnected w n = true.

(** [w'] is [w] with the text run [t] taken out of the tree and the new
    nodes [mid] in its place among the children of [p]; nothing else that
    existed has changed, and one rewriter call has been accounted for. *)
Record Replaced (w w' : Editor) (t p : NodeId) (d : jsstring)
    (tg : string) (pp : option NodeId) (l1 mid l2 : list NodeId) : Prop := {
  rep_parent : nodes w' !! p = Some (mkNode (ElementNode tg) pp (l1 ++ mid ++ l2));
  rep_text : nodes w' !! t = Some (mkNode (TextNode d) None []);
  rep_frame : ∀ n, is_Some (nodes w !! n) → n ≠ p → n ≠ t →
                   nodes w' !! n = nodes w !! n;
  rep_fresh : ∀ n, n ∈ mid → nodes w !! n = None;
  rep_env : env w' = env w;
  rep_flag : isProcessing w' = true;
  rep_timers : timers w' = timers w ++ [(nextTimer w, (ClearProcessing, 10))];
}.

(** The element [n] with tag [tag] under [par] has the text content [s]:
    no child when [s] is empty, one text node otherwise. *)
Definition elementWithText (w : Editor) (n : NodeId) (tag : string)
    (par : NodeId) (s : jsstring) : Prop :=
  if truthy s
  then ∃ c, nodes w !! n = Some (mkNode (ElementNode tag) (Some par) [c]) ∧
            nodes w !! c = Some (mkNode (TextNode s) (Some n) [])
  else nodes w !! n = Some (mkNode (ElementNode tag) (Some par) []).

(** [n] is a text node under [par] holding [s]. *)
Definition plainText (w : Editor) (n par : NodeId) (s : jsstring) : Prop :=
  nodes w !! n = Some (mkNode (TextNode s) (Some par) []).

(** [w1] has all the nodes of [w], unchanged, and the same surroundings. *)
Definition extends (w w1 : Editor) : Prop :=
  (∀ n N, nodes w !! n = Some N → nodes w1 !! n = Some N) ∧
  selection w1 = selection w ∧ env w1 = env w ∧
  timers w1 = timers w ∧ nextTimer w1 = nextTimer w.

(** Leftover text [s] is kept as the text node of [aft] under [p], or
    there is no node for it. *)
Definition keptText (w : Editor) (p : NodeId) (s : jsstring) (keep : bool)
    (aft : list NodeId) : Prop :=
  if keep then ∃ a, aft = [a] ∧ plainText w a p s else aft = [].

(** The state a block rewriter leaves when the text run had a parent:
    [el] is the element put in the tree and [tgt] the element with the
    text, [tgt = el] but for a list, where [tgt] is the item of [el]. *)
Record BlockDone (w w' : Editor) (t p : NodeId) (d : jsstring) (tg : string)
    (pp : option NodeId) (l1 l2 : list NodeId) (el tgt : NodeId) (tag : string)
    (text after : jsstring) : Prop := {
  bd_replaced : ∃ aft, Replaced w w' t p d tg pp l1 (el :: aft) l2 ∧
                       keptText w' p after (truthy (trim after)) aft;
  bd_content : elementWithText w' tgt tag (if decide (tgt = el) then p else el) text;
  bd_new : nodes w !! tgt = None;
  bd_selection :
    selection w' =
    match selection w with
    | None => None
    | Some _ =>
        let k := if truthy text then 1 else 0 in
        if isConnected w' tgt then Some (Some (mkRange tgt k tgt k)) else Some None
    end;
  bd_connected : InDocument w t → isConnected w' tgt = true;
}.

(** The state an inline rewriter leaves when the text run had a parent:
    [el] is the new element, [bef] and [aft] the text nodes, if any, for
    the text before and after the match. *)
Record InlineDone (w w' : Editor) (t p : NodeId) (d : jsstring) (tg : string)
    (pp : option NodeId) (l1 l2 : list NodeId) (el : NodeId) (bef aft : list NodeId)
    (tag : string) (before content after : jsstring) : Prop := {
  id_replaced : Replaced w w' t p d tg pp l1 (bef ++ el :: aft) l2;
  id_before : keptText w' p before (truthy before) bef;
  id_after : keptText w' p after (truthy after) aft;
  id_content : elementWithText w' el tag p content;
  id_selection :
    selection w' =
    match selection w with
    | None => None
    | Some _ =>
        let k := S (indexOf el (l1 ++ bef ++ el :: aft ++ l2)) in
        if isConnected w' p then Some (Some (mkRange p k p k)) else Some None
    end;
  id_connected : InDocument w t → isConnected w' p = true;
}.

(** ** The detector and the rewriter as the specification words them

    The source interleaves detection and rewriting; the specification has
    a detector that returns at most one trigger match, chosen by a fixed
    precedence, and one [applyTransform] with a variant per kind. These
    definitions follow the specification and are compared with the source
    functions below. *)

Inductive TriggerMatch :=
| HeadingMatch (level : nat) (text : jsstring)
| ListMatch (text : jsstring)
| BlockquoteMatch (text : jsstring)
| BoldMatch (m : RegExpMatchArray)
| ItalicMatch (m : RegExpMatchArray)
| CodeMatch (m : RegExpMatchArray).

(** The first candidate that matched wins. *)
Fixpoint firstMatch (candidates : list (option TriggerMatch)) : option TriggerMatch :=
  match candidates with
  | [] => None
  | Some m :: _ => Some m
  | None :: rest => firstMatch rest
  end.

(** Block triggers look at the text before the caret: heading, then list,
    then blockquote. *)
Definition detectBlock (beforeCursor : jsstring) : option TriggerMatch :=
  firstMatch
    [(λ m, HeadingMatch (length (group 1 m)) (group 2 m)) <$> re_match headingRe beforeCursor;
     (λ m, ListMatch (group 1 m)) <$> re_match listRe beforeCursor;
     (λ m, BlockquoteMatch (group 1 m)) <$> re_match blockquoteRe beforeCursor].

(** Inline triggers look at the whole text run: bold with stars or
    underscores, then italic with a star or an underscore, then code. *)
Definition detectInline (textContent : jsstring) : option TriggerMatch :=
  firstMatch
    [BoldMatch <$> re_match boldStarRe textContent;
     BoldMatch <$> re_match boldUnderRe textContent;
     ItalicMatch <$> re_match italicStarRe textContent;
     ItalicMatch <$> re_match italicUnderRe textContent;
     CodeMatch <$> re_match codeRe textContent].

Definition applyTransform (textRun : NodeId) (afterCursor : jsstring)
    (m : TriggerMatch) : M unit :=
  match m with
  | HeadingMatch level text => replaceWithHeading textRun level text afterCursor
  | ListMatch text => replaceWithList textRun text afterCursor
  | BlockquoteMatch text => replaceWithBlockquote textRun text afterCursor
  | BoldMatch m => replaceWithBold textRun m
  | ItalicMatch m => replaceWithItalic textRun m
  | CodeMatch m => replaceWithCode textRun m
  end.

(** The parts of a trigger match: whether it is a block trigger, the tag
    of the element that gets the text, the text it gets, and the text of
    the run that lies before and after the match. *)
Definition isBlock (m : TriggerMatch) : bool :=
  match m with
  | HeadingMatch _ _ | ListMatch _ | BlockquoteMatch _ => true
  | BoldMatch _ | ItalicMatch _ | CodeMatch _ => false
  end.

Definition tagOf (m : TriggerMatch) : string :=
  match m with
  | HeadingMatch level _ => "h" +:+ decimal level
  | ListMatch _ => "li"
  | BlockquoteMatch _ => "blockquote"
  | BoldMatch _ => "strong"
  | ItalicMatch _ => "em"
  | CodeMatch _ => "code"
  end.

Definition contentOf (m : TriggerMatch) : jsstring :=
  match m with
  | HeadingMatch _ text | ListMatch text | BlockquoteMatch text => text
  | BoldMatch m | ItalicMatch m | CodeMatch m => group 1 m
  end.

Definition beforeOf (textContent : jsstring) (m : TriggerMatch) : jsstring :=
  match m with
  | HeadingMatch _ _ | ListMatch _ | BlockquoteMatch _ => []
  | BoldMatch m | ItalicMatch m | CodeMatch m => take (m_index m) textContent
  end.

Definition afterOf (textContent afterCursor : jsstring) (m : TriggerMatch) : jsstring :=
  match m with
  | HeadingMatch _ _ | ListMatch _ | BlockquoteMatch _ => afterCursor
  | BoldMatch m | ItalicMatch m | CodeMatch m =>
      drop (m_index m + length (m_full m)) textContent
  end.

(** Whether the text after the match gets a node: a block rewriter asks
    for a character that is not white space, an inline rewriter for any
    character. *)
Definition keepsAfter (m : TriggerMatch) (s : jsstring) : bool :=
  if isBlock m then truthy (trim s) else truthy s.

(** Where the caret goes: to the end of the content of the new element for
    a block trigger, right after the new element for an inline one. *)
Definition caretContainer (m : TriggerMatch) (p tgt : NodeId) : NodeId :=
  if isBlock m then tgt else p.

Definition caretOffset (m : TriggerMatch) (el : NodeId) (siblings : list NodeId) : nat :=
  if isBlock m then (if truthy (contentOf m) then 1 else 0)
  else S (indexOf el siblings).

(** What the detector returns for an event, given the text run and the
    offset of the caret: a space looks for block triggers only, any other
    inserted text for inline triggers only. *)
Definition detect (e : InputEvent) (textContent : jsstring) (offset : nat)
    : option TriggerMatch :=
  if isInsertText e && bool_decide (data e = Some (js " ")) then
    detectBlock (substringTo offset textContent)
  else if isInsertText e then detectInline textContent
  else None.

(** Events delivered one after the other. *)
Definition runEvents (evs : list Event) : M unit := forEach step evs.

(** A computation leaves the observation [f] of the editor as it was,
    whether it returns or throws. *)
Definition keeps {A X} (f : Editor → X) (m : M A) : Prop :=
  ∀ w, f (m w).2 = f w.

(** The timers of the editor. *)
Definition clock (w : Editor) : list (nat * (TimerTask * nat)) * nat :=
  (timers w, nextTimer w).

(** What stays and what changes over one call of a rewriter, in any
    state: the flag is set, and the release of the flag is scheduled once
    unless an exception cut the call short. *)
Definition control (w : Editor) :=
  (isProcessing w, env w, clock w).

Definition scheduled (w : Editor) : list (nat * (TimerTask * nat)) * nat :=
  (timers w ++ [(nextTimer w, (ClearProcessing, 10))], S (nextTimer w)).

Definition registersRelease (m : M unit) : Prop :=
  ∀ w, isProcessing (m w).2 = isProcessing w ∧ env (m w).2 = env w ∧
       clock (m w).2 = match (m w).1 with Ok _ => scheduled w | Throw _ => clock w end.

Definition rewriterEffect (m : M unit) : Prop :=
  ∀ w, isProcessing (m w).2 = true ∧ env (m w).2 = env w ∧
       clock (m w).2 = match (m w).1 with Ok _ => scheduled w | Throw _ => clock w end.

(** The state any rewriter leaves when the text run had a parent. *)
Record TransformDone (w w' : Editor) (t p : NodeId) (d : jsstring) (tg : string)
    (pp : option NodeId) (l1 l2 : list NodeId) (after : jsstring) (m : TriggerMatch)
    (el tgt : NodeId) (bef aft : list NodeId) : Prop := {
  td_replaced : Replaced w w' t p d tg pp l1 (bef ++ el :: aft) l2;
  td_before : keptText w' p (beforeOf d m) (truthy (beforeOf d m)) bef;
  td_after : keptText w' p (afterOf d after m) (keepsAfter m (afterOf d after m)) aft;
  td_content :
    elementWithText w' tgt (tagOf m) (if decide (tgt = el) then p else el) (contentOf m);
  td_outer : tgt = el ∨
             (isBlock m = true ∧
              nodes w' !! el = Some (mkNode (ElementNode "ul") (Some p) [tgt]));
  td_new : nodes w !! tgt = None;
  td_selection :
    selection w' =
    match selection w with
    | None => None
    | Some _ =>
        let c := caretContainer m p tgt in
        let k := caretOffset m el (l1 ++ bef ++ el :: aft ++ l2) in
        if isConnected w' c then Some (Some (mkRange c k c k)) else Some None
    end;
  td_connected : InDocument w t → isConnected w' (caretContainer m p tgt) = true;
}.

(** The shape the claim gives for a heading trigger: hashes, white space
    and a remainder with a character that is not white space. *)
Definition claimedHeadingShape (s : jsstring) : Prop :=
  ∃ k ws r, s = replicate k (ch "#") ++ ws ++ r ∧ 1 ≤ k ≤ 6 ∧
            ws ≠ [] ∧ Forall whiteSpace ws ∧ Exists (λ c, isSpace c = false) r.

(** The text [full] of an inline match at [index] in [s]: the group
    between two copies of the delimiter [delim], the group not empty and
    free of the delimiter character [c]. *)
Definition delimited (c : char) (delim : jsstring) (m : RegExpMatchArray) : Prop :=
  m_full m = delim ++ group 1 m ++ delim ∧ group 1 m ≠ [] ∧ c ∉ group 1 m.

(** The match in [s] has no character [c] right before it or right after
    it. *)
Definition notAdjacent (c : char) (s : jsstring) (m : RegExpMatchArray) : Prop :=
  (∀ i, m_index m = S i → s !! i ≠ Some c) ∧
  s !! (m_index m + length (m_full m)) ≠ Some c.

(** The delimiter character of the inline pattern that matches first. *)
Definition matches (re : regex) (s : jsstring) : bool :=
  match re_match re s with Some _ => true | None => false end.

Definition inlineDelimiter (textContent : jsstring) : option char :=
  if matches boldStarRe textContent then Some (ch "*")
  else if matches boldUnderRe textContent then Some (ch "_")
  else if matches italicStarRe textContent then Some (ch "*")
  else if matches italicUnderRe textContent then Some (ch "_")
  else if matches codeRe textContent then Some (ch "`")
  else None.

(** What the precedence of the block triggers means for a match found in
    the text [b] before the caret: a list is found only where the heading
    pattern fails, a blockquote only where the list pattern fails too. *)
Definition blockOrder (b : jsstring) (m : TriggerMatch) : Prop :=
  match m with
  | HeadingMatch _ _ => matches headingRe b = true
  | ListMatch _ => matches headingRe b = false ∧ matches listRe b = true
  | BlockquoteMatch _ =>
      matches headingRe b = false ∧ matches listRe b = false ∧
      matches blockquoteRe b = true
  | _ => False
  end.

(** The same for the inline triggers in the text run [s]: bold is text
    between doubled stars or doubled underscores; italic is found only
    where no bold pattern matches, between single delimiters with no
    further delimiter next to them; code only where neither bold nor
    italic match. *)
Definition inlineOrder (s : jsstring) (m : TriggerMatch) : Prop :=
  match m with
  | BoldMatch a =>
      delimited (ch "*") (js "**") a ∨
      (matches boldStarRe s = false ∧ delimited (ch "_") (js "__") a)
  | ItalicMatch a =>
      matches boldStarRe s = false ∧ matches boldUnderRe s = false ∧
      ((delimited (ch "*") (js "*") a ∧ notAdjacent (ch "*") s a) ∨
       (matches italicStarRe s = false ∧
        delimited (ch "_") (js "_") a ∧ notAdjacent (ch "_") s a))
  | CodeMatch a =>
      matches boldStarRe s = false ∧ matches boldUnderRe s = false ∧
      matches italicStarRe s = false ∧ matches italicUnderRe s = false ∧
      delimited (ch "`") (js "`") a
  | _ => False
  end.

(** ** Occurrences of an inline trigger *)

(** [s] holds the text [g] between two copies of [delim], after [pre] and
    before [post]; [g] is not empty and has no character [c]. A [lone]
    delimiter has no character [c] right before it or right after it. *)
Definition occursAt (delim : jsstring) (c : char) (lone : bool)
    (s pre g post : jsstring) : Prop :=
  s = pre ++ delim ++ g ++ delim ++ post ∧ g ≠ [] ∧ (c ∉ g) ∧
  (lone = true → last pre ≠ Some c ∧ head post ≠ Some c).

(** The occurrence that starts first. *)
Definition firstOccurrence (delim : jsstring) (c : char) (lone : bool)
    (s pre g post : jsstring) : Prop :=
  occursAt delim c lone s pre g post ∧
  ∀ pre' g' post', occursAt delim c lone s pre' g' post' → length pre ≤ length pre'.

(** The match array of an occurrence. *)
Definition matchOf (delim pre g : jsstring) : RegExpMatchArray :=
  {| m_full := delim ++ g ++ delim; m_groups := [g]; m_index := length pre |}.

(** ** The other listeners and methods of the editor *)

(** [node] is [anc] or a node below it. *)
Definition isInclusiveDescendant (w : Editor) (node anc : NodeId) : bool :=
  reachesDocument (size (nodes w)) (nodes w) anc node.

(** Where the boundary points of a live range are after all the children
    of [n] were removed: a point in [n] or below it is at the start of
    [n]. *)
Definition relocate (w : Editor) (n : NodeId) (r : Range) : Range :=
  let start :=
    if isInclusiveDescendant w (startContainer r) n then (n, 0)
    else (startContainer r, startOffset r) in
  let end_ :=
    if isInclusiveDescendant w (endContainer r) n then (n, 0)
    else (endContainer r, endOffset r) in
  mkRange start.1 start.2 end_.1 end_.2.

(** [element.innerHTML = ""]: every child is removed, and the range of
    the selection, a live range, follows. *)
Definition clearInnerHTML (n : NodeId) : M unit :=
  w <- get;
  node <- getNode n;
  forEach (setParent None) (childNodes node);;
  setChildren [] n;;
  modify (set_selection
            match selection w with
            | Some (Some r) => Some (Some (relocate w n r))
            | s => s
            end).

(** [clear()] *)
Definition clear : M unit :=
  w <- get;
  clearInnerHTML (editor w);;
  showPlaceholder.

(** What a listener asks of the page. *)
Inductive Request :=
| PreventDefault
| ExecCommand (command : string) (value : option jsstring).

Record KeyboardEvent := mkKeyboardEvent {
  key : string;
  metaKey : bool;
  ctrlKey : bool;
}.

(** [toggleFormat(command)] *)
Definition toggleFormat (command : string) : list Request :=
  [ExecCommand command None].

(** The [keydown] listener: the requests it makes, in order. *)
Definition handleKeydown (e : KeyboardEvent) : list Request :=
  (if bool_decide (key e = "Tab")
   then [PreventDefault; ExecCommand "insertText" (Some (js "  "))]
   else []) ++
  (if metaKey e || ctrlKey e then
     if bool_decide (key e = "b") then PreventDefault :: toggleFormat "bold"
     else if bool_decide (key e = "i") then PreventDefault :: toggleFormat "italic"
     else if bool_decide (key e = "u") then PreventDefault :: toggleFormat "underline"
     else []
   else []).

(** The [paste] listener; [paste] is [e.clipboardData?.getData("text/plain")],
    [None] when there is no clipboard data. *)
Definition handlePaste (paste : option jsstring) : list Request :=
  PreventDefault ::
  match paste with
  | Some text => if truthy text then [ExecCommand "insertText" (Some text)] else []
  | None => []
  end.

(** ** The page around the editor *)

(** What happens on the page, one thing at a time: an input event or a
    timer reaches the editor, the editing surface gets or loses the
    focus, [clear] is called, or the user and the browser change the
    content and the selection. *)
Inductive PageEvent :=
| Deliver (ev : Event)
| Focus
| Blur
| Clear
| Edit (g : gmap positive Node → gmap positive Node) (s : option (option Range)).

Definition pageStep (pe : PageEvent) : M unit :=
  match pe with
  | Deliver ev => step ev
  | Focus => hidePlaceholder
  | Blur => showPlaceholder
  | Clear => clear
  | Edit g s => modify (set_nodes g);; modify (set_selection s)
  end.

(** An exception in a listener is reported and the page goes on. *)
Fixpoint runPage (pes : list PageEvent) (w : Editor) : Editor :=
  match pes with
  | [] => w
  | pe :: pes' => runPage pes' (pageStep pe w).2
  end.

(** No listener threw. *)
Fixpoint quiet (pes : list PageEvent) (w : Editor) : bool :=
  match pes with
  | [] => true
  | pe :: pes' =>
      match (pageStep pe w).1 with
      | Ok _ => quiet pes' (pageStep pe w).2
      | Throw _ => false
      end
  end.

Abbreviation Timer := (nat * (TimerTask * nat))%type (only parsing).

Definition isExecCommand (r : Request) : bool :=
  match r with ExecCommand _ _ => true | PreventDefault => false end.

Definition isAutoSave (t : Timer) : bool :=
  match t.2.1 with AutoSave => true | ClearProcessing => false end.

(** The timers as the page hands them out: ids are positive, below the
    next id, and pending once; the timer [debounceTimer] names, when it
    is pending, is an auto-save, and no other auto-save is pending. *)
Record TimersOk (w : Editor) : Prop := {
  ok_next : 1 ≤ nextTimer w;
  ok_ids : ∀ t, t ∈ timers w → 1 ≤ t.1 < nextTimer w;
  ok_nodup : NoDup (timers w).*1;
  ok_debounce : ∀ id, debounceTimer w = Some id →
                  id < nextTimer w ∧ ∀ t, t ∈ timers w → t.1 = id → t.2.1 = AutoSave;
  ok_save : ∀ t, t ∈ timers w → t.2.1 = AutoSave →
              debounceTimer w = Some t.1 ∧ t.2.2 = 500;
}.

(** While input is being ignored, the timer that ends it is pending. *)
Definition Covered (w : Editor) : Prop :=
  TimersOk w ∧
  (isProcessing w = true → ∃ id, (id, (ClearProcessing, 10)) ∈ timers w).

(** The caret, if any, is in a node of the store; a text run that holds
    the caret has no children, and when it has a parent, the parent is an
    element that lists it once. *)
Definition CaretOk (w : Editor) : Prop :=
  ∀ r, selection w = Some (Some r) →
  ∃ N, nodes w !! startContainer r = Some N ∧
       ∀ d, kind N = TextNode d →
         childNodes N = [] ∧
         ∀ p, parentNode N = Some p →
           ∃ tg pp l1 l2,
             nodes w !! p =
               Some (mkNode (ElementNode tg) pp (l1 ++ startContainer r :: l2)) ∧
             (startContainer r ∉ l1) ∧ (startContainer r ∉ l2).

(** The state [debouncedSave] leaves. *)
Definition rescheduled (w : Editor) : Editor :=
  let pending :=
    match debounceTimer w with
    | Some (S _ as t) => filter (λ x : Timer, x.1 ≠ t) (timers w)
    | _ => timers w
    end in
  set_debounceTimer (Some (nextTimer w))
    (set_timers (pending ++ [(nextTimer w, (AutoSave, 500))]) (S (nextTimer w)) w).

(** ** Runs of saves *)

(** Saves one after the other, each at the time its statement runs. *)
Fixpoint saveAll (saves : list (jsstring * nat)) (s : DatabaseService)
    : DbError + DatabaseService :=
  match saves with
  | [] => inr s
  | (content, now) :: rest =>
      match saveContent content now s with
      | inl e => inl e
      | inr s' => saveAll rest s'
      end
  end.

(** The rows that [saves] add to a table whose sequence stands at [seq]. *)
Definition savedRows (seq : nat) (saves : list (jsstring * nat)) : list Row :=
  imap (λ i save, mkRow (S (seq + i)) (toWellFormed save.1) save.2 save.2) saves.

(** ** Facts about the matcher *)

Section Matcher.

Lemma backtrack_Some {A} lo n (k : nat → option A) a :
  backtrack lo n k = Some a →
  ∃ j, lo ≤ j ≤ n ∧ k j = Some a ∧ ∀ j', j < j' ≤ n → k j' = None.
Proof.
  induction n as [|n IH]; simpl.
  - destruct lo; simpl; [|done].
    destruct (k 0) eqn:E; [|done]. intros [= ->].
    exists 0. repeat split; [lia..|done|intros; lia].
  - destruct (S n <? lo) eqn:Hlt; [done|].
    apply Nat.ltb_ge in Hlt.
    destruct (k (S n)) eqn:E.
    + intros [= ->]. exists (S n). repeat split; [lia..|done|intros; lia].
    + intros H. destruct (IH H) as (j & Hj & Hk & Hn).
      exists j. repeat split; [lia..|done|].
      intros j' Hj'. destruct (decide (j' = S n)) as [->|]; [done|].
      apply Hn. lia.
Qed.

Lemma backtrack_None {A} lo n (k : nat → option A) :
  backtrack lo n k = None ↔ ∀ j, lo ≤ j ≤ n → k j = None.
Proof.
  induction n as [|n IH]; simpl.
  - destruct lo; simpl.
    + destruct (k 0) eqn:E; split; try done.
      * intros H. specialize (H 0). rewrite E in H. discriminate H. lia.
      * intros _ j Hj. by replace j with 0 by lia.
    + split; [|done]. intros _ j Hj. lia.
  - destruct (S n <? lo) eqn:Hlt.
    + apply Nat.ltb_lt in Hlt. split; [|done]. intros _ j Hj. lia.
    + apply Nat.ltb_ge in Hlt. destruct (k (S n)) eqn:E.
      * split; [done|]. intros H. rewrite H in E; [done|lia].
      * rewrite IH. split; intros H j Hj.
        -- destruct (decide (j = S n)) as [->|]; [done|]. apply H. lia.
        -- apply H. lia.
Qed.

Lemma backtrack_is_Some {A} lo n (k : nat → option A) j :
  lo ≤ j ≤ n → is_Some (k j) → is_Some (backtrack lo n k).
Proof.
  intros Hj [a Ha]. destruct (backtrack lo n k) eqn:E; [by eexists|].
  rewrite backtrack_None in E. rewrite E in Ha; done.
Qed.

(** The characters a quantifier takes are all in its class. *)
Lemma span_take p hi s j :
  j ≤ span p hi s → length (take j s) = j ∧ Forall (λ c, cls_match p c = true) (take j s).
Proof.
  revert hi j. induction s as [|c s IH]; intros hi j.
  - destruct hi as [[|?]|]; simpl; intros ?; replace j with 0 by lia; done.
  - destruct j as [|j]; [done|].
    destruct hi as [[|h]|]; simpl; [lia| |];
      (destruct (cls_match p c) eqn:Hc; [|lia]); intros Hj;
      apply Nat.succ_le_mono in Hj; destruct (IH _ j Hj) as [Hl Hf];
      (split; [by rewrite Hl|by constructor]).
Qed.

Lemma span_bound p h s : span p (Some h) s ≤ h.
Proof.
  revert h. induction s as [|c s IH]; intros [|h]; simpl; try lia.
  destruct (cls_match p c); [|lia]. specialize (IH h). lia.
Qed.

Lemma span_stop p hi s j c :
  j ≤ span p hi s → drop j s !! 0 = Some c → cls_match p c = false → span p hi s = j.
Proof.
  revert hi j. induction s as [|c' s IH]; intros hi j.
  - by rewrite drop_nil.
  - destruct j as [|j]; simpl drop.
    + intros _ [= ->] Hc. destruct hi as [[|h]|]; simpl; by rewrite ?Hc.
    + intros Hj Hd Hc. destruct hi as [[|h]|]; simpl in *; [lia| |];
        (destruct (cls_match p c'); [|lia]); f_equal;
        eapply IH; eauto; lia.
Qed.

(** A prefix of characters of the class is within reach of the quantifier. *)
Lemma span_prefix p s s' :
  Forall (λ c, cls_match p c = true) s → length s ≤ span p None (s ++ s').
Proof.
  induction 1 as [|c s Hc _ IH]; simpl; [lia|].
  rewrite Hc. simpl. lia.
Qed.

Lemma span_prefix_bounded p h s s' :
  Forall (λ c, cls_match p c = true) s → length s ≤ h →
  length s ≤ span p (Some h) (s ++ s').
Proof.
  intros Hs. revert h. induction Hs as [|c s Hc _ IH]; intros h Hh; simpl; [lia|].
  destruct h as [|h]; simpl in *; [lia|]. rewrite Hc.
  specialize (IH h). lia.
Qed.

(** A pattern anchored with [^] can only match at index 0. *)
Lemma search_bol r pre rest i :
  pre ≠ [] → search (Bol :: r) pre rest i = None.
Proof.
  revert pre i. induction rest as [|c rest IH]; intros [|c' pre] i Hp; try done; simpl.
  by apply IH.
Qed.

Lemma re_match_bol r s :
  re_match (Bol :: r) s =
  '(caps, out) ← run r [] s;
  Some {| m_full := take (length s - length out) s; m_groups := caps; m_index := 0 |}.
Proof.
  unfold re_match. destruct s as [|c s]; simpl.
  - by destruct (run r [] []) as [[??]|].
  - destruct (run r [] (c :: s)) as [[??]|]; [done|]. by apply search_bol.
Qed.

End Matcher.

(** ** The block patterns, declaratively *)

Section BlockPatterns.


Lemma all_char_replicate c (l : jsstring) :
  Forall (λ x, cls_match (CChar c) x = true) l → l = replicate (length l) c.
Proof.
  induction 1 as [|x l Hx _ IH]; simpl; [done|].
  apply N.eqb_eq in Hx. by rewrite Hx, <- IH.
Qed.

Lemma replicate_all_char c k :
  Forall (λ x, cls_match (CChar c) x = true) (replicate k c).
Proof. induction k; constructor; [apply N.eqb_refl|done]. Qed.

Lemma forall_dot (r : jsstring) :
  Forall (λ c, cls_match CDot c = true) r ↔ Forall notLineTerminator r.
Proof.
  apply Forall_iff. intros c. unfold notLineTerminator. simpl.
  by destruct (isLineTerminator c).
Qed.

Lemma drop_all_take {A} j (l : list A) : drop j l = [] → take j l = l.
Proof. intros H. rewrite <- (take_drop j l) at 2. by rewrite H, app_nil_r. Qed.

Lemma backtrack_top {A} lo n (k : nat → option A) a :
  lo ≤ n → k n = Some a → backtrack lo n k = Some a.
Proof.
  intros Hlo Hk. destruct n; simpl.
  - replace lo with 0 by lia. simpl. by rewrite Hk.
  - destruct (S n <? lo) eqn:E; [apply Nat.ltb_lt in E; lia|]. by rewrite Hk.
Qed.

Lemma span_all p s :
  Forall (λ c, cls_match p c = true) s → span p None s = length s.
Proof. induction 1 as [|c s Hc _ IH]; simpl; [done|]. by rewrite Hc, IH. Qed.

(** The last group of the block patterns takes all that is left, when
    there is no line terminator in it. *)
Lemma run_dot_end lo pre r :
  lo ≤ length r → Forall notLineTerminator r →
  run [Rep true CDot lo None; Eol] pre r = Some ([r], []).
Proof.
  intros Hlo Hr. simpl. apply forall_dot in Hr.
  apply backtrack_top; rewrite span_all by done; [done|].
  by rewrite drop_all, firstn_all.
Qed.

Lemma run_dot_end_inv lo pre r caps out :
  run [Rep true CDot lo None; Eol] pre r = Some (caps, out) →
  lo ≤ length r ∧ Forall notLineTerminator r ∧ caps = [r] ∧ out = [].
Proof.
  simpl. intros H. apply backtrack_Some in H as (j & Hj & H & _).
  destruct (drop j r) eqn:Hend; simplify_eq/=.
  apply drop_all_take in Hend. rewrite Hend.
  destruct (span_take _ _ _ _ (proj2 Hj)) as [Hl Hf]. rewrite Hend in Hl, Hf.
  repeat split; [lia|by apply forall_dot].
Qed.

Lemma span_extend p s j c :
  j ≤ span p None s → s !! j = Some c → cls_match p c = true → S j ≤ span p None s.
Proof.
  revert j. induction s as [|c' s IH]; intros j; [done|].
  destruct j as [|j]; simpl.
  - intros _ [= ->] ->. lia.
  - destruct (cls_match p c'); [|lia]. intros Hj Hc Hm.
    specialize (IH j ltac:(lia) Hc Hm). lia.
Qed.


Lemma run_heading_Some s caps out :
  run (tail headingRe) [] s = Some (caps, out) →
  ∃ k ws r, headingShape s k ws r ∧ caps = [replicate k (ch "#"); r] ∧ out = [] ∧
            (∀ c, r !! 0 = Some c → isSpace c = true → length r = 1).
Proof.
  simpl. intros H.
  apply backtrack_Some in H as (j1 & Hj1 & H & _).
  destruct (backtrack 1 (span CSpace None (drop j1 s)) _) as [[caps2 out2]|] eqn:H2;
    simplify_eq/=.
  apply backtrack_Some in H2 as (j2 & Hj2 & H2 & Hmax).
  destruct (backtrack 1 (span CDot None (drop j2 (drop j1 s))) _)
    as [[caps3 out3]|] eqn:H3; simplify_eq/=.
  apply backtrack_Some in H3 as (j3 & Hj3 & H3 & _).
  destruct (drop j3 (drop j2 (drop j1 s))) eqn:Hend; simplify_eq/=.
  apply drop_all_take in Hend. rewrite Hend.
  destruct (span_take _ _ _ _ (proj2 Hj1)) as [Hl1 Hf1].
  destruct (span_take _ _ _ _ (proj2 Hj2)) as [Hl2 Hf2].
  destruct (span_take _ _ _ _ (proj2 Hj3)) as [Hl3 Hf3].
  rewrite Hend in Hl3, Hf3.
  apply all_char_replicate in Hf1 as Hrep. rewrite Hl1 in Hrep.
  exists j1, (take j2 (drop j1 s)), (drop j2 (drop j1 s)).
  split; [|split; [by rewrite Hrep|split; [done|]]].
  - pose proof (span_bound (CChar (ch "#")) 6 s).
    repeat split.
    + by rewrite <- Hrep, !take_drop.
    + lia.
    + lia.
    + intros E. rewrite E in Hl2. simpl in Hl2. lia.
    + done.
    + intros E. rewrite E in Hl3. simpl in Hl3. lia.
    + by apply forall_dot.
  - intros c Hc Hsp. rewrite lookup_drop, Nat.add_0_r in Hc.
    pose proof (span_extend CSpace _ _ _ (proj2 Hj2) Hc Hsp) as Hext.
    specialize (Hmax (S j2) ltac:(lia)).
    set (r := drop j2 (drop j1 s)) in *.
    assert (drop (S j2) (drop j1 s) = drop 1 r) as Hr'
      by (subst r; rewrite !drop_drop; f_equal; lia).
    rewrite Hr' in Hmax.
    destruct (decide (1 ≤ length (drop 1 r))) as [Hlen|Hlen].
    + pose proof (run_dot_end 1 [] (drop 1 r) Hlen) as Hd. simpl in Hd.
      rewrite Hd in Hmax; [done|].
      apply forall_dot in Hf3. by apply Forall_drop.
    + rewrite length_drop in Hlen. lia.
Qed.

Lemma drop_replicate_app {A} k (c : A) l : drop k (replicate k c ++ l) = l.
Proof. rewrite <- (length_replicate k c) at 1. apply drop_app_length. Qed.

Lemma take_replicate_app {A} k (c : A) l : take k (replicate k c ++ l) = replicate k c.
Proof. rewrite <- (length_replicate k c) at 1. apply take_app_length. Qed.

Ltac under_bind :=
  match goal with
  | |- is_Some (?o ≫= _) => assert (is_Some o) as [[? ?] ->]; [|by eexists]
  end.

Lemma run_heading_is_Some s k ws r :
  headingShape s k ws r → is_Some (run (tail headingRe) [] s).
Proof.
  intros (-> & Hk & Hws & Hsp & Hr & Hnl). simpl.
  eapply (backtrack_is_Some _ _ _ k).
  { split; [lia|]. rewrite <- (length_replicate k (ch "#")) at 1.
    apply span_prefix_bounded; [apply replicate_all_char|].
    rewrite length_replicate. lia. }
  rewrite drop_replicate_app. under_bind.
  eapply (backtrack_is_Some _ _ _ (length ws)).
  { split; [destruct ws; simpl; [done|lia]|]. by apply span_prefix. }
  rewrite drop_app_length. under_bind.
  eapply (backtrack_is_Some _ _ _ (length r)).
  { split; [destruct r; simpl; [done|lia]|].
    rewrite <- (app_nil_r r) at 2. by apply span_prefix, forall_dot. }
  rewrite drop_all. by eexists.
Qed.

(** What a match of the heading pattern is: the text is hashes, white
    space and a remainder; the groups are the hashes and the remainder;
    the white space taken is the longest possible, but for the one
    character it gives back when nothing else is left for the remainder. *)
Lemma re_match_heading s m :
  re_match headingRe s = Some m →
  ∃ k ws r,
    headingShape s k ws r ∧
    m = {| m_full := s; m_groups := [replicate k (ch "#"); r]; m_index := 0 |} ∧
    (∀ c, r !! 0 = Some c → isSpace c = true → length r = 1).
Proof.
  change headingRe with (Bol :: tail headingRe). rewrite re_match_bol.
  destruct (run _ [] s) as [[caps out]|] eqn:Hrun; [|done]. intros [= <-].
  apply run_heading_Some in Hrun as (k & ws & r & Hshape & -> & -> & Hg).
  exists k, ws, r. split; [done|]. split; [|done].
  simpl. by rewrite Nat.sub_0_r, firstn_all.
Qed.

Lemma re_match_heading_is_Some s :
  is_Some (re_match headingRe s) ↔ ∃ k ws r, headingShape s k ws r.
Proof.
  split.
  - intros [m Hm]. apply re_match_heading in Hm as (k & ws & r & ? & _). eauto.
  - intros (k & ws & r & Hshape).
    change headingRe with (Bol :: tail headingRe). rewrite re_match_bol.
    destruct (run_heading_is_Some _ _ _ _ Hshape) as [[caps out] ->]. by eexists.
Qed.

Lemma run_one_reject p r pre c s :
  cls_match p c = false → run (One p :: r) pre (c :: s) = None.
Proof. intros H. simpl. by rewrite H. Qed.

(** Hashes and one space are no block trigger at all. *)
Lemma hashes_space_no_block k :
  detectBlock (replicate k (ch "#") ++ [ch " "]) = None.
Proof.
  unfold detectBlock. cbn [firstMatch].
  destruct (re_match headingRe _) as [m|] eqn:Hm.
  { exfalso. apply re_match_heading in Hm
      as (k' & ws & r & (Heq & Hk & Hws & Hsp & Hr & _) & _).
    assert (k' < k) as Hlt.
    { apply (f_equal length) in Heq. rewrite !length_app, !length_replicate in Heq.
      destruct ws, r; simpl in *; try done; lia. }
    apply (f_equal (λ l, l !! k')) in Heq.
    rewrite lookup_app_l, lookup_replicate_2 in Heq by (rewrite ?length_replicate; lia).
    rewrite lookup_app_r, length_replicate, Nat.sub_diag in Heq
      by (rewrite length_replicate; lia).
    destruct ws as [|c ws]; [done|]. simpl in Heq. injection Heq as <-.
    apply Forall_cons in Hsp as [Hc _]. by vm_compute in Hc. }
  cbn [fmap option_fmap option_map].
  unfold listRe, blockquoteRe. rewrite !re_match_bol.
  destruct k as [|k]; [by vm_compute|].
  cbn [replicate app]. by rewrite !run_one_reject.
Qed.

End BlockPatterns.

(** ** The inline patterns *)

Section InlinePatterns.

Lemma search_run r pre rest i m :
  search r pre rest i = Some m →
  ∃ pre' rest' out, run r pre' rest' = Some (m_groups m, out).
Proof.
  revert pre i. induction rest as [|c rest IH]; intros pre i; simpl.
  - destruct (run r pre []) as [[caps out]|] eqn:E; [|done]. intros [= <-]. eauto.
  - destruct (run r pre (c :: rest)) as [[caps out]|] eqn:E.
    + intros [= <-]. eauto.
    + apply IH.
Qed.

(** The group of an inline pattern is not empty and holds no delimiter. *)
Lemma run_delimited (d : char) (before after : list item) pre rest caps out :
  (∀ pre' rest' caps' out',
     run after pre' rest' = Some (caps', out') → caps' = []) →
  (∀ r' pre' rest',
     run (before ++ r') pre' rest' = None ∨
     ∃ pre'' rest'', run (before ++ r') pre' rest' = run r' pre'' rest'') →
  run (before ++ Rep true (CNot [d]) 1 None :: after) pre rest = Some (caps, out) →
  ∃ g, caps = [g] ∧ g ≠ [] ∧ d ∉ g.
Proof.
  intros Hafter Hbefore H.
  destruct (Hbefore (Rep true (CNot [d]) 1 None :: after) pre rest)
    as [E|(pre' & rest' & E)]; rewrite E in H; [done|]. clear E.
  simpl in H. apply backtrack_Some in H as (j & Hj & H & _).
  destruct (run after _ _) as [[caps' out']|] eqn:E; simplify_eq/=.
  apply Hafter in E as ->.
  destruct (span_take _ _ _ _ (proj2 Hj)) as [Hl Hf].
  exists (take j rest'). split; [done|]. split.
  - intros E. rewrite E in Hl. simpl in Hl. lia.
  - intros Hin. rewrite Forall_forall in Hf. specialize (Hf d Hin).
    simpl in Hf. by rewrite N.eqb_refl in Hf.
Qed.

Lemma inline_group (re : regex) (d : char) s m :
  (re, d) ∈ [(boldStarRe, ch "*"); (boldUnderRe, ch "_"); (italicStarRe, ch "*");
             (italicUnderRe, ch "_"); (codeRe, ch "`")] →
  re_match re s = Some m →
  group 1 m ≠ [] ∧ d ∉ group 1 m.
Proof.
  intros Hin Hm. apply search_run in Hm as (pre & rest & out & Hrun).
  assert (∃ g, m_groups m = [g] ∧ g ≠ [] ∧ d ∉ g) as (g & Hg & ? & ?);
    [|by unfold group; rewrite Hg].
  repeat (apply elem_of_cons in Hin as [[= -> ->]|Hin]);
    [..|by apply elem_of_nil in Hin].
  - eapply (run_delimited (ch "*") [One (CChar (ch "*")); One (CChar (ch "*"))]
             [One (CChar (ch "*")); One (CChar (ch "*"))] pre rest); [| |exact Hrun].
    + intros pre' rest' caps' out'. simpl.
      repeat (destruct rest' as [|? rest']; [done|]; destruct (_ =? _)%N; [|done]).
      by intros [= <- _].
    + intros r' pre' rest'. simpl.
      repeat (destruct rest' as [|? rest']; [by left|]; destruct (_ =? _)%N; [|by left]).
      right. eauto.
  - eapply (run_delimited (ch "_") [One (CChar (ch "_")); One (CChar (ch "_"))]
             [One (CChar (ch "_")); One (CChar (ch "_"))] pre rest); [| |exact Hrun].
    + intros pre' rest' caps' out'. simpl.
      repeat (destruct rest' as [|? rest']; [done|]; destruct (_ =? _)%N; [|done]).
      by intros [= <- _].
    + intros r' pre' rest'. simpl.
      repeat (destruct rest' as [|? rest']; [by left|]; destruct (_ =? _)%N; [|by left]).
      right. eauto.
  - eapply (run_delimited (ch "*") [NotBehind (CChar (ch "*")); One (CChar (ch "*"))]
             [One (CChar (ch "*")); NotAhead (CChar (ch "*"))] pre rest); [| |exact Hrun].
    + intros pre' rest' caps' out'. simpl.
      destruct rest' as [|? rest']; [done|]. destruct (_ =? _)%N; [|done].
      destruct rest' as [|? rest']; [by intros [= <- _]|].
      destruct (_ =? _)%N; [done|]. by intros [= <- _].
    + intros r' pre' rest'. simpl.
      destruct pre' as [|? pre']; [|destruct (_ =? _)%N; [by left|]];
        (destruct rest' as [|? rest']; [by left|]; destruct (_ =? _)%N; [|by left]);
        right; eauto.
  - eapply (run_delimited (ch "_") [NotBehind (CChar (ch "_")); One (CChar (ch "_"))]
             [One (CChar (ch "_")); NotAhead (CChar (ch "_"))] pre rest); [| |exact Hrun].
    + intros pre' rest' caps' out'. simpl.
      destruct rest' as [|? rest']; [done|]. destruct (_ =? _)%N; [|done].
      destruct rest' as [|? rest']; [by intros [= <- _]|].
      destruct (_ =? _)%N; [done|]. by intros [= <- _].
    + intros r' pre' rest'. simpl.
      destruct pre' as [|? pre']; [|destruct (_ =? _)%N; [by left|]];
        (destruct rest' as [|? rest']; [by left|]; destruct (_ =? _)%N; [|by left]);
        right; eauto.
  - eapply (run_delimited (ch "`") [One (CChar (ch "`"))]
             [One (CChar (ch "`"))] pre rest); [| |exact Hrun].
    + intros pre' rest' caps' out'. simpl.
      destruct rest' as [|? rest']; [done|]. destruct (_ =? _)%N; [|done].
      by intros [= <- _].
    + intros r' pre' rest'. simpl.
      destruct rest' as [|? rest']; [by left|]. destruct (_ =? _)%N; [|by left].
      right. eauto.
Qed.

(** Reading a successful run backwards, item by item. *)
Lemma run_one_inv c r pre rest res :
  run (One (CChar c) :: r) pre rest = Some res →
  ∃ rest', rest = c :: rest' ∧ run r (c :: pre) rest' = Some res.
Proof.
  simpl. destruct rest as [|c' rest']; [done|].
  destruct (c' =? c)%N eqn:E; [|done]. apply N.eqb_eq in E as ->. eauto.
Qed.

Lemma run_rep_inv p lo hi r pre rest caps out :
  run (Rep true p lo hi :: r) pre rest = Some (caps, out) →
  ∃ g rest' caps',
    rest = g ++ rest' ∧ Forall (λ c, cls_match p c = true) g ∧ lo ≤ length g ∧
    caps = g :: caps' ∧ run r (reverse g ++ pre) rest' = Some (caps', out).
Proof.
  simpl. intros H. apply backtrack_Some in H as (j & Hj & H & _).
  destruct (run r _ _) as [[caps' out']|] eqn:E; simplify_eq/=.
  destruct (span_take _ _ _ _ (proj2 Hj)) as [Hl Hf].
  exists (take j rest), (drop j rest), caps'.
  rewrite take_drop. repeat split; [done|lia|done].
Qed.

Lemma run_not_behind_inv c r pre rest res :
  run (NotBehind (CChar c) :: r) pre rest = Some res →
  head pre ≠ Some c ∧ run r pre rest = Some res.
Proof.
  simpl. destruct pre as [|c' pre]; [done|].
  destruct (c' =? c)%N eqn:E; [done|]. apply N.eqb_neq in E.
  split; [|done]. simpl. congruence.
Qed.

Lemma run_not_ahead_inv c r pre rest res :
  run (NotAhead (CChar c) :: r) pre rest = Some res →
  head rest ≠ Some c ∧ run r pre rest = Some res.
Proof.
  simpl. destruct rest as [|c' rest']; [done|].
  destruct (c' =? c)%N eqn:E; [done|]. apply N.eqb_neq in E.
  split; [|done]. simpl. congruence.
Qed.

Lemma not_in_class c (g : jsstring) :
  Forall (λ x, cls_match (CNot [c]) x = true) g → c ∉ g.
Proof.
  intros Hf Hin. rewrite Forall_forall in Hf. specialize (Hf c Hin).
  simpl in Hf. by rewrite N.eqb_refl in Hf.
Qed.

(** Where a search succeeds: at the position with the first [j]
    characters behind it. *)
Lemma search_at r pre rest i m :
  search r pre rest i = Some m →
  ∃ j out,
    m_index m = i + j ∧
    run r (reverse (take j rest) ++ pre) (drop j rest) = Some (m_groups m, out) ∧
    m_full m = take (length (drop j rest) - length out) (drop j rest).
Proof.
  revert pre i. induction rest as [|c rest IH]; intros pre i; simpl.
  - destruct (run r pre []) as [[caps out]|] eqn:E; [|done]. intros [= <-].
    exists 0, out. by rewrite Nat.add_0_r.
  - destruct (run r pre (c :: rest)) as [[caps out]|] eqn:E.
    + intros [= <-]. exists 0, out. by rewrite Nat.add_0_r.
    + intros H. apply IH in H as (j & out & Hj & Hrun & Hf).
      exists (S j), out. split; [lia|]. split; [|done].
      cbn [take drop]. by rewrite reverse_cons, <- app_assoc.
Qed.

Lemma take_suffix {A} (x l out : list A) :
  x = l ++ out → take (length x - length out) x = l.
Proof.
  intros ->. rewrite length_app, Nat.add_sub. by rewrite take_app_length.
Qed.

Lemma lookup_drop_head {A} j (s : list A) : head (drop j s) = s !! j.
Proof. by rewrite head_lookup, lookup_drop, Nat.add_0_r. Qed.

Lemma head_reverse_take {A} i (s : list A) :
  S i ≤ length s → head (reverse (take (S i) s) ++ []) = s !! i.
Proof.
  intros Hi. rewrite app_nil_r.
  destruct (lookup_lt_is_Some_2 s i Hi) as [x Hx].
  by rewrite (take_S_r _ _ _ Hx), reverse_app, Hx.
Qed.

(** The five inline patterns: what text they match. *)
Lemma re_match_bold c re s m :
  re = [One (CChar c); One (CChar c); Rep true (CNot [c]) 1 None;
        One (CChar c); One (CChar c)] →
  re_match re s = Some m → delimited c [c; c] m.
Proof.
  intros -> H. apply search_at in H as (j & out & _ & Hrun & Hfull).
  apply run_one_inv in Hrun as (r1 & E1 & Hrun).
  apply run_one_inv in Hrun as (r2 & -> & Hrun).
  destruct (m_groups m) as [|g0 caps] eqn:Hg;
    apply run_rep_inv in Hrun as (g & r3 & caps' & -> & Hf & Hl & Hc & Hrun); [done|].
  apply run_one_inv in Hrun as (r4 & -> & Hrun).
  apply run_one_inv in Hrun as (r5 & -> & Hrun). simpl in Hrun.
  simplify_eq. unfold delimited, group. rewrite Hg. simpl.
  split; [|split; [destruct g; simpl in Hl; [lia|done]|by apply not_in_class]].
  rewrite Hfull. apply take_suffix. rewrite E1. simpl. by rewrite <- app_assoc.
Qed.

Lemma re_match_code s m :
  re_match codeRe s = Some m → delimited (ch "`") [ch "`"] m.
Proof.
  intros H. apply search_at in H as (j & out & _ & Hrun & Hfull).
  apply run_one_inv in Hrun as (r1 & E1 & Hrun).
  destruct (m_groups m) as [|g0 caps] eqn:Hg;
    apply run_rep_inv in Hrun as (g & r3 & caps' & -> & Hf & Hl & Hc & Hrun); [done|].
  apply run_one_inv in Hrun as (r4 & -> & Hrun). simpl in Hrun.
  simplify_eq. unfold delimited, group. rewrite Hg. simpl.
  split; [|split; [destruct g; simpl in Hl; [lia|done]|by apply not_in_class]].
  rewrite Hfull. apply take_suffix. rewrite E1. simpl. by rewrite <- app_assoc.
Qed.

Lemma re_match_italic c re s m :
  re = [NotBehind (CChar c); One (CChar c); Rep true (CNot [c]) 1 None;
        One (CChar c); NotAhead (CChar c)] →
  re_match re s = Some m → delimited c [c] m ∧ notAdjacent c s m.
Proof.
  intros -> H. apply search_at in H as (j & out & Hj & Hrun & Hfull).
  simpl in Hj. subst j.
  apply run_not_behind_inv in Hrun as (Hbehind & Hrun).
  apply run_one_inv in Hrun as (r1 & E1 & Hrun).
  destruct (m_groups m) as [|g0 caps] eqn:Hg;
    apply run_rep_inv in Hrun as (g & r3 & caps' & -> & Hf & Hl & Hc & Hrun); [done|].
  apply run_one_inv in Hrun as (r4 & -> & Hrun).
  apply run_not_ahead_inv in Hrun as (Hahead & Hrun). simpl in Hrun.
  simplify_eq.
  assert (m_full m = c :: g ++ [c]) as Hfull'.
  { rewrite Hfull. apply take_suffix. rewrite E1. simpl. by rewrite <- app_assoc. }
  split.
  - unfold delimited, group. rewrite Hg. simpl.
    split; [done|split; [destruct g; simpl in Hl; [lia|done]|by apply not_in_class]].
  - split.
    + intros i Hi. rewrite Hi in Hbehind, E1.
      rewrite head_reverse_take in Hbehind; [done|].
      apply (f_equal length) in E1. rewrite length_drop in E1. simpl in E1. lia.
    + rewrite Hfull'. rewrite <- lookup_drop, E1.
      replace (c :: g ++ c :: out) with ((c :: g ++ [c]) ++ out)
        by (simpl; by rewrite <- app_assoc).
      rewrite lookup_app_r by lia. rewrite Nat.sub_diag.
      by rewrite <- head_lookup.
Qed.

Lemma take_length_take {A} n (l : list A) : take (length (take n l)) l = take n l.
Proof.
  rewrite length_take. destruct (decide (n ≤ length l)).
  - by rewrite Nat.min_l.
  - rewrite Nat.min_r by lia. by rewrite !take_ge by lia.
Qed.

Lemma search_full r pre rest i m :
  search r pre rest i = Some m →
  ∃ j, m_index m = i + j ∧ m_full m = take (length (m_full m)) (drop j rest).
Proof.
  revert pre i. induction rest as [|c rest IH]; intros pre i; simpl.
  - destruct (run r pre []) as [[caps out]|]; [|done]. intros [= <-].
    exists 0. by rewrite Nat.add_0_r.
  - destruct (run r pre (c :: rest)) as [[caps out]|].
    + intros [= <-]. exists 0. rewrite Nat.add_0_r. split; [done|].
      cbn [m_full drop]. by rewrite take_length_take.
    + intros H. apply IH in H as (j & Hj & Hf). exists (S j). split; [lia|done].
Qed.

(** The text run is the text before the match, the match, and the text
    after it. *)
Lemma re_match_split re s m :
  re_match re s = Some m →
  s = take (m_index m) s ++ m_full m ++ drop (m_index m + length (m_full m)) s.
Proof.
  intros H. apply search_full in H as (j & Hj & Hf). simpl in Hj. subst j.
  rewrite Hf at 1. by rewrite <- drop_drop, !take_drop.
Qed.

Lemma detectBlock_isBlock b m : detectBlock b = Some m → isBlock m = true.
Proof.
  unfold detectBlock. cbn [firstMatch].
  destruct (re_match headingRe b); [by intros [= <-]|].
  destruct (re_match listRe b); [by intros [= <-]|].
  by destruct (re_match blockquoteRe b); [intros [= <-]|].
Qed.

Lemma detectInline_delimiter d m :
  detectInline d = Some m →
  isBlock m = false ∧
  ∃ c, inlineDelimiter d = Some c ∧ contentOf m ≠ [] ∧ c ∉ contentOf m.
Proof.
  unfold detectInline, inlineDelimiter, matches. cbn [firstMatch].
  destruct (re_match boldStarRe d) as [m'|] eqn:E1.
  { intros [= <-]. split; [done|]. exists (ch "*"). split; [done|].
    eapply inline_group; [|done]. set_solver. }
  destruct (re_match boldUnderRe d) as [m'|] eqn:E2.
  { intros [= <-]. split; [done|]. exists (ch "_"). split; [done|].
    eapply inline_group; [|done]. set_solver. }
  destruct (re_match italicStarRe d) as [m'|] eqn:E3.
  { intros [= <-]. split; [done|]. exists (ch "*"). split; [done|].
    eapply inline_group; [|done]. set_solver. }
  destruct (re_match italicUnderRe d) as [m'|] eqn:E4.
  { intros [= <-]. split; [done|]. exists (ch "_"). split; [done|].
    eapply inline_group; [|done]. set_solver. }
  destruct (re_match codeRe d) as [m'|] eqn:E5; [|done].
  intros [= <-]. split; [done|]. exists (ch "`"). split; [done|].
  eapply inline_group; [|done]. set_solver.
Qed.

Lemma detectBlock_order b m : detectBlock b = Some m → blockOrder b m.
Proof.
  unfold detectBlock, blockOrder, matches. cbn [firstMatch].
  destruct (re_match headingRe b); [by intros [= <-]|].
  destruct (re_match listRe b); [by intros [= <-]|].
  by destruct (re_match blockquoteRe b); [intros [= <-]|].
Qed.

Lemma detectInline_order s m : detectInline s = Some m → inlineOrder s m.
Proof.
  unfold detectInline, inlineOrder, matches. cbn [firstMatch].
  destruct (re_match boldStarRe s) as [a|] eqn:E1.
  { intros [= <-]. left. by apply (re_match_bold _ boldStarRe s). }
  destruct (re_match boldUnderRe s) as [a|] eqn:E2.
  { intros [= <-]. right. split; [done|]. by apply (re_match_bold _ boldUnderRe s). }
  destruct (re_match italicStarRe s) as [a|] eqn:E3.
  { intros [= <-]. do 2 (split; [done|]). left.
    by apply (re_match_italic _ italicStarRe s). }
  destruct (re_match italicUnderRe s) as [a|] eqn:E4.
  { intros [= <-]. do 2 (split; [done|]). right. split; [done|].
    by apply (re_match_italic _ italicUnderRe s). }
  destruct (re_match codeRe s) as [a|] eqn:E5; [|done].
  intros [= <-]. do 4 (split; [done|]). by apply (re_match_code s).
Qed.

End InlinePatterns.

(** ** Running DOM operations on a known store *)


Section Running.

Implicit Types (w : Editor) (n p t : positive) (N P : Node).

Lemma newId_fresh w : nodes w !! newId w = None.
Proof. unfold newId. apply not_elem_of_dom, is_fresh. Qed.

Lemma lookup_upd_eq w n N : nodes (upd n N w) !! n = Some N.
Proof. apply lookup_insert_eq. Qed.

Lemma lookup_upd_ne w n n' N : n ≠ n' → nodes (upd n N w) !! n' = nodes w !! n'.
Proof. apply lookup_insert_ne. Qed.

Lemma lookup_upd w n n' N :
  nodes (upd n N w) !! n' = if decide (n = n') then Some N else nodes w !! n'.
Proof. apply lookup_insert. Qed.

Lemma bind_run {A B} (m : M A) (k : A → M B) w a w1 :
  m w = (Ok a, w1) → bind m k w = k a w1.
Proof. unfold bind. by intros ->. Qed.

Lemma bind_bind {A B C} (m : M A) (k : A → M B) (k' : B → M C) w :
  bind (bind m k) k' w = bind m (λ a, bind (k a) k') w.
Proof. unfold bind. by destruct (m w) as [[a|e] w1]. Qed.

Lemma getNode_run w n N : nodes w !! n = Some N → getNode n w = (Ok N, w).
Proof. unfold getNode, bind, get. by intros ->. Qed.

Lemma putNode_run w n N : putNode n N w = (Ok (), upd n N w).
Proof. done. Qed.

Lemma allocNode_run w N : allocNode N w = (Ok (newId w), upd (newId w) N w).
Proof. done. Qed.

Lemma createElement_run w tag :
  createElement tag w =
  (Ok (newId w), upd (newId w) (mkNode (ElementNode tag) None []) w).
Proof. done. Qed.

Lemma createTextNode_run w s :
  createTextNode s w =
  (Ok (newId w), upd (newId w) (mkNode (TextNode s) None []) w).
Proof. done. Qed.

Lemma getParentNode_run w n N :
  nodes w !! n = Some N → getParentNode n w = (Ok (parentNode N), w).
Proof. intros H. unfold getParentNode. by rewrite (bind_run _ _ _ _ _ (getNode_run _ _ _ H)). Qed.

Lemma childCount_run w n N :
  nodes w !! n = Some N → childCount n w = (Ok (length (childNodes N)), w).
Proof. intros H. unfold childCount. by rewrite (bind_run _ _ _ _ _ (getNode_run _ _ _ H)). Qed.

Lemma setParent_run w n N q :
  nodes w !! n = Some N →
  setParent q n w = (Ok (), upd n (mkNode (kind N) q (childNodes N)) w).
Proof. intros H. unfold setParent. by rewrite (bind_run _ _ _ _ _ (getNode_run _ _ _ H)). Qed.

Lemma setChildren_run w n N l :
  nodes w !! n = Some N →
  setChildren l n w = (Ok (), upd n (mkNode (kind N) (parentNode N) l) w).
Proof. intros H. unfold setChildren. by rewrite (bind_run _ _ _ _ _ (getNode_run _ _ _ H)). Qed.

Lemma detach_run w n N :
  nodes w !! n = Some N → parentNode N = None → detach n w = (Ok (), w).
Proof.
  intros H Hp. unfold detach.
  rewrite (bind_run _ _ _ _ _ (getNode_run _ _ _ H)). by rewrite Hp.
Qed.

(** Inserting a detached element or text node under an element. *)
Lemma insertBefore_run w p n c P N C tg :
  nodes w !! p = Some P → nodes w !! n = Some N → nodes w !! c = Some C →
  kind P = ElementNode tg → kind N ≠ DocumentNode →
  parentNode C = Some p → parentNode N = None → n ≠ p →
  insertBefore p n c w =
  (Ok (), upd n (mkNode (kind N) (Some p) (childNodes N))
            (upd p (mkNode (kind P) (parentNode P)
                           (insertBeforeIn n c (childNodes P))) w)).
Proof.
  intros HP HN HC Hk HkN HpC HpN Hne. unfold insertBefore, ensurePreInsertValidity.
  rewrite (bind_run _ _ _ () w).
  2:{ rewrite (bind_run _ _ _ _ _ (getNode_run _ _ _ HP)).
      rewrite (bind_run _ _ _ _ _ (getNode_run _ _ _ HN)).
      rewrite (bind_run _ _ _ _ _ (getNode_run _ _ _ HC)).
      rewrite Hk. rewrite decide_True by done.
      by destruct (kind N). }
  rewrite (bind_run _ _ _ _ _ (detach_run _ _ _ HN HpN)).
  rewrite (bind_run _ _ _ _ _ (getNode_run _ _ _ HP)).
  rewrite (bind_run _ _ _ _ _ (setChildren_run _ _ _ _ HP)).
  erewrite setParent_run; [done|]. by rewrite lookup_upd_ne.
Qed.

Lemma removeChild_run w p c P C :
  nodes w !! p = Some P → nodes w !! c = Some C →
  parentNode C = Some p → c ≠ p →
  removeChild p c w =
  (Ok (), upd c (mkNode (kind C) None (childNodes C))
            (upd p (mkNode (kind P) (parentNode P)
                           (removeFrom c (childNodes P))) w)).
Proof.
  intros HP HC HpC Hne. unfold removeChild.
  rewrite (bind_run _ _ _ _ _ (getNode_run _ _ _ HC)).
  rewrite decide_True by done.
  rewrite (bind_run _ _ _ _ _ (getNode_run _ _ _ HP)).
  rewrite (bind_run _ _ _ _ _ (setChildren_run _ _ _ _ HP)).
  erewrite setParent_run; [done|]. by rewrite lookup_upd_ne.
Qed.

(** Setting the text of an element that has no children. *)
Lemma setTextContent_run w n N s :
  nodes w !! n = Some N → childNodes N = [] →
  setTextContent n s w =
  (Ok (),
   if truthy s then
     let w1 := upd n (mkNode (kind N) (parentNode N) []) w in
     upd n (mkNode (kind N) (parentNode N) [newId w1])
       (upd (newId w1) (mkNode (TextNode s) (Some n) []) w1)
   else upd n (mkNode (kind N) (parentNode N) []) w).
Proof.
  intros HN Hc. unfold setTextContent.
  rewrite (bind_run _ _ _ _ _ (getNode_run _ _ _ HN)). rewrite Hc. simpl forEach.
  rewrite (bind_run _ _ _ () w) by done.
  rewrite (bind_run _ _ _ _ _ (setChildren_run _ _ _ _ HN)).
  destruct (truthy s); [|done].
  rewrite (bind_run _ _ _ _ _ (allocNode_run _ _)).
  rewrite (setChildren_run _ _ (mkNode (kind N) (parentNode N) [])); [done|].
  rewrite lookup_upd_ne; [apply lookup_upd_eq|].
  intros E. pose proof (newId_fresh (upd n (mkNode (kind N) (parentNode N) []) w)) as Hf.
  rewrite E, lookup_upd_eq in Hf. done.
Qed.

Lemma insertBeforeIn_app x c l1 l2 :
  c ∉ l1 → insertBeforeIn x c (l1 ++ c :: l2) = l1 ++ x :: c :: l2.
Proof.
  induction l1 as [|y l1 IH]; simpl; intros Hn.
  - by rewrite decide_True.
  - rewrite decide_False by set_solver. f_equal. apply IH. set_solver.
Qed.

Lemma removeFrom_notin x l : x ∉ l → removeFrom x l = l.
Proof.
  unfold removeFrom. induction l as [|y l IH]; [done|]. intros Hn.
  rewrite filter_cons_True by set_solver. f_equal. apply IH. set_solver.
Qed.

Lemma removeFrom_app x l1 l2 :
  removeFrom x (l1 ++ l2) = removeFrom x l1 ++ removeFrom x l2.
Proof. apply filter_app. Qed.

Lemma removeFrom_cons_eq x l : removeFrom x (x :: l) = removeFrom x l.
Proof. unfold removeFrom. by rewrite filter_cons_False by naive_solver. Qed.

Lemma removeFrom_cons_ne x y l : y ≠ x → removeFrom x (y :: l) = y :: removeFrom x l.
Proof. intros. unfold removeFrom. by rewrite filter_cons_True. Qed.

End Running.

(** ** Connectedness survives the removal of a leaf *)

Section Connected.

Implicit Types (h : gmap positive Node) (doc t p n : positive).


Lemma reaches_mono f f' h doc n :
  f ≤ f' → reachesDocument f h doc n = true → reachesDocument f' h doc n = true.
Proof.
  revert f' n. induction f as [|f IH]; intros f' n Hf; simpl.
  - destruct (decide (n = doc)) as [->|]; [|done].
    intros _. destruct f'; simpl; by rewrite decide_True.
  - destruct f' as [|f']; [lia|]. simpl.
    destruct (decide (n = doc)); [done|].
    destruct (h !! n) as [node|]; [|done].
    destruct (parentNode node); [|done]. apply IH. lia.
Qed.

Lemma avoiding_mono f f' h doc t n :
  f ≤ f' → reachesAvoiding f h doc t n = true → reachesAvoiding f' h doc t n = true.
Proof.
  revert f' n. induction f as [|f IH]; intros f' n Hf; simpl.
  - destruct (decide (n = doc)) as [->|].
    + intros _. destruct f'; simpl; by rewrite decide_True.
    + by destruct (decide (n = t)).
  - destruct f' as [|f']; [lia|]. simpl.
    destruct (decide (n = doc)); [done|].
    destruct (decide (n = t)); [done|].
    destruct (h !! n) as [node|]; [|done].
    destruct (parentNode node); [|done]. apply IH. lia.
Qed.

Section Leaf.
Context (h : gmap positive Node) (doc t p : positive) (T : Node).
Hypothesis Ht : h !! t = Some T.
Hypothesis Hp : parentNode T = Some p.
Hypothesis Hdoc : t ≠ doc.

Lemma reaches_split g n :
  reachesDocument g h doc n = true →
  reachesAvoiding g h doc t n = true ∨
  ∃ g', g' < g ∧ reachesDocument g' h doc p = true.
Proof using Ht Hp Hdoc.
  revert n. induction g as [|g IH]; intros n; simpl.
  - destruct (decide (n = doc)); [by left|done].
  - destruct (decide (n = doc)); [by left|].
    destruct (decide (n = t)) as [->|Hnt].
    + rewrite Ht, Hp. intros H. right. exists g. split; [lia|done].
    + destruct (h !! n) as [node|]; [|done].
      destruct (parentNode node) as [q|]; [|done].
      intros H. destruct (IH _ H) as [Ha|(g' & Hg' & Hr)]; [by left|].
      right. exists g'. split; [lia|done].
Qed.

Lemma reaches_parent_avoiding f :
  reachesDocument f h doc p = true → reachesAvoiding f h doc t p = true.
Proof using Ht Hp Hdoc.
  induction (lt_wf f) as [f _ IH]. intros H.
  destruct (reaches_split _ _ H) as [Ha|(g' & Hg' & Hr)]; [done|].
  eapply avoiding_mono; [|apply (IH g' Hg' Hr)]. lia.
Qed.

(** A store [h'] that keeps the parent of every node of [h] but [t]. *)
Lemma avoiding_transfer h' f n :
  (∀ m M, m ≠ t → h !! m = Some M →
          ∃ M', h' !! m = Some M' ∧ parentNode M' = parentNode M) →
  reachesAvoiding f h doc t n = true → reachesDocument f h' doc n = true.
Proof using Type.
  intros Hsame. revert n. induction f as [|f IH]; intros n; simpl.
  - destruct (decide (n = doc)); [done|]. by destruct (decide (n = t)).
  - destruct (decide (n = doc)); [done|].
    destruct (decide (n = t)); [done|].
    destruct (h !! n) as [node|] eqn:Hn; [|done].
    destruct (Hsame _ _ ltac:(done) Hn) as (M' & -> & ->).
    destruct (parentNode node); [|done]. apply IH.
Qed.

Lemma connected_parent h' f :
  (∀ m M, m ≠ t → h !! m = Some M →
          ∃ M', h' !! m = Some M' ∧ parentNode M' = parentNode M) →
  reachesDocument f h doc t = true →
  reachesDocument (pred f) h' doc p = true.
Proof using Ht Hp Hdoc.
  intros Hsame H. destruct f as [|f]; simpl in H.
  - by rewrite decide_False in H.
  - rewrite decide_False, Ht, Hp in H by done. simpl.
    by apply avoiding_transfer, reaches_parent_avoiding.
Qed.
End Leaf.

Lemma reaches_child f h doc n N q :
  h !! n = Some N → parentNode N = Some q →
  reachesDocument f h doc q = true → reachesDocument (S f) h doc n = true.
Proof.
  intros Hn Hq H. simpl. destruct (decide (n = doc)); [done|]. by rewrite Hn, Hq.
Qed.

End Connected.

(** ** The rewriters, step by step *)

Section Rewriters.

Implicit Types (w : Editor) (n p t el : positive).

Ltac lk :=
  repeat first [rewrite lookup_upd_eq | rewrite lookup_upd_ne by congruence];
  try eassumption; try reflexivity.

Lemma fresh_ne w a x X : nodes w !! a = None → nodes w !! x = Some X → a ≠ x.
Proof. intros Ha Hx ->. congruence. Qed.

Lemma isConnected_upd_selection w s n :
  isConnected (set_selection s w) n = isConnected w n.
Proof. done. Qed.

Lemma setStart_run w r n N k :
  nodes w !! n = Some N → k ≤ nodeLength N →
  setStart r n k w = (Ok (mkRange n k (endContainer r) (endOffset r)), w).
Proof.
  intros Hn Hk. unfold setStart.
  rewrite (bind_run _ _ _ _ _ (getNode_run _ _ _ Hn)). by rewrite decide_True.
Qed.

Lemma set_selection_same w : set_selection (selection w) w = w.
Proof. by destruct w. Qed.

Lemma setCursorAtEnd_run w n N :
  nodes w !! n = Some N → isText (kind N) = false →
  setCursorAtEnd n w =
  (Ok (),
   set_selection
     match selection w with
     | None => None
     | Some _ =>
         let k := length (childNodes N) in
         if isConnected w n then Some (Some (mkRange n k n k)) else Some None
     end w).
Proof.
  intros Hn Hk. unfold setCursorAtEnd.
  rewrite (bind_run _ _ _ (mkRange (document w) 0 (document w) 0) w) by done.
  rewrite (bind_run _ _ _ (selection w) w) by done.
  rewrite (bind_run _ _ _ _ _ (childCount_run _ _ _ Hn)).
  erewrite (bind_run _ _ _ _ _ (setStart_run _ _ _ _ _ Hn _)).
  cbn [collapse startContainer startOffset].
  destruct (selection w) as [r|] eqn:Hs.
  - unfold removeAllRanges, modify, bind, addRange, get, ret. cbn.
    rewrite isConnected_upd_selection.
    destruct (isConnected w n); [done|].
    unfold set_selection. cbn. done.
  - rewrite <- Hs, set_selection_same. by rewrite Hs.
  Unshelve. unfold nodeLength. by destruct (kind N).
Qed.

Lemma setTimeout_run w task d :
  setTimeout task d w =
  (Ok (nextTimer w), set_timers (timers w ++ [(nextTimer w, (task, d))]) (S (nextTimer w)) w).
Proof. done. Qed.

Lemma blockTail_run w el tgt t p d tc tg pp l1 l2 otag ocs Tg after :
  nodes w !! t = Some (mkNode (TextNode d) (Some p) tc) →
  nodes w !! p = Some (mkNode (ElementNode tg) pp (l1 ++ t :: l2)) →
  t ∉ l1 → t ∉ l2 →
  nodes w !! el = Some (mkNode (ElementNode otag) None ocs) →
  nodes w !! tgt = Some Tg → isText (kind Tg) = false →
  el ≠ p → tgt ≠ p →
  ∃ w' aft,
    blockTail el tgt t after w = (Ok (), w') ∧
    nodes w' !! p = Some (mkNode (ElementNode tg) pp (l1 ++ el :: aft ++ l2)) ∧
    nodes w' !! el = Some (mkNode (ElementNode otag) (Some p) ocs) ∧
    nodes w' !! t = Some (mkNode (TextNode d) None tc) ∧
    (if truthy (trim after)
     then ∃ a, aft = [a] ∧ nodes w !! a = None ∧
               nodes w' !! a = Some (mkNode (TextNode after) (Some p) [])
     else aft = []) ∧
    (∀ n, n ≠ p → n ≠ el → n ≠ t → n ∉ aft → nodes w' !! n = nodes w !! n) ∧
    selection w' =
      match selection w with
      | None => None
      | Some _ =>
          let k := length (childNodes Tg) in
          if isConnected w' tgt then Some (Some (mkRange tgt k tgt k)) else Some None
      end ∧
    env w' = env w ∧ isProcessing w' = isProcessing w ∧
    timers w' = timers w ++ [(nextTimer w, (ClearProcessing, 10))] ∧
    nextTimer w' = S (nextTimer w).
Proof.
  intros Ht Hp Hl1 Hl2 Hel Htgt Hkind Hep Htp.
  assert (el ≠ t) as Het by (intros ->; congruence).
  assert (tgt ≠ t) as Htt by (intros ->; rewrite Ht in Htgt; by simplify_eq).
  assert (t ≠ p) as Htp' by (intros ->; congruence).
  unfold blockTail.
  rewrite (bind_run _ _ _ _ _ (getParentNode_run _ _ _ Ht)). cbn [parentNode].
  pose proof (insertBefore_run w p el t _ _ _ tg Hp Hel Ht) as Hins.
  cbn [kind parentNode childNodes] in Hins. rewrite insertBeforeIn_app in Hins by done.
  specialize (Hins eq_refl ltac:(done) eq_refl eq_refl Hep).
  set (w1 := upd el _ (upd p _ w)) in Hins.
  assert (∃ w2 aft,
    (if truthy (trim after)
     then (a <- createTextNode after; insertBefore p a t)
     else ret ()) w1 = (Ok (), w2) ∧
    nodes w2 !! p = Some (mkNode (ElementNode tg) pp (l1 ++ el :: aft ++ t :: l2)) ∧
    nodes w2 !! el = Some (mkNode (ElementNode otag) (Some p) ocs) ∧
    nodes w2 !! t = Some (mkNode (TextNode d) (Some p) tc) ∧
    (if truthy (trim after)
     then ∃ a, aft = [a] ∧ nodes w !! a = None ∧
               nodes w2 !! a = Some (mkNode (TextNode after) (Some p) [])
     else aft = []) ∧
    (∀ n, n ≠ p → n ≠ el → n ≠ t → n ∉ aft → nodes w2 !! n = nodes w !! n) ∧
    (t ∉ aft) ∧
    ((selection w2, env w2, isProcessing w2, timers w2, nextTimer w2, document w2) =
     (selection w, env w, isProcessing w, timers w, nextTimer w, document w)))
    as (w2 & aft & Hrun & Hp2 & Hel2 & Ht2 & Haft & Hframe & Htaft & Hrest).
  { destruct (truthy (trim after)).
    - rewrite (bind_run _ _ _ _ _ (createTextNode_run _ _)).
      pose proof (newId_fresh w1) as Hfresh. set (a := newId w1) in *.
      assert (a ≠ el) as Hael
        by (intros E; subst w1; rewrite E in Hfresh; revert Hfresh; by lk).
      assert (a ≠ p) as Hap
        by (intros E; subst w1; rewrite E in Hfresh; revert Hfresh; by lk).
      assert (nodes w !! a = None) as Hfa by (subst w1; revert Hfresh; by lk).
      assert (a ≠ t) as Hat by (intros E; congruence).
      eexists _, [a]. split.
      { eapply (insertBefore_run _ _ _ _ _ _ _ tg); subst w1; lk; done. }
      cbn [kind parentNode childNodes].
      replace (l1 ++ el :: t :: l2) with ((l1 ++ [el]) ++ t :: l2)
        by by rewrite <- app_assoc.
      rewrite insertBeforeIn_app by set_solver. rewrite <- app_assoc.
      subst w1. repeat split; lk.
      + eexists. repeat split; lk.
      + intros n ? ? ? Hn. assert (n ≠ a) by set_solver. by lk.
      + set_solver.
    - exists w1, []. subst w1. repeat split; lk.
      + intros n ? ? ? Hn. by lk.
      + set_solver. }
  pose proof (removeChild_run w2 p t _ _ Hp2 Ht2 eq_refl Htp') as Hrem.
  cbn [kind parentNode childNodes] in Hrem.
  replace (removeFrom t (l1 ++ el :: aft ++ t :: l2)) with (l1 ++ el :: aft ++ l2) in Hrem.
  2:{ rewrite removeFrom_app, removeFrom_cons_ne, removeFrom_app, removeFrom_cons_eq by done.
      by rewrite !removeFrom_notin. }
  set (w3 := upd t _ (upd p _ w2)) in Hrem.
  assert (¬ tgt ∈ aft) as Htaft'.
  { intros Hin. destruct (truthy (trim after)); [|set_solver].
    destruct Haft as (a & -> & Hfa & _). apply list_elem_of_singleton in Hin. congruence. }
  assert (nodes w3 !! tgt =
          Some (mkNode (kind Tg) (if decide (tgt = el) then Some p else parentNode Tg)
                       (childNodes Tg))) as Htgt3.
  { subst w3. destruct (decide (tgt = el)) as [->|Hne].
    - lk. rewrite Hel2. rewrite Hel in Htgt. by simplify_eq.
    - lk. rewrite Hframe by done. rewrite Htgt. by destruct Tg. }
  pose proof (setCursorAtEnd_run w3 tgt _ Htgt3 Hkind) as Hcur.
  cbn [kind parentNode childNodes] in Hcur.
  eexists _, aft. split.
  { rewrite bind_bind, (bind_run _ _ _ _ _ Hins).
    rewrite bind_bind, (bind_run _ _ _ _ _ Hrun).
    rewrite bind_bind, (bind_run _ _ _ _ _ Hrem), (bind_run _ _ _ _ _ Hcur).
    by rewrite (bind_run _ _ _ _ _ (setTimeout_run _ _ _)). }
  assert (selection w3 = selection w) as Hsel by (subst w3; cbn; congruence).
  rewrite Hsel. simplify_eq.
  cbn [nodes set_timers set_selection selection env document editor classEmpty
       debounceTimer isProcessing timers nextTimer].
  assert (∀ x, isConnected (set_timers x (S (nextTimer w3))
     (set_selection match selection w with
       | Some _ => if isConnected w3 tgt then Some (Some (mkRange tgt (length (childNodes Tg)) tgt (length (childNodes Tg)))) else Some None
       | None => None end w3)) tgt = isConnected w3 tgt) as Hconn by done.
  rewrite Hconn.
  subst w3. repeat split; lk.
  - destruct (truthy (trim after)); [|done].
    destruct Haft as (a & -> & Hfa & Ha2). exists a. repeat split; [done|].
    assert (a ≠ t) by (intros ->; congruence).
    assert (a ≠ p) by (intros ->; congruence). by lk.
  - intros n ? ? ? ?. lk. by apply Hframe.
  - unfold env. cbn. congruence.
  - cbn. congruence.
  - cbn. congruence.
Qed.

Lemma size_ge_new (h h' : gmap positive Node) (new : list positive) :
  NoDup new → (∀ n, n ∈ new → h !! n = None ∧ is_Some (h' !! n)) →
  (∀ n, is_Some (h !! n) → is_Some (h' !! n)) →
  size h + length new ≤ size h'.
Proof.
  intros Hnd Hnew Hold.
  rewrite <- !size_dom, <- (size_list_to_set (C := gset positive) new) by done.
  rewrite <- size_union.
  - apply subseteq_size. intros n. rewrite elem_of_union, elem_of_list_to_set, !elem_of_dom.
    intros [?|?]; [by apply Hold|by apply Hnew].
  - intros n. rewrite elem_of_list_to_set, elem_of_dom. intros [N HN] Hin.
    destruct (Hnew _ Hin) as [E _]. congruence.
Qed.

Lemma map_size_pos (h : gmap positive Node) n N : h !! n = Some N → 0 < size h.
Proof.
  intros Hn. destruct (decide (size h = 0)) as [E|]; [|lia].
  apply map_size_empty_inv in E. subst h. by rewrite lookup_empty in Hn.
Qed.

Lemma block_finish w w1 el tgt t p d tg pp l1 l2 otag ocs Tg after :
  Attached w t p d tg pp l1 l2 →
  extends w w1 → isProcessing w1 = true →
  nodes w !! el = None → nodes w !! tgt = None →
  nodes w1 !! el = Some (mkNode (ElementNode otag) None ocs) →
  nodes w1 !! tgt = Some Tg → isText (kind Tg) = false →
  (tgt = el ∨ parentNode Tg = Some el) →
  ∃ w' aft,
    blockTail el tgt t after w1 = (Ok (), w') ∧
    Replaced w w' t p d tg pp l1 (el :: aft) l2 ∧
    nodes w' !! el = Some (mkNode (ElementNode otag) (Some p) ocs) ∧
    (tgt ≠ el → nodes w' !! tgt = Some Tg) ∧
    (if truthy (trim after) then ∃ a, aft = [a] ∧ plainText w' a p after
     else aft = []) ∧
    (∀ n, is_Some (nodes w1 !! n) → n ≠ p → n ≠ el → n ≠ t →
          nodes w' !! n = nodes w1 !! n) ∧
    selection w' =
      match selection w with
      | None => None
      | Some _ =>
          let k := length (childNodes Tg) in
          if isConnected w' tgt then Some (Some (mkRange tgt k tgt k)) else Some None
      end ∧
    (InDocument w t → isConnected w' tgt = true).
Proof.
  intros [Ht Hp Hl1 Hl2] (Hext & Hsel & Henv & Htim & Hnt) Hflag Hfel Hftgt Hel1 Htgt1
    Hkind Hrel.
  pose proof (Hext _ _ Ht) as Ht1. pose proof (Hext _ _ Hp) as Hp1.
  assert (el ≠ p) as Hep by (intros ->; congruence).
  assert (tgt ≠ p) as Htp by (intros ->; congruence).
  assert (el ≠ t) as Het by (intros ->; congruence).
  assert (tgt ≠ t) as Htt by (intros ->; congruence).
  destruct (blockTail_run w1 el tgt t p d [] tg pp l1 l2 otag ocs Tg after
              Ht1 Hp1 Hl1 Hl2 Hel1 Htgt1 Hkind Hep Htp)
    as (w' & aft & Hrun & Hp' & Hel' & Ht' & Haft & Hframe & Hsel' & Henv' & Hflag'
        & Htim' & Hnt').
  assert (∀ n, n ∈ aft → nodes w1 !! n = None ∧ nodes w !! n = None ∧
                           is_Some (nodes w' !! n) ∧ n ≠ el ∧ n ≠ tgt) as Hfaft.
  { intros n Hn. destruct (truthy (trim after)); [|set_solver].
    destruct Haft as (a & -> & Hfa & Ha'). apply list_elem_of_singleton in Hn as ->.
    repeat split; [done| |by eexists|by intros ->; congruence|by intros ->; congruence].
    destruct (nodes w !! a) as [A|] eqn:E; [|done]. apply Hext in E. congruence. }
  assert (∀ n, is_Some (nodes w !! n) → n ≠ p → n ≠ t → nodes w' !! n = nodes w !! n)
    as Hold.
  { intros n [N HN] ? ?. rewrite Hframe; [by rewrite (Hext _ _ HN)|done| |done|].
    - intros ->. congruence.
    - intros Hin. apply Hfaft in Hin as (? & ? & _). congruence. }
  assert (tgt ≠ el → nodes w' !! tgt = Some Tg) as Htgt'.
  { intros Hne. rewrite Hframe; try done. intros Hin. by apply Hfaft in Hin as (_&_&_&_&?). }
  exists w', aft. split; [done|]. split; [|split; [done|split; [done|split; [|split; [|split]]]]].
  - split; try done.
    + intros n Hn. apply elem_of_cons in Hn as [->|Hn]; [done|]. by apply Hfaft.
    + congruence.
    + congruence.
    + congruence.
  - destruct (truthy (trim after)); [|done].
    destruct Haft as (a & -> & _ & ?). by exists a.
  - intros n [N HN] ? ? ?. apply Hframe; try done.
    intros Hin. apply Hfaft in Hin as (? & _). congruence.
  - by rewrite Hsel', Hsel.
  - intros [(D & HD & HkD) Hconn]. unfold isConnected in *.
    assert (document w' = document w) as -> by (unfold env in *; congruence).
    assert (t ≠ document w) as Htd by (intros E; rewrite E in Ht; rewrite HD in Ht; by simplify_eq).
    assert (reachesDocument (pred (size (nodes w))) (nodes w') (document w) p = true) as Hpar.
    { eapply (connected_parent _ _ t p _ Ht eq_refl Htd); [|done].
      intros m M Hm HM. destruct (decide (m = p)) as [->|Hmp].
      - rewrite Hp in HM. simplify_eq. by eexists.
      - exists M. split; [|done]. rewrite Hold; by eauto. }
    pose proof (map_size_pos _ _ _ Ht) as Hpos.
    pose proof (reaches_child _ _ _ _ _ _ Hel' eq_refl Hpar) as Hrel'.
    replace (S (pred (size (nodes w)))) with (size (nodes w)) in Hrel' by lia.
    assert (∀ n, is_Some (nodes w !! n) → is_Some (nodes w' !! n)) as Hdom.
    { intros n [N HN]. destruct (decide (n = p)) as [->|]; [by eexists|].
      destruct (decide (n = t)) as [->|]; [by eexists|].
      rewrite Hold; by eauto. }
    destruct (decide (tgt = el)) as [->|Hne].
    + eapply reaches_mono; [|done].
      pose proof (size_ge_new (nodes w) (nodes w') [el]) as Hsz. simpl in Hsz.
      etrans; [|apply Hsz]; [lia|apply NoDup_singleton| |done].
      intros n ->%list_elem_of_singleton. split; [done|by eexists].
    + destruct Hrel as [?|HpT]; [done|].
      pose proof (reaches_child _ _ _ _ _ _ (Htgt' Hne) HpT Hrel') as Hrel''.
      eapply reaches_mono; [|done].
      pose proof (size_ge_new (nodes w) (nodes w') [el; tgt]) as Hsz. simpl in Hsz.
      etrans; [|apply Hsz]; [lia| | |done].
      * apply NoDup_cons. split; [set_solver|apply NoDup_singleton].
      * intros n Hn. apply elem_of_cons in Hn as [->|Hn]; [split; [done|by eexists]|].
        apply list_elem_of_singleton in Hn as ->. split; [done|]. rewrite Htgt'; by eauto.
Qed.

Lemma setTextContent_new w tag text :
  ∃ w1 cs,
    setTextContent (newId w) text (upd (newId w) (mkNode (ElementNode tag) None []) w)
      = (Ok (), w1) ∧
    extends w w1 ∧ isProcessing w1 = isProcessing w ∧
    nodes w1 !! newId w = Some (mkNode (ElementNode tag) None cs) ∧
    (if truthy text
     then ∃ c, cs = [c] ∧ c ≠ newId w ∧ nodes w !! c = None ∧
               nodes w1 !! c = Some (mkNode (TextNode text) (Some (newId w)) [])
     else cs = []) ∧
    (∀ n, nodes w !! n = None → n ≠ newId w → n ∉ cs → nodes w1 !! n = None).
Proof.
  pose proof (newId_fresh w) as Hel. set (el := newId w) in *.
  set (w0 := upd el _ w).
  rewrite (setTextContent_run w0 el
             (mkNode (ElementNode tag) None []) text (lookup_upd_eq _ _ _) eq_refl).
  cbn [kind parentNode childNodes].
  destruct (truthy text).
  - pose proof (newId_fresh (upd el (mkNode (ElementNode tag) None []) w0)) as Hc.
    set (c := newId (upd el (mkNode (ElementNode tag) None []) w0)) in *.
    assert (c ≠ el) as Hce by (intros E; rewrite E in Hc; revert Hc; by lk).
    assert (nodes w !! c = None) as Hc' by (subst w0; revert Hc; by lk).
    eexists _, [c]. split; [done|]. subst w0. repeat split; lk.
    + intros n N HN. assert (el ≠ n) by (intros ->; congruence).
      assert (c ≠ n) by (intros ->; congruence). by lk.
    + exists c. repeat split; lk.
    + intros n Hn Hne Hnc. assert (c ≠ n) by set_solver. by lk.
  - eexists _, []. split; [done|]. subst w0. repeat split; lk.
    + intros n N HN. assert (el ≠ n) by (intros ->; congruence). by lk.
    + intros n Hn Hne Hnc. by lk.
Qed.

Lemma createWithText_run w tag text :
  ∃ w1 el cs,
    (el <- createElement tag; setTextContent el text;; ret el) w = (Ok el, w1) ∧
    extends w w1 ∧ isProcessing w1 = isProcessing w ∧ nodes w !! el = None ∧
    nodes w1 !! el = Some (mkNode (ElementNode tag) None cs) ∧
    (if truthy text
     then ∃ c, cs = [c] ∧ c ≠ el ∧ nodes w !! c = None ∧
               nodes w1 !! c = Some (mkNode (TextNode text) (Some el) [])
     else cs = []) ∧
    (∀ n, nodes w !! n = None → n ≠ el → n ∉ cs → nodes w1 !! n = None).
Proof.
  destruct (setTextContent_new w tag text) as (w1 & cs & Hrun & H).
  exists w1, (newId w), cs. split.
  - rewrite (bind_run _ _ _ _ _ (createElement_run _ _)).
    by rewrite (bind_run _ _ _ _ _ Hrun).
  - destruct H as (? & ? & ? & ? & ?). split; [done|]. split; [done|].
    split; [apply newId_fresh|done].
Qed.

Lemma createWithText_bind {B} tag text (k : positive → M B) w :
  (el <- createElement tag; setTextContent el text;; k el) w =
  (el <- (el <- createElement tag; setTextContent el text;; ret el); k el) w.
Proof.
  rewrite bind_bind. rewrite !(bind_run _ _ _ _ _ (createElement_run _ _)).
  rewrite bind_bind. unfold bind, ret.
  by destruct (setTextContent _ _ _) as [[[]|?] ?].
Qed.

Lemma appendChild_run w p n P N tg :
  nodes w !! p = Some P → nodes w !! n = Some N →
  kind P = ElementNode tg → kind N ≠ DocumentNode → parentNode N = None → n ≠ p →
  appendChild p n w =
  (Ok (), upd n (mkNode (kind N) (Some p) (childNodes N))
            (upd p (mkNode (kind P) (parentNode P) (childNodes P ++ [n])) w)).
Proof.
  intros HP HN Hk HkN HpN Hne. unfold appendChild.
  rewrite (bind_run _ _ _ _ _ (getNode_run _ _ _ HP)).
  rewrite (bind_run _ _ _ _ _ (getNode_run _ _ _ HN)).
  rewrite Hk. destruct (kind N) eqn:HkN'; [done|..];
    rewrite (bind_run _ _ _ _ _ (detach_run _ _ _ HN HpN));
    rewrite (bind_run _ _ _ _ _ (getNode_run _ _ _ HP));
    rewrite (bind_run _ _ _ _ _ (setChildren_run _ _ _ _ HP));
    (erewrite setParent_run; [|by rewrite lookup_upd_ne]); by rewrite Hk, HkN'.
Qed.

Lemma attached_flag w b t p d tg pp l1 l2 :
  Attached w t p d tg pp l1 l2 → Attached (set_isProcessing b w) t p d tg pp l1 l2.
Proof. intros [? ? ? ?]. by split. Qed.

(** The heading and the blockquote rewriters, for any tag. *)
Lemma simpleBlock_done tag w t p d tg pp l1 l2 text after :
  Attached w t p d tg pp l1 l2 →
  ∃ w' el,
    (setIsProcessing true;;
     el <- createElement tag;
     setTextContent el text;;
     blockTail el el t after) w = (Ok (), w') ∧
    BlockDone w w' t p d tg pp l1 l2 el el tag text after.
Proof.
  intros Hatt.
  rewrite (bind_run _ _ _ () (set_isProcessing true w)) by done.
  rewrite createWithText_bind.
  destruct (createWithText_run (set_isProcessing true w) tag text)
    as (w1 & el & cs & Hrun & Hext & Hflag & Hfel & Hel1 & Hcs & _).
  change (nodes (set_isProcessing true w)) with (nodes w) in *.
  rewrite (bind_run _ _ _ _ _ Hrun).
  destruct (block_finish w w1 el el t p d tg pp l1 l2 tag cs _ after Hatt Hext Hflag
              Hfel Hfel Hel1 Hel1 eq_refl (or_introl eq_refl))
    as (w' & aft & Hrun' & Hrep & Hel' & _ & Haft & Hnew & Hsel & Hconn).
  exists w', el. split; [done|]. destruct Hatt as [Ht Hp _ _]. split.
  - by exists aft.
  - rewrite decide_True by done. unfold elementWithText.
    destruct (truthy text); [|by subst cs].
    destruct Hcs as (c & -> & Hce & Hfc & Hc1). exists c. split; [done|].
    rewrite Hnew; [done|by eexists|intros ->..]; congruence.
  - done.
  - rewrite Hsel. cbn [childNodes].
    destruct (truthy text); [by destruct Hcs as (c & -> & _)|by subst cs].
  - done.
Qed.

Lemma replaceWithHeading_done w t p d tg pp l1 l2 level text after :
  Attached w t p d tg pp l1 l2 →
  ∃ w' el,
    replaceWithHeading t level text after w = (Ok (), w') ∧
    BlockDone w w' t p d tg pp l1 l2 el el ("h" +:+ decimal level) text after.
Proof. apply simpleBlock_done. Qed.

Lemma replaceWithBlockquote_done w t p d tg pp l1 l2 text after :
  Attached w t p d tg pp l1 l2 →
  ∃ w' el,
    replaceWithBlockquote t text after w = (Ok (), w') ∧
    BlockDone w w' t p d tg pp l1 l2 el el "blockquote" text after.
Proof. apply simpleBlock_done. Qed.

Lemma replaceWithList_done w t p d tg pp l1 l2 text after :
  Attached w t p d tg pp l1 l2 →
  ∃ w' ul li,
    replaceWithList t text after w = (Ok (), w') ∧
    BlockDone w w' t p d tg pp l1 l2 ul li "li" text after ∧
    ul ≠ li ∧ nodes w !! ul = None ∧
    nodes w' !! ul = Some (mkNode (ElementNode "ul") (Some p) [li]).
Proof.
  intros Hatt. unfold replaceWithList.
  rewrite (bind_run _ _ _ () (set_isProcessing true w)) by done.
  rewrite createWithText_bind.
  destruct (createWithText_run (set_isProcessing true w) "li" text)
    as (w1 & li & cs & Hrun & Hext & Hflag & Hfli & Hli1 & Hcs & Hfresh1).
  change (nodes (set_isProcessing true w)) with (nodes w) in *.
  rewrite (bind_run _ _ _ _ _ Hrun).
  rewrite (bind_run _ _ _ _ _ (createElement_run _ _)).
  pose proof (newId_fresh w1) as Hul. set (ul := newId w1) in *.
  assert (ul ≠ li) as Hne by (intros E; congruence).
  assert (nodes w !! ul = None) as Hful.
  { destruct (nodes w !! ul) eqn:E; [|done]. apply Hext in E. congruence. }
  set (w2 := upd ul _ w1).
  rewrite (bind_run _ _ _ _ _ (appendChild_run w2 ul li
             (mkNode (ElementNode "ul") None []) _ "ul"
             (lookup_upd_eq _ _ _) (eq_trans (lookup_upd_ne _ _ _ _ Hne) Hli1)
             eq_refl ltac:(done) eq_refl ltac:(congruence))).
  cbn [kind parentNode childNodes app].
  set (w3 := upd li _ (upd ul _ w2)).
  assert (extends w w3) as Hext3.
  { destruct Hext as (Hn & ? & ? & ? & ?). split; [|done].
    intros n N HN. assert (li ≠ n) by (intros ->; congruence).
    assert (ul ≠ n) by (intros ->; congruence). subst w3 w2. lk. by apply Hn. }
  destruct (block_finish w w3 ul li t p d tg pp l1 l2 "ul" [li]
              (mkNode (ElementNode "li") (Some ul) cs) after Hatt Hext3 Hflag
              Hful Hfli) as (w' & aft & Hrun' & Hrep & Hul' & Hli' & Haft & Hnew & Hsel & Hconn).
  { subst w3. by lk. }
  { subst w3. by lk. }
  { done. }
  { by right. }
  exists w', ul, li. split; [done|]. destruct Hatt as [Ht Hp _ _].
  split; [|done]. split.
  - by exists aft.
  - rewrite decide_False by done. unfold elementWithText.
    rewrite (Hli' ltac:(done)).
    destruct (truthy text); [|by subst cs].
    destruct Hcs as (c & -> & Hce & Hfc & Hc1). exists c. split; [done|].
    assert (c ≠ ul) by (intros ->; congruence).
    rewrite Hnew; [subst w3 w2; by lk|subst w3 w2; lk; by eexists|intros ->..]; congruence.
  - done.
  - rewrite Hsel. cbn [childNodes].
    destruct (truthy text); [by destruct Hcs as (c & -> & _)|by subst cs].
  - done.
Qed.

Lemma optionalText_run w t p d tg pp l1 l2 s (keep : bool) :
  nodes w !! t = Some (mkNode (TextNode d) (Some p) []) →
  nodes w !! p = Some (mkNode (ElementNode tg) pp (l1 ++ t :: l2)) → t ∉ l1 →
  ∃ w' new,
    (if keep then (a <- createTextNode s; insertBefore p a t) else ret ()) w
      = (Ok (), w') ∧
    nodes w' !! p = Some (mkNode (ElementNode tg) pp (l1 ++ new ++ t :: l2)) ∧
    keptText w' p s keep new ∧
    (∀ n, n ∈ new → nodes w !! n = None) ∧
    (∀ n, n ≠ p → n ∉ new → nodes w' !! n = nodes w !! n) ∧
    (selection w', env w', isProcessing w', timers w', nextTimer w') =
    (selection w, env w, isProcessing w, timers w, nextTimer w).
Proof.
  intros Ht Hp Hl1. assert (t ≠ p) as Htp by (intros ->; congruence).
  destruct keep.
  - rewrite (bind_run _ _ _ _ _ (createTextNode_run _ _)).
    pose proof (newId_fresh w) as Hfa. set (a := newId w) in *.
    assert (a ≠ p) as Hap by (intros E; congruence).
    assert (a ≠ t) as Hat by (intros E; congruence).
    eexists _, [a]. split.
    { eapply (insertBefore_run _ _ _ _ _ _ _ tg); lk; done. }
    cbn [kind parentNode childNodes]. rewrite insertBeforeIn_app by done.
    repeat split; lk.
    + exists a. split; [done|]. unfold plainText. by lk.
    + by intros n ->%list_elem_of_singleton.
    + intros n ? Hn. assert (a ≠ n) by set_solver. by lk.
  - exists w, []. repeat split; try done. set_solver.
Qed.

Lemma indexOf_app x l1 l2 : x ∉ l1 → indexOf x (l1 ++ x :: l2) = length l1.
Proof.
  induction l1 as [|y l1 IH]; simpl; intros Hn.
  - by rewrite decide_True.
  - rewrite decide_False by set_solver. f_equal. apply IH. set_solver.
Qed.

Lemma indexOf_lt x l : x ∈ l → indexOf x l < length l.
Proof.
  induction l as [|y l IH]; simpl; [by intros ?%elem_of_nil|].
  intros Hin. destruct (decide (y = x)); [lia|].
  apply elem_of_cons in Hin as [->|Hin]; [done|]. specialize (IH Hin). lia.
Qed.

Lemma setCursorAfter_run w el p E P :
  nodes w !! el = Some E → parentNode E = Some p →
  nodes w !! p = Some P → isText (kind P) = false → el ∈ childNodes P →
  setCursorAfter el w =
  (Ok (),
   set_selection
     match selection w with
     | None => None
     | Some _ =>
         let k := S (indexOf el (childNodes P)) in
         if isConnected w p then Some (Some (mkRange p k p k)) else Some None
     end w).
Proof.
  intros Hel HpE Hp Hk Hin. unfold setCursorAfter.
  rewrite (bind_run _ _ _ (mkRange (document w) 0 (document w) 0) w) by done.
  rewrite (bind_run _ _ _ (selection w) w) by done.
  unfold setStartAfter. rewrite bind_bind.
  rewrite (bind_run _ _ _ _ _ (getNode_run _ _ _ Hel)). rewrite HpE.
  rewrite bind_bind. rewrite (bind_run _ _ _ _ _ (getNode_run _ _ _ Hp)).
  erewrite (bind_run _ _ _ _ _ (setStart_run _ _ _ _ _ Hp _)).
  cbn [collapse startContainer startOffset].
  destruct (selection w) as [r|] eqn:Hs.
  - unfold removeAllRanges, modify, bind, addRange, get, ret. cbn.
    rewrite isConnected_upd_selection.
    destruct (isConnected w p); [done|].
    unfold set_selection. cbn. done.
  - rewrite <- Hs, set_selection_same. by rewrite Hs.
  Unshelve. unfold nodeLength. apply indexOf_lt in Hin. destruct (kind P); [lia|lia|done].
Qed.

Lemma textContent_text w t d q cs :
  nodes w !! t = Some (mkNode (TextNode d) q cs) → textContent w t = d.
Proof. intros Ht. unfold textContent. simpl. by rewrite Ht. Qed.

(** The three inline rewriters, for any tag. *)
Lemma replaceWithInline_done tag w t p d tg pp l1 l2 (m : RegExpMatchArray) :
  Attached w t p d tg pp l1 l2 →
  ∃ w' el bef aft,
    replaceWithInline tag t m w = (Ok (), w') ∧
    InlineDone w w' t p d tg pp l1 l2 el bef aft tag
      (take (m_index m) d) (group 1 m) (drop (m_index m + length (m_full m)) d).
Proof.
  intros Hatt. destruct Hatt as [Ht Hp Hl1 Hl2].
  assert (t ≠ p) as Htp by (intros ->; congruence).
  unfold replaceWithInline.
  rewrite (bind_run _ _ _ () (set_isProcessing true w)) by done.
  set (w0 := set_isProcessing true w).
  rewrite (bind_run _ _ _ w0 w0) by done.
  rewrite (textContent_text w0 t d _ _ Ht). unfold substringTo, substringFrom.
  set (before := take (m_index m) d).
  set (after := drop (m_index m + length (m_full m)) d).
  rewrite (bind_run _ _ _ _ _ (getParentNode_run w0 t _ Ht)). cbn [parentNode].
  (* the text before the match *)
  destruct (optionalText_run w0 t p d tg pp l1 l2 before (truthy before) Ht Hp Hl1)
    as (wA & bef & HrunA & HpA & HbefK & HbefF & HframeA & HrestA).
  change (nodes w0) with (nodes w) in *.
  assert (nodes wA !! t = Some (mkNode (TextNode d) (Some p) [])) as HtA.
  { rewrite HframeA; [done..|]. intros Hin. apply HbefF in Hin. congruence. }
  assert (∀ n N, nodes w !! n = Some N → n ≠ p → nodes wA !! n = Some N) as HoldA.
  { intros n N HN ?. rewrite HframeA; [done..|]. intros Hin. apply HbefF in Hin. congruence. }
  (* the element *)
  destruct (setTextContent_new wA tag (group 1 m))
    as (wB & cs & HrunB & (HextB & HrestB) & HflagB & HelB & Hcs & _).
  pose proof (newId_fresh wA) as HfelA. set (el := newId wA) in *.
  assert (el ≠ p) as Hep by (intros E; congruence).
  assert (el ≠ t) as Het by (intros E; congruence).
  assert (el ∉ bef) as Helbef.
  { intros Hin. unfold keptText in HbefK. destruct (truthy before); [|set_solver].
    destruct HbefK as (b & -> & Hb). apply list_elem_of_singleton in Hin as ->.
    unfold plainText in Hb. congruence. }
  assert (nodes w !! el = None) as Hfel.
  { rewrite <- HframeA; done. }
  pose proof (insertBefore_run wB p el t _ _ _ tg (HextB _ _ HpA) HelB (HextB _ _ HtA)
                eq_refl ltac:(done) eq_refl eq_refl Hep) as HrunC.
  cbn [kind parentNode childNodes] in HrunC.
  assert (t ∉ l1 ++ bef) as Hl1bef.
  { intros [?|Hin]%elem_of_app; [done|]. apply HbefF in Hin. congruence. }
  rewrite (app_assoc l1 bef), insertBeforeIn_app in HrunC by done.
  set (wC := upd el _ (upd p _ wB)) in HrunC.
  (* the text after the match *)
  destruct (optionalText_run wC t p d tg pp (l1 ++ bef ++ [el]) l2 after (truthy after))
    as (wD & aft & HrunD & HpD & HaftK & HaftF & HframeD & HrestD).
  { subst wC. lk. by apply HextB. }
  { subst wC. lk. by rewrite <- !app_assoc. }
  { rewrite app_assoc. intros [?|?%list_elem_of_singleton]%elem_of_app; done. }
  assert (nodes wD !! t = Some (mkNode (TextNode d) (Some p) [])) as HtD.
  { rewrite HframeD; [subst wC; lk; by apply HextB|done|].
    intros Hin. apply HaftF in Hin. revert Hin. subst wC. lk. by rewrite (HextB _ _ HtA). }
  pose proof (removeChild_run wD p t _ _ HpD HtD eq_refl Htp) as HrunE.
  cbn [kind parentNode childNodes] in HrunE.
  assert (t ∉ aft) as Htaft.
  { intros Hin. apply HaftF in Hin. revert Hin. subst wC. lk. by rewrite (HextB _ _ HtA). }
  replace (removeFrom t ((l1 ++ bef ++ [el]) ++ aft ++ t :: l2))
    with (l1 ++ (bef ++ el :: aft) ++ l2) in HrunE.
  2:{ rewrite !removeFrom_app, removeFrom_cons_eq.
      rewrite !removeFrom_notin; try done.
      - by rewrite <- !app_assoc.
      - by intros ?%list_elem_of_singleton.
      - intros Hin. apply Hl1bef. set_solver. }
  set (wE := upd t _ (upd p _ wD)) in HrunE.
  assert (el ∉ aft) as Helaft.
  { intros Hin. apply HaftF in Hin. revert Hin. subst wC. by lk. }
  assert (nodes wE !! el = Some (mkNode (ElementNode tag) (Some p) cs)) as HelE.
  { subst wE. lk. rewrite HframeD by done. subst wC. by lk. }
  assert (nodes wE !! p =
          Some (mkNode (ElementNode tg) pp (l1 ++ (bef ++ el :: aft) ++ l2))) as HpE
    by (subst wE; by lk).
  pose proof (setCursorAfter_run wE el p _ _ HelE eq_refl HpE eq_refl) as HrunF.
  cbn [kind parentNode childNodes] in HrunF.
  specialize (HrunF ltac:(set_solver)).
  eexists _, el, bef, aft. split.
  { rewrite bind_bind, (bind_run _ _ _ _ _ HrunA).
    rewrite bind_bind, (bind_run _ _ _ _ _ (createElement_run _ _)).
    rewrite bind_bind, (bind_run _ _ _ _ _ HrunB).
    rewrite bind_bind, (bind_run _ _ _ _ _ HrunC).
    rewrite bind_bind, (bind_run _ _ _ _ _ HrunD).
    rewrite bind_bind, (bind_run _ _ _ _ _ HrunE), (bind_run _ _ _ _ _ HrunF).
    by rewrite (bind_run _ _ _ _ _ (setTimeout_run _ _ _)). }
  assert (∀ n N, nodes w !! n = Some N → n ≠ p → nodes wC !! n = Some N) as HoldC.
  { intros n N HN ?. assert (el ≠ n) by (intros ->; congruence).
    subst wC. lk. by apply HextB, HoldA. }
  assert (∀ n, n ∈ aft → nodes w !! n = None ∧ n ≠ p ∧ n ≠ el ∧ n ≠ t) as Hfaft.
  { intros n Hin. pose proof (HaftF _ Hin) as Hn.
    assert (n ≠ p) by (intros ->; revert Hn; subst wC; by lk).
    repeat split; [|done|by intros ->|by intros ->].
    destruct (nodes w !! n) as [N|] eqn:E; [|done]. rewrite (HoldC _ _ E) in Hn; done. }
  assert (∀ n, n ≠ p → n ≠ t → n ≠ el → n ∉ aft → nodes wE !! n = nodes wB !! n) as Hlate.
  { intros n ? ? ? ?. subst wE. lk. rewrite HframeD by done. subst wC. by lk. }
  destruct HrestB as (HselB & HenvB & HtimB & HntB).
  assert (selection wE = selection w ∧ env wE = env w ∧ timers wE = timers w ∧
          nextTimer wE = nextTimer w ∧ isProcessing wE = true)
    as (HFsel & HFenv & HFtim & HFnt & HFflag).
  { change (selection wE) with (selection wD). change (env wE) with (env wD).
    change (timers wE) with (timers wD). change (nextTimer wE) with (nextTimer wD).
    change (isProcessing wE) with (isProcessing wD).
    change (selection wC) with (selection wB) in HrestD.
    change (env wC) with (env wB) in HrestD.
    change (timers wC) with (timers wB) in HrestD.
    change (nextTimer wC) with (nextTimer wB) in HrestD.
    change (isProcessing wC) with (isProcessing wB) in HrestD.
    change (selection w0) with (selection w) in HrestA.
    change (env w0) with (env w) in HrestA.
    change (timers w0) with (timers w) in HrestA.
    change (nextTimer w0) with (nextTimer w) in HrestA.
    change (isProcessing w0) with true in HrestA.
    unfold env in *. simplify_eq. repeat split; congruence. }
  split.
  - split.
    + exact HpE.
    + subst wE. cbn [nodes set_timers set_selection]. by lk.
    + intros n [N HN] ? ?. cbn [nodes set_timers set_selection].
      assert (el ≠ n) by (intros ->; congruence).
      rewrite Hlate; [|done..|intros Hin; apply Hfaft in Hin as [? _]; congruence].
      rewrite HN. by apply HextB, HoldA.
    + intros n [Hin|[->|Hin]%elem_of_cons]%elem_of_app;
        [by apply HbefF|done|by apply Hfaft].
    + exact HFenv.
    + exact HFflag.
    + cbn [timers set_timers set_selection nextTimer]. by rewrite HFtim, HFnt.
  - unfold keptText in *. destruct (truthy before); [|done].
    destruct HbefK as (b & -> & Hb). exists b. split; [done|]. unfold plainText in *.
    pose proof (HbefF b ltac:(set_solver)) as Hfb.
    cbn [nodes set_timers set_selection].
    rewrite Hlate; [by apply HextB|intros ->; congruence..|].
    intros Hin. apply HaftF in Hin. revert Hin. subst wC.
    assert (el ≠ b) by set_solver. assert (p ≠ b) by (intros ->; congruence).
    lk. by rewrite (HextB _ _ Hb).
  - unfold keptText in *. destruct (truthy after); [|done].
    destruct HaftK as (a & -> & Ha). exists a. split; [done|]. unfold plainText in *.
    destruct (Hfaft a ltac:(set_solver)) as (? & ? & ? & ?).
    cbn [nodes set_timers set_selection]. subst wE. by lk.
  - unfold elementWithText. cbn [nodes set_timers set_selection]. rewrite HelE.
    destruct (truthy (group 1 m)); [|by subst cs].
    destruct Hcs as (c & -> & Hce & Hfc & Hc). exists c. split; [done|].
    rewrite Hlate; [done|intros ->; congruence..|].
    intros Hin. apply HaftF in Hin. revert Hin. subst wC.
    assert (p ≠ c) by (intros ->; congruence). lk. by rewrite Hc.
  - cbn [selection set_timers set_selection]. rewrite HFsel.
    destruct (selection w); [|done]. cbn zeta. by rewrite <- (app_assoc bef).
  - intros [(D & HD & HkD) Hconn]. unfold isConnected in *.
    cbn [nodes document set_timers set_selection].
    assert (document wE = document w) as -> by (unfold env in HFenv; congruence).
    assert (t ≠ document w) as Htd
      by (intros E; rewrite E in Ht; rewrite HD in Ht; by simplify_eq).
    assert (∀ n N, n ≠ t → nodes w !! n = Some N →
                   ∃ N', nodes wE !! n = Some N' ∧ parentNode N' = parentNode N) as Hsame.
    { intros n N Hnt HN. destruct (decide (n = p)) as [->|Hnp].
      - rewrite Hp in HN. simplify_eq. by eexists.
      - exists N. split; [|done]. assert (el ≠ n) by (intros ->; congruence).
        rewrite Hlate; [by apply HextB, HoldA|done..|].
        intros Hin. apply Hfaft in Hin as [? _]. congruence. }
    eapply reaches_mono;
      [|apply (connected_parent _ _ t p _ Ht eq_refl Htd _ _ Hsame Hconn)].
    pose proof (size_ge_new (nodes w) (nodes wE) [] (NoDup_nil_2)) as Hsz.
    cbn [length] in Hsz. etrans; [|apply Hsz]; [lia|by intros ? ?%elem_of_nil|].
    intros n [N HN]. destruct (decide (n = t)) as [->|].
    { subst wE. rewrite lookup_upd_eq. by eexists. }
    destruct (Hsame _ _ ltac:(done) HN) as (N' & -> & _). by eexists.
Qed.

End Rewriters.

(** ** What DOM operations leave alone *)

Section Frame.

Context {X : Type} (f : Editor → X).
Hypothesis f_nodes : ∀ g w, f (set_nodes g w) = f w.
Hypothesis f_selection : ∀ s w, f (set_selection s w) = f w.

Lemma keeps_ret {A} (a : A) : keeps f (ret a).
Proof using Type. done. Qed.

Lemma keeps_throw {A} e : keeps f (@throw A e).
Proof using Type. done. Qed.

Lemma keeps_get : keeps f get.
Proof using Type. done. Qed.

Lemma keeps_bind {A B} (m : M A) (k : A → M B) :
  keeps f m → (∀ a, keeps f (k a)) → keeps f (bind m k).
Proof using Type.
  intros Hm Hk w. unfold bind. specialize (Hm w).
  destruct (m w) as [[a|e] w1]; simpl in *; [|done]. by rewrite Hk.
Qed.

Lemma keeps_putNode n N : keeps f (putNode n N).
Proof using f_nodes. intros w. apply f_nodes. Qed.

Lemma keeps_set_selection s : keeps f (modify (set_selection s)).
Proof using f_selection. intros w. apply f_selection. Qed.

Ltac keeps_step :=
  first
    [ apply keeps_ret | apply keeps_throw | apply keeps_get | apply keeps_putNode
    | apply keeps_set_selection
    | apply keeps_bind; [|intros ?]
    | match goal with
      | |- keeps _ (match ?x with _ => _ end) => destruct x
      | |- keeps _ (let _ := _ in _) => cbv zeta
      end ].

Lemma keeps_getNode n : keeps f (getNode n).
Proof using Type. unfold getNode. repeat keeps_step. Qed.

Lemma keeps_allocNode N : keeps f (allocNode N).
Proof using f_nodes. unfold allocNode. repeat keeps_step. Qed.

Lemma keeps_setParent q n : keeps f (setParent q n).
Proof using f_nodes. unfold setParent. apply keeps_bind; [apply keeps_getNode|]. intros. apply keeps_putNode. Qed.

Lemma keeps_setChildren l n : keeps f (setChildren l n).
Proof using f_nodes. unfold setChildren. apply keeps_bind; [apply keeps_getNode|]. intros. apply keeps_putNode. Qed.

Lemma keeps_forEach {A} (g : A → M unit) l : (∀ a, keeps f (g a)) → keeps f (forEach g l).
Proof using Type.
  intros Hg. induction l as [|a l IH]; simpl; [apply keeps_ret|].
  apply keeps_bind; [apply Hg|done].
Qed.

Lemma keeps_detach n : keeps f (detach n).
Proof using f_nodes.
  unfold detach. apply keeps_bind; [apply keeps_getNode|]. intros N.
  destruct (parentNode N); [|apply keeps_ret].
  apply keeps_bind; [apply keeps_getNode|]. intros ?.
  apply keeps_bind; [apply keeps_setChildren|]. intros ?. apply keeps_setParent.
Qed.

Lemma keeps_insertBefore p n c : keeps f (insertBefore p n c).
Proof using f_nodes.
  unfold insertBefore, ensurePreInsertValidity.
  apply keeps_bind.
  { do 3 (apply keeps_bind; [apply keeps_getNode|]; intros ?).
    repeat keeps_step. }
  intros ?. apply keeps_bind; [apply keeps_detach|]. intros ?.
  apply keeps_bind; [apply keeps_getNode|]. intros ?.
  apply keeps_bind; [apply keeps_setChildren|]. intros ?. apply keeps_setParent.
Qed.

Lemma keeps_appendChild p n : keeps f (appendChild p n).
Proof using f_nodes.
  unfold appendChild.
  do 2 (apply keeps_bind; [apply keeps_getNode|]; intros ?).
  repeat match goal with |- keeps _ (match ?x with _ => _ end) => destruct x end;
    try apply keeps_throw;
    (apply keeps_bind; [apply keeps_detach|]; intros ?;
     apply keeps_bind; [apply keeps_getNode|]; intros ?;
     apply keeps_bind; [apply keeps_setChildren|]; intros ?; apply keeps_setParent).
Qed.

Lemma keeps_removeChild p c : keeps f (removeChild p c).
Proof using f_nodes.
  unfold removeChild. apply keeps_bind; [apply keeps_getNode|]. intros ?.
  destruct (decide _); [|apply keeps_throw].
  apply keeps_bind; [apply keeps_getNode|]. intros ?.
  apply keeps_bind; [apply keeps_setChildren|]. intros ?. apply keeps_setParent.
Qed.

Lemma keeps_setTextContent n s : keeps f (setTextContent n s).
Proof using f_nodes.
  unfold setTextContent. apply keeps_bind; [apply keeps_getNode|]. intros ?.
  apply keeps_bind; [apply keeps_forEach; intros; apply keeps_setParent|]. intros ?.
  apply keeps_bind; [apply keeps_setChildren|]. intros ?.
  destruct (truthy s); [|apply keeps_ret].
  apply keeps_bind; [apply keeps_allocNode|]. intros ?. apply keeps_setChildren.
Qed.

Lemma keeps_setStart r n k : keeps f (setStart r n k).
Proof using Type.
  unfold setStart. apply keeps_bind; [apply keeps_getNode|]. intros ?.
  destruct (decide _); [apply keeps_ret|apply keeps_throw].
Qed.

Lemma keeps_caret (sel : option (option Range)) r :
  keeps f (removeAllRanges sel;; addRange sel r).
Proof using f_selection.
  unfold removeAllRanges, addRange. destruct sel; [|by repeat keeps_step].
  apply keeps_bind; [apply keeps_set_selection|]. intros ?.
  apply keeps_bind; [apply keeps_get|]. intros w'.
  destruct (selection w') as [[?|]|]; try apply keeps_ret.
  destruct (isConnected _ _); [apply keeps_set_selection|apply keeps_ret].
Qed.

Lemma keeps_setCursorAtEnd n : keeps f (setCursorAtEnd n).
Proof using f_selection.
  unfold setCursorAtEnd, createRange, getSelection, childCount.
  apply keeps_bind; [repeat keeps_step|]. intros ?.
  apply keeps_bind; [repeat keeps_step|]. intros ?.
  apply keeps_bind; [apply keeps_bind; [apply keeps_getNode|intros; apply keeps_ret]|]. intros ?.
  apply keeps_bind; [apply keeps_setStart|]. intros ?. apply keeps_caret.
Qed.

Lemma keeps_setCursorAfter n : keeps f (setCursorAfter n).
Proof using f_selection.
  unfold setCursorAfter, createRange, getSelection, setStartAfter.
  apply keeps_bind; [repeat keeps_step|]. intros ?.
  apply keeps_bind; [repeat keeps_step|]. intros ?.
  apply keeps_bind.
  { apply keeps_bind; [apply keeps_getNode|]. intros N.
    destruct (parentNode N); [|apply keeps_throw].
    apply keeps_bind; [apply keeps_getNode|]. intros ?. apply keeps_setStart. }
  intros ?. apply keeps_caret.
Qed.

Lemma keeps_optionalText (b : bool) s p t :
  keeps f (if b then (a <- createTextNode s; insertBefore p a t) else ret ()).
Proof using f_nodes.
  destruct b; [|apply keeps_ret].
  apply keeps_bind; [apply keeps_allocNode|]. intros ?. apply keeps_insertBefore.
Qed.

End Frame.

(** ** The flag and the timer of a rewriter call *)

Section Effects.

Lemma control_nodes g w : control (set_nodes g w) = control w.
Proof. done. Qed.

Lemma control_selection s w : control (set_selection s w) = control w.
Proof. done. Qed.

Lemma registers_base : registersRelease (setTimeout ClearProcessing 10;; ret ()).
Proof. intros w. done. Qed.

Lemma registers_bind {A} (m : M A) (k : A → M unit) :
  keeps control m → (∀ a, registersRelease (k a)) → registersRelease (bind m k).
Proof.
  intros Hm Hk w. unfold bind. specialize (Hm w).
  destruct (m w) as [[a|e] w1]; simpl in *.
  - destruct (Hk a w1) as (H1 & H2 & H3). rewrite H1, H2, H3.
    unfold control, scheduled, clock, env in *. simplify_eq.
    split; [congruence|]. split; [congruence|].
    destruct ((k a w1).1); congruence.
  - unfold control, clock, env in *. simplify_eq. repeat split; congruence.
Qed.

Lemma rewriter_flagged (m : M unit) :
  registersRelease m → rewriterEffect (setIsProcessing true;; m).
Proof.
  intros Hm w. unfold bind, setIsProcessing, modify.
  destruct (Hm (set_isProcessing true w)) as (H1 & H2 & H3). by rewrite H1, H2, H3.
Qed.

Lemma blockTail_registers el tgt t after : registersRelease (blockTail el tgt t after).
Proof.
  unfold blockTail, getParentNode.
  apply registers_bind.
  { apply keeps_bind; [apply keeps_getNode|intros; apply keeps_ret]. }
  intros [p|]; (apply registers_bind; [|intros; apply registers_base]);
    [|apply keeps_ret].
  apply keeps_bind; [by apply keeps_insertBefore|]. intros ?.
  apply keeps_bind; [by apply keeps_optionalText|]. intros ?.
  apply keeps_bind; [by apply keeps_removeChild|]. intros ?.
  by apply keeps_setCursorAtEnd.
Qed.

Lemma replaceWithHeading_effect t level text after :
  rewriterEffect (replaceWithHeading t level text after).
Proof.
  apply rewriter_flagged.
  apply registers_bind; [by apply keeps_allocNode|]. intros el.
  apply registers_bind; [by apply keeps_setTextContent|]. intros _.
  apply blockTail_registers.
Qed.

Lemma replaceWithBlockquote_effect t text after :
  rewriterEffect (replaceWithBlockquote t text after).
Proof.
  apply rewriter_flagged.
  apply registers_bind; [by apply keeps_allocNode|]. intros el.
  apply registers_bind; [by apply keeps_setTextContent|]. intros _.
  apply (blockTail_registers el el).
Qed.

Lemma replaceWithList_effect t text after :
  rewriterEffect (replaceWithList t text after).
Proof.
  apply rewriter_flagged.
  apply registers_bind; [by apply keeps_allocNode|]. intros li.
  apply registers_bind; [by apply keeps_setTextContent|]. intros _.
  apply registers_bind; [by apply keeps_allocNode|]. intros ul.
  apply registers_bind; [by apply keeps_appendChild|]. intros _.
  apply (blockTail_registers ul li).
Qed.

Lemma replaceWithInline_effect tag t m : rewriterEffect (replaceWithInline tag t m).
Proof.
  apply rewriter_flagged.
  apply registers_bind; [by apply keeps_get|]. intros w0.
  cbv zeta. unfold getParentNode.
  apply registers_bind.
  { apply keeps_bind; [apply keeps_getNode|intros; apply keeps_ret]. }
  intros [p|]; (apply registers_bind; [|intros; apply registers_base]);
    [|apply keeps_ret].
  apply keeps_bind; [by apply keeps_optionalText|]. intros ?.
  apply keeps_bind; [by apply keeps_allocNode|]. intros ?.
  apply keeps_bind; [by apply keeps_setTextContent|]. intros ?.
  apply keeps_bind; [by apply keeps_insertBefore|]. intros ?.
  apply keeps_bind; [by apply keeps_optionalText|]. intros ?.
  apply keeps_bind; [by apply keeps_removeChild|]. intros ?.
  by apply keeps_setCursorAfter.
Qed.

Lemma applyTransform_effect t after m : rewriterEffect (applyTransform t after m).
Proof.
  destruct m; simpl.
  - apply replaceWithHeading_effect.
  - apply replaceWithList_effect.
  - apply replaceWithBlockquote_effect.
  - apply replaceWithInline_effect.
  - apply replaceWithInline_effect.
  - apply replaceWithInline_effect.
Qed.

End Effects.

(** ** Detection *)

Section Detection.

Implicit Types (w : Editor) (r : Range).

Lemma processSpace_detect w r d q cs :
  selection w = Some (Some r) →
  nodes w !! startContainer r = Some (mkNode (TextNode d) q cs) →
  processSpaceTriggeredFormatting w =
  match detectBlock (substringTo (startOffset r) d) with
  | Some m => applyTransform (startContainer r) (substringFrom (startOffset r) d) m w
  | None => (Ok (), w)
  end.
Proof.
  intros Hs Hn. unfold processSpaceTriggeredFormatting.
  rewrite (bind_run _ _ _ (selection w) w) by done. rewrite Hs.
  rewrite (bind_run _ _ _ _ _ (getNode_run _ _ _ Hn)). cbn [kind].
  unfold detectBlock. cbn [firstMatch].
  destruct (re_match headingRe _); [done|].
  destruct (re_match listRe _); [done|].
  by destruct (re_match blockquoteRe _).
Qed.

Lemma processInline_detect w r d q cs :
  selection w = Some (Some r) →
  nodes w !! startContainer r = Some (mkNode (TextNode d) q cs) →
  processInlineFormatting w =
  match detectInline d with
  | Some m => applyTransform (startContainer r) (substringFrom (startOffset r) d) m w
  | None => (Ok (), w)
  end.
Proof.
  intros Hs Hn. unfold processInlineFormatting.
  rewrite (bind_run _ _ _ (selection w) w) by done. rewrite Hs.
  rewrite (bind_run _ _ _ _ _ (getNode_run _ _ _ Hn)). cbn [kind].
  unfold detectInline, orElse. cbn [firstMatch].
  destruct (re_match boldStarRe _); [done|].
  destruct (re_match boldUnderRe _); [done|].
  destruct (re_match italicStarRe _); [done|].
  destruct (re_match italicUnderRe _); [done|].
  by destruct (re_match codeRe _).
Qed.

Lemma processLive_detect e w r d q cs :
  selection w = Some (Some r) →
  nodes w !! startContainer r = Some (mkNode (TextNode d) q cs) →
  processLiveFormatting e w =
  match detect e d (startOffset r) with
  | Some m => applyTransform (startContainer r) (substringFrom (startOffset r) d) m w
  | None => (Ok (), w)
  end.
Proof.
  intros Hs Hn. unfold processLiveFormatting, detect.
  destruct (isInsertText e && _); [by eapply processSpace_detect|].
  destruct (isInsertText e); [by eapply processInline_detect|done].
Qed.

(** Without a range, or with a range that does not start in a text node,
    nothing is looked at. *)
Lemma process_no_range w :
  selection w = None ∨ selection w = Some None →
  processSpaceTriggeredFormatting w = (Ok (), w) ∧
  processInlineFormatting w = (Ok (), w).
Proof.
  unfold processSpaceTriggeredFormatting, processInlineFormatting.
  rewrite !(bind_run _ _ _ (selection w) w) by done.
  by intros [->| ->].
Qed.

Lemma process_not_text w r N :
  selection w = Some (Some r) →
  nodes w !! startContainer r = Some N → isText (kind N) = false →
  processSpaceTriggeredFormatting w = (Ok (), w) ∧
  processInlineFormatting w = (Ok (), w).
Proof.
  intros Hs Hn Hk. unfold processSpaceTriggeredFormatting, processInlineFormatting.
  rewrite !(bind_run _ _ _ (selection w) w) by done. rewrite Hs.
  rewrite !(bind_run _ _ _ _ _ (getNode_run _ _ _ Hn)).
  by destruct (kind N).
Qed.

Lemma processLive_idle e w :
  processSpaceTriggeredFormatting w = (Ok (), w) →
  processInlineFormatting w = (Ok (), w) →
  processLiveFormatting e w = (Ok (), w).
Proof.
  intros H1 H2. unfold processLiveFormatting.
  destruct (isInsertText e && _); [done|]. by destruct (isInsertText e).
Qed.

End Detection.

(** ** A text run without a parent *)

Section Detached.

Lemma blockTail_detached w el tgt t T after :
  nodes w !! t = Some T → parentNode T = None →
  ∃ w', blockTail el tgt t after w = (Ok (), w') ∧
        nodes w' = nodes w ∧ selection w' = selection w.
Proof.
  intros Ht Hp. unfold blockTail.
  rewrite (bind_run _ _ _ _ _ (getParentNode_run _ _ _ Ht)). rewrite Hp.
  rewrite (bind_run _ _ _ () w) by done.
  rewrite (bind_run _ _ _ _ _ (setTimeout_run _ _ _)). by eexists.
Qed.

Lemma simpleBlock_detached tag w t T text after :
  nodes w !! t = Some T → parentNode T = None →
  ∃ w', (setIsProcessing true;;
         el <- createElement tag;
         setTextContent el text;;
         blockTail el el t after) w = (Ok (), w') ∧
        (∀ n N, nodes w !! n = Some N → nodes w' !! n = Some N) ∧
        selection w' = selection w.
Proof.
  intros Ht Hp.
  rewrite (bind_run _ _ _ () (set_isProcessing true w)) by done.
  rewrite createWithText_bind.
  destruct (createWithText_run (set_isProcessing true w) tag text)
    as (w1 & el & cs & Hrun & (Hext & Hsel & _) & _).
  rewrite (bind_run _ _ _ _ _ Hrun).
  destruct (blockTail_detached w1 el el t T after (Hext _ _ Ht) Hp)
    as (w' & Hrun' & Hn & Hs).
  exists w'. split; [done|]. split; [|by rewrite Hs, Hsel].
  intros n N HN. rewrite Hn. by apply Hext.
Qed.

Lemma list_detached w t T text after :
  nodes w !! t = Some T → parentNode T = None →
  ∃ w', replaceWithList t text after w = (Ok (), w') ∧
        (∀ n N, nodes w !! n = Some N → nodes w' !! n = Some N) ∧
        selection w' = selection w.
Proof.
  intros Ht Hp. unfold replaceWithList.
  rewrite (bind_run _ _ _ () (set_isProcessing true w)) by done.
  rewrite createWithText_bind.
  destruct (createWithText_run (set_isProcessing true w) "li" text)
    as (w1 & li & cs & Hrun & (Hext & Hsel & _) & _ & Hfli & Hli1 & _).
  change (nodes (set_isProcessing true w)) with (nodes w) in *.
  rewrite (bind_run _ _ _ _ _ Hrun).
  rewrite (bind_run _ _ _ _ _ (createElement_run _ _)).
  pose proof (newId_fresh w1) as Hul. set (ul := newId w1) in *.
  assert (ul ≠ li) as Hne by (intros E; congruence).
  set (w2 := upd ul _ w1).
  rewrite (bind_run _ _ _ _ _ (appendChild_run w2 ul li
             (mkNode (ElementNode "ul") None []) _ "ul"
             (lookup_upd_eq _ _ _) (eq_trans (lookup_upd_ne _ _ _ _ Hne) Hli1)
             eq_refl ltac:(done) eq_refl ltac:(congruence))).
  cbn [kind parentNode childNodes app].
  set (w3 := upd li _ (upd ul _ w2)).
  assert (∀ n N, nodes w !! n = Some N → nodes w3 !! n = Some N) as Hext3.
  { intros n N HN. assert (li ≠ n) by (intros ->; congruence).
    assert (ul ≠ n) by (intros ->; apply Hext in HN; congruence).
    subst w3 w2. rewrite !lookup_upd_ne by done. by apply Hext. }
  destruct (blockTail_detached w3 ul li t T after (Hext3 _ _ Ht) Hp)
    as (w' & Hrun' & Hn & Hs).
  exists w'. split; [done|]. split; [|by rewrite Hs; cbn; rewrite Hsel].
  intros n N HN. rewrite Hn. by apply Hext3.
Qed.

Lemma inline_detached tag w t T m :
  nodes w !! t = Some T → parentNode T = None →
  ∃ w', replaceWithInline tag t m w = (Ok (), w') ∧
        (∀ n N, nodes w !! n = Some N → nodes w' !! n = Some N) ∧
        selection w' = selection w.
Proof.
  intros Ht Hp. unfold replaceWithInline.
  rewrite (bind_run _ _ _ () (set_isProcessing true w)) by done.
  rewrite (bind_run _ _ _ (set_isProcessing true w) (set_isProcessing true w)) by done.
  cbv zeta.
  rewrite (bind_run _ _ _ _ _ (getParentNode_run (set_isProcessing true w) _ _ Ht)).
  rewrite Hp. rewrite (bind_run _ _ _ () (set_isProcessing true w)) by done.
  rewrite (bind_run _ _ _ _ _ (setTimeout_run _ _ _)). by eexists.
Qed.

End Detached.

(** ** Any transform of an attached text run *)

Section Transforms.

Lemma block_transform_done w w' t p d tg pp l1 l2 el tgt after m :
  isBlock m = true →
  BlockDone w w' t p d tg pp l1 l2 el tgt (tagOf m) (contentOf m) after →
  tgt = el ∨ nodes w' !! el = Some (mkNode (ElementNode "ul") (Some p) [tgt]) →
  ∃ aft, TransformDone w w' t p d tg pp l1 l2 after m el tgt [] aft.
Proof.
  intros Hb [(aft & Hrep & Haft) Hcontent Hnew Hsel Hconn] Houter.
  exists aft. assert (beforeOf d m = []) as Hbef by by destruct m.
  assert (afterOf d after m = after) as Haf by by destruct m.
  split; try done.
  - by rewrite Hbef.
  - rewrite Haf. unfold keepsAfter. by rewrite Hb.
  - destruct Houter; [by left|by right].
  - unfold caretContainer, caretOffset. by rewrite Hb.
  - unfold caretContainer. by rewrite Hb.
Qed.

Lemma inline_transform_done w w' t p d tg pp l1 l2 el bef aft after m m' :
  (m = BoldMatch m' ∨ m = ItalicMatch m' ∨ m = CodeMatch m') →
  InlineDone w w' t p d tg pp l1 l2 el bef aft (tagOf m)
    (take (m_index m') d) (group 1 m') (drop (m_index m' + length (m_full m')) d) →
  TransformDone w w' t p d tg pp l1 l2 after m el el bef aft.
Proof.
  intros Hm [Hrep Hbef Haft Hcontent Hsel Hconn].
  assert (isBlock m = false ∧ contentOf m = group 1 m' ∧
          beforeOf d m = take (m_index m') d ∧
          afterOf d after m = drop (m_index m' + length (m_full m')) d)
    as (Hb & Hc & Hbf & Haf) by (by destruct Hm as [->|[->| ->]]).
  split; try done.
  - by rewrite Hbf.
  - rewrite Haf. unfold keepsAfter. by rewrite Hb.
  - rewrite decide_True by done. by rewrite Hc.
  - by left.
  - apply (rep_fresh _ _ _ _ _ _ _ _ _ _ Hrep). set_solver.
  - unfold caretContainer, caretOffset. by rewrite Hb.
  - unfold caretContainer. by rewrite Hb.
Qed.

Lemma applyTransform_done w t p d tg pp l1 l2 after m :
  Attached w t p d tg pp l1 l2 →
  ∃ w' el tgt bef aft,
    applyTransform t after m w = (Ok (), w') ∧
    TransformDone w w' t p d tg pp l1 l2 after m el tgt bef aft.
Proof.
  intros Hatt. destruct m as [level text|text|text|m|m|m]; cbn [applyTransform].
  - destruct (replaceWithHeading_done w t p d tg pp l1 l2 level text after Hatt)
      as (w' & el & Hrun & Hdone).
    destruct (block_transform_done _ _ _ _ _ _ _ _ _ _ _ _ (HeadingMatch level text)
                eq_refl Hdone (or_introl eq_refl)) as (aft & ?).
    by exists w', el, el, [], aft.
  - destruct (replaceWithList_done w t p d tg pp l1 l2 text after Hatt)
      as (w' & ul & li & Hrun & Hdone & _ & _ & Hul).
    destruct (block_transform_done _ _ _ _ _ _ _ _ _ _ _ _ (ListMatch text)
                eq_refl Hdone (or_intror Hul)) as (aft & ?).
    by exists w', ul, li, [], aft.
  - destruct (replaceWithBlockquote_done w t p d tg pp l1 l2 text after Hatt)
      as (w' & el & Hrun & Hdone).
    destruct (block_transform_done _ _ _ _ _ _ _ _ _ _ _ _ (BlockquoteMatch text)
                eq_refl Hdone (or_introl eq_refl)) as (aft & ?).
    by exists w', el, el, [], aft.
  - destruct (replaceWithInline_done "strong" w t p d tg pp l1 l2 m Hatt)
      as (w' & el & bef & aft & Hrun & Hdone).
    exists w', el, el, bef, aft. split; [done|].
    eapply inline_transform_done; [by left|done].
  - destruct (replaceWithInline_done "em" w t p d tg pp l1 l2 m Hatt)
      as (w' & el & bef & aft & Hrun & Hdone).
    exists w', el, el, bef, aft. split; [done|].
    eapply inline_transform_done; [by right; left|done].
  - destruct (replaceWithInline_done "code" w t p d tg pp l1 l2 m Hatt)
      as (w' & el & bef & aft & Hrun & Hdone).
    exists w', el, el, bef, aft. split; [done|].
    eapply inline_transform_done; [by right; right|done].
Qed.

(** The node the caret is put in is an element of the new tree. *)
Lemma caret_container_element w w' t p d tg pp l1 l2 after m el tgt bef aft :
  TransformDone w w' t p d tg pp l1 l2 after m el tgt bef aft →
  ∃ N, nodes w' !! caretContainer m p tgt = Some N ∧ isText (kind N) = false.
Proof.
  intros [Hrep _ _ Hcontent _ _ _ _]. unfold caretContainer.
  destruct (isBlock m).
  - unfold elementWithText in Hcontent.
    destruct (truthy (contentOf m)); [destruct Hcontent as (c & ? & _)|]; by eexists.
  - eexists. split; [apply (rep_parent _ _ _ _ _ _ _ _ _ _ Hrep)|done].
Qed.

Lemma indexOf_lookup x (l : list positive) : x ∈ l → l !! indexOf x l = Some x.
Proof.
  induction l as [|y l IH]; simpl; [by intros ?%elem_of_nil|].
  intros Hin. destruct (decide (y = x)) as [->|]; [done|].
  apply elem_of_cons in Hin as [->|Hin]; [done|]. by apply IH.
Qed.

(** Detection finds nothing to do in the state a transform leaves. *)
Lemma transform_settled w w' t p d tg pp l1 l2 after m el tgt bef aft s e :
  TransformDone w w' t p d tg pp l1 l2 after m el tgt bef aft →
  selection w = Some s →
  processLiveFormatting e w' = (Ok (), w').
Proof.
  intros Hdone Hs.
  destruct (caret_container_element _ _ _ _ _ _ _ _ _ _ _ _ _ _ _ Hdone) as (N & HN & Hk).
  pose proof (td_selection _ _ _ _ _ _ _ _ _ _ _ _ _ _ _ Hdone) as Hsel.
  rewrite Hs in Hsel. cbv zeta in Hsel.
  destruct (isConnected w' _).
  - destruct (process_not_text w' _ N Hsel HN Hk). by apply processLive_idle.
  - destruct (process_no_range w' (or_intror Hsel)). by apply processLive_idle.
Qed.

End Transforms.

(** ** Properties of the live-formatting engine *)

(** C3. One insertion event leads to at most one transform, chosen by a
    fixed precedence. With the caret in a text run, the handler does what
    the detector of the specification returns for the event: for an
    inserted space the first of heading, list, blockquote that matches the
    text before the caret; for any other inserted text the first of bold
    (stars, then underscores), italic (star, then underscore), code that
    matches the text run; nothing for another kind of input. Whatever the
    state, the event calls at most one rewriter: the release of the
    re-entrancy flag is scheduled at most once. The order is the one of
    the claim: a list is found only where the heading pattern fails, a
    blockquote only where the list pattern fails as well; bold is a
    non-empty text between doubled stars or doubled underscores, italic
    is found only where no bold pattern matches, between two single
    delimiters that have no delimiter of the same character next to
    them, and code only where neither bold nor italic match. *)
Theorem detection_precedence (e : InputEvent) (w : Editor) (r : Range)
    (d : jsstring) (q : option NodeId) (cs : list NodeId) :
  selection w = Some (Some r) →
  nodes w !! startContainer r = Some (mkNode (TextNode d) q cs) →
  processLiveFormatting e w =
    match detect e d (startOffset r) with
    | Some m =>
        applyTransform (startContainer r) (substringFrom (startOffset r) d) m w
    | None => (Ok (), w)
    end ∧
  (clock (processLiveFormatting e w).2 = clock w ∨
   clock (processLiveFormatting e w).2 = scheduled w) ∧
  (∀ b m, detectBlock b = Some m → blockOrder b m) ∧
  (∀ s m, detectInline s = Some m → inlineOrder s m).
Proof.
  intros Hs Hn. rewrite (processLive_detect e w r d q cs Hs Hn).
  split; [done|]. split.
  - destruct (detect e d (startOffset r)) as [m|]; [|by left].
    destruct (applyTransform_effect (startContainer r)
                (substringFrom (startOffset r) d) m w) as (_ & _ & Hc).
    rewrite Hc. destruct (applyTransform _ _ _ _).1; [by right|by left].
  - split; [exact detectBlock_order|exact detectInline_order].
Qed.

Lemma detection_precedence_witness :
  let w := page (js "**a** *b* `c`") 13 in
  let e := mkInputEvent "insertText" (Some (js "`")) in
  processLiveFormatting e w =
    replaceWithBold 3%positive
      {| m_full := js "**a**"; m_groups := [js "a"]; m_index := 0 |} w ∧
  (clock (processLiveFormatting e w).2 = clock w ∨
   clock (processLiveFormatting e w).2 = scheduled w) ∧
  inlineOrder (js "**a** *b* `c`")
    (BoldMatch {| m_full := js "**a**"; m_groups := [js "a"]; m_index := 0 |}).
Proof.
  pose proof (detection_precedence (mkInputEvent "insertText" (Some (js "`")))
                (page (js "**a** *b* `c`") 13) (mkRange 3 13 3 13)
                (js "**a** *b* `c`") (Some 2%positive) [] eq_refl eq_refl)
    as (Hrun & Hclock & _ & Hinline).
  split; [exact Hrun|]. split; [exact Hclock|].
  exact (Hinline (js "**a** *b* `c`") _ eq_refl).
Defined.

(** C6. While the re-entrancy flag is set the [input] listener does
    nothing at all, however many insertion events arrive: no detection, no
    transform, no change of the state. Every transform sets the flag
    before it touches the tree and leaves it set, in any state, so what a
    transform does to the tree cannot be taken for user input. *)
Theorem reentrancy_guard (w : Editor) (es : list InputEvent) :
  isProcessing w = true →
  runEvents (EvInput <$> es) w = (Ok (), w) ∧
  ∀ t after m w0, isProcessing (applyTransform t after m w0).2 = true.
Proof.
  intros Hflag. split.
  - induction es as [|e es IH]; [done|].
    unfold runEvents. cbn [fmap list_fmap forEach step].
    rewrite (bind_run _ _ _ () w); [exact IH|].
    unfold onInput. rewrite (bind_run _ _ _ w w) by done. by rewrite Hflag.
  - intros t after m w0. by destruct (applyTransform_effect t after m w0) as (? & _).
Qed.

Lemma reentrancy_guard_witness :
  let w := (onInput spaceEvent (page (js "- item") 6)).2 in
  isProcessing w = true ∧
  runEvents (EvInput <$> [spaceEvent; spaceEvent]) w = (Ok (), w).
Proof.
  split; [reflexivity|].
  exact (proj1 (reentrancy_guard (onInput spaceEvent (page (js "- item") 6)).2
                  [spaceEvent; spaceEvent] eq_refl)).
Defined.

(** C8, as the claim states it, fails: a selection that starts in a text
    run and ends in another node is not left alone. Here the range runs
    from the text run holding the list trigger to its parent, and the tree
    is rewritten all the same. *)
Lemma detection_multi_node_counterexample :
  let w := set_selection (Some (Some (mkRange 3 2 2 1))) (page (js "- ") 2) in
  (∃ r, selection w = Some (Some r) ∧ startContainer r ≠ endContainer r) ∧
  nodes (processSpaceTriggeredFormatting w).2 !! 2%positive ≠ nodes w !! 2%positive.
Proof.
  split; [by eexists|]. vm_compute. discriminate.
Qed.

(** C8, amended. Detection looks at the start of the range only. It is a
    no-op when there is no selection or no range, and when the start
    container is not a text node; when the start container is a text node
    (whatever element it sits in) detection runs on it with the start
    offset, wherever the range ends. *)
Theorem detection_guard (w : Editor) :
  match selection w with
  | None | Some None =>
      processSpaceTriggeredFormatting w = (Ok (), w) ∧
      processInlineFormatting w = (Ok (), w)
  | Some (Some r) =>
      ∀ N, nodes w !! startContainer r = Some N →
      match kind N with
      | TextNode d =>
          let after := substringFrom (startOffset r) d in
          processSpaceTriggeredFormatting w =
            match detectBlock (substringTo (startOffset r) d) with
            | Some m => applyTransform (startContainer r) after m w
            | None => (Ok (), w)
            end ∧
          processInlineFormatting w =
            match detectInline d with
            | Some m => applyTransform (startContainer r) after m w
            | None => (Ok (), w)
            end
      | _ =>
          processSpaceTriggeredFormatting w = (Ok (), w) ∧
          processInlineFormatting w = (Ok (), w)
      end
  end.
Proof.
  destruct (selection w) as [[r|]|] eqn:Hs; try (apply process_no_range; by auto).
  intros [k q cs] Hn. destruct k as [|tag|d]; cbn [kind].
  - by apply (process_not_text w r _ Hs Hn).
  - by apply (process_not_text w r _ Hs Hn).
  - split; [by eapply processSpace_detect|by eapply processInline_detect].
Qed.

(** C9. A transform of a text run that has no parent is a silent no-op
    on the tree: it returns without an exception, every node that existed
    is as it was, the selection is as it was, and the only trace is the
    flag and its timer. *)
Theorem detached_noop (w : Editor) (t : NodeId) (T : Node) (after : jsstring)
    (m : TriggerMatch) :
  nodes w !! t = Some T → parentNode T = None →
  ∃ w', applyTransform t after m w = (Ok (), w') ∧
        (∀ n N, nodes w !! n = Some N → nodes w' !! n = Some N) ∧
        selection w' = selection w ∧
        isProcessing w' = true ∧ env w' = env w ∧ clock w' = scheduled w.
Proof.
  intros Ht Hp.
  assert (∃ w', applyTransform t after m w = (Ok (), w') ∧
                (∀ n N, nodes w !! n = Some N → nodes w' !! n = Some N) ∧
                selection w' = selection w) as (w' & Hrun & Hn & Hs).
  { destruct m; cbn [applyTransform].
    - by eapply simpleBlock_detached.
    - by eapply list_detached.
    - by eapply simpleBlock_detached.
    - by eapply inline_detached.
    - by eapply inline_detached.
    - by eapply inline_detached. }
  exists w'. repeat split; try done;
    destruct (applyTransform_effect t after m w) as (Hf & He & Hc);
    rewrite Hrun in *; done.
Qed.

Lemma detached_noop_witness :
  let w := upd 9 (mkNode (TextNode (js "# Title")) None []) (page (js "") 0) in
  ∃ w', replaceWithHeading 9%positive 1 (js "Title") (js "") w = (Ok (), w') ∧
        (∀ n N, nodes w !! n = Some N → nodes w' !! n = Some N) ∧
        selection w' = selection w ∧
        isProcessing w' = true ∧ env w' = env w ∧ clock w' = scheduled w.
Proof.
  exact (detached_noop
           (upd 9 (mkNode (TextNode (js "# Title")) None []) (page (js "") 0))
           9%positive (mkNode (TextNode (js "# Title")) None []) (js "")
           (HeadingMatch 1 (js "Title")) eq_refl eq_refl).
Defined.

(** C1, as the claim states it, fails for the heading trigger: after a
    hash and the space that completes the prefix nothing is rewritten, the
    text run stays where it was and no heading exists. *)
Lemma empty_heading_counterexample :
  processLiveFormatting spaceEvent (page (js "# ") 2) = (Ok (), page (js "# ") 2) ∧
  nodes (page (js "# ") 2) !! 2%positive =
    Some (mkNode (ElementNode "div") (Some 1%positive) [3%positive]).
Proof. split; vm_compute; reflexivity. Qed.

(** C1, amended. When the text run is exactly a list marker or the
    blockquote marker followed by the inserted space, with the caret after
    it, the text run is replaced by exactly one new element of that kind
    (a list with one item, a blockquote) whose text content is empty, and
    the caret is put inside it at offset 0. When the run is hashes
    followed by the inserted space nothing is rewritten: the heading
    pattern asks for text after the white space. *)
Theorem empty_block_trigger (w : Editor) (r : Range) (t p : NodeId)
    (prefix : jsstring) (tg : string) (pp : option NodeId) (l1 l2 : list NodeId) :
  Attached w t p (prefix ++ js " ") tg pp l1 l2 →
  selection w = Some (Some r) → startContainer r = t →
  startOffset r = length prefix + 1 →
  InDocument w t →
  (prefix ∈ [js "-"; js "*"; js "+"] →
   ∃ w' ul li,
     processLiveFormatting spaceEvent w = (Ok (), w') ∧
     nodes w !! ul = None ∧ nodes w !! li = None ∧
     nodes w' !! p = Some (mkNode (ElementNode tg) pp (l1 ++ ul :: l2)) ∧
     nodes w' !! ul = Some (mkNode (ElementNode "ul") (Some p) [li]) ∧
     nodes w' !! li = Some (mkNode (ElementNode "li") (Some ul) []) ∧
     textContent w' ul = [] ∧
     caretAt w' li 0 ∧ isConnected w' li = true) ∧
  (prefix = js ">" →
   ∃ w' el,
     processLiveFormatting spaceEvent w = (Ok (), w') ∧
     nodes w !! el = None ∧
     nodes w' !! p = Some (mkNode (ElementNode tg) pp (l1 ++ el :: l2)) ∧
     nodes w' !! el = Some (mkNode (ElementNode "blockquote") (Some p) []) ∧
     textContent w' el = [] ∧
     caretAt w' el 0 ∧ isConnected w' el = true) ∧
  (∀ k, prefix = replicate k (ch "#") →
        processLiveFormatting spaceEvent w = (Ok (), w)).
Proof.
  intros Hatt Hs Hc Hoff Hdoc. subst t.
  pose proof (processLive_detect spaceEvent w r _ _ _ Hs (att_text _ _ _ _ _ _ _ _ Hatt))
    as Hrun.
  change (detect spaceEvent ?d ?o) with (detectBlock (substringTo o d)) in Hrun.
  unfold substringTo, substringFrom in Hrun.
  rewrite Hoff, take_ge, drop_ge in Hrun
    by (rewrite length_app; simpl; lia).
  split; [|split].
  - intros Hin.
    assert (detectBlock (prefix ++ js " ") = Some (ListMatch [])) as Hd.
    { repeat (apply elem_of_cons in Hin as [->|Hin]); [by vm_compute..|].
      by apply elem_of_nil in Hin. }
    rewrite Hd in Hrun. cbn [applyTransform] in Hrun.
    destruct (replaceWithList_done w _ p _ tg pp l1 l2 [] [] Hatt)
      as (w' & ul & li & Hrun' & Hdone & Hne & Hful & Hul).
    destruct Hdone as [(aft & Hrep & Haft) Hli Hfli Hsel Hconn].
    simpl in Haft. subst aft.
    rewrite decide_False in Hli by done. simpl in Hli.
    exists w', ul, li. split; [congruence|].
    split; [done|]. split; [done|].
    split; [apply (rep_parent _ _ _ _ _ _ _ _ _ _ Hrep)|].
    split; [done|]. split; [done|]. split.
    { unfold textContent. simpl. rewrite Hul. simpl.
      destruct (size (nodes w')); simpl; [done|]. by rewrite Hli. }
    specialize (Hconn Hdoc). unfold caretAt. rewrite Hsel, Hs, Hconn. done.
  - intros ->.
    assert (detectBlock (js ">" ++ js " ") = Some (BlockquoteMatch [])) as Hd
      by by vm_compute.
    rewrite Hd in Hrun. cbn [applyTransform] in Hrun.
    destruct (replaceWithBlockquote_done w _ p _ tg pp l1 l2 [] [] Hatt)
      as (w' & el & Hrun' & Hdone).
    destruct Hdone as [(aft & Hrep & Haft) Hel Hfel Hsel Hconn].
    simpl in Haft. subst aft.
    rewrite decide_True in Hel by done. simpl in Hel.
    exists w', el. split; [congruence|]. split; [done|].
    split; [apply (rep_parent _ _ _ _ _ _ _ _ _ _ Hrep)|].
    split; [done|]. split.
    { unfold textContent. simpl. by rewrite Hel. }
    specialize (Hconn Hdoc). unfold caretAt. rewrite Hsel, Hs, Hconn. done.
  - intros k ->. change (js " ") with [ch " "] in Hrun.
    by rewrite hashes_space_no_block in Hrun.
Qed.

Lemma empty_block_trigger_witness :
  ∃ w' ul li,
    processLiveFormatting spaceEvent (page (js "- ") 2) = (Ok (), w') ∧
    nodes (page (js "- ") 2) !! ul = None ∧ nodes (page (js "- ") 2) !! li = None ∧
    nodes w' !! 2%positive =
      Some (mkNode (ElementNode "div") (Some 1%positive) ([] ++ ul :: [])) ∧
    nodes w' !! ul = Some (mkNode (ElementNode "ul") (Some 2%positive) [li]) ∧
    nodes w' !! li = Some (mkNode (ElementNode "li") (Some ul) []) ∧
    textContent w' ul = [] ∧
    caretAt w' li 0 ∧ isConnected w' li = true.
Proof.
  apply (proj1 (empty_block_trigger (page (js "- ") 2) (mkRange 3 2 3 2)
                  3%positive 2%positive (js "-") "div" (Some 1%positive) [] []
                  (Build_Attached (page (js "- ") 2) 3%positive 2%positive
                     (js "-" ++ js " ") "div" (Some 1%positive) [] []
                     eq_refl eq_refl (not_elem_of_nil _) (not_elem_of_nil _))
                  eq_refl eq_refl eq_refl
                  (conj (ex_intro _ (mkNode DocumentNode None [2%positive])
                           (conj eq_refl eq_refl)) eq_refl))).
  apply list_elem_of_here.
Defined.

(** C2, as the claim states it, fails in both directions. A hash and two
    spaces are a heading trigger, with the second space as the text,
    though no character is other than white space; and a remainder that
    holds a line terminator is no trigger, though it has characters that
    are not white space. *)
Lemma heading_shape_counterexample :
  (re_match headingRe (js "#  ") =
     Some {| m_full := js "#  "; m_groups := [js "#"; js " "]; m_index := 0 |} ∧
   ¬ claimedHeadingShape (js "#  ")) ∧
  (claimedHeadingShape (js "# a" ++ [10%N] ++ js "b") ∧
   re_match headingRe (js "# a" ++ [10%N] ++ js "b") = None).
Proof.
  split; split.
  - by vm_compute.
  - intros (k & ws & r & Heq & Hk & Hws & Hsp & Hr).
    apply Exists_exists in Hr as (c & Hc & Hnsp).
    destruct k as [|k]; [lia|].
    assert (c ∈ drop 1 (js "#  ")) as Hin by (rewrite Heq; simpl; set_solver).
    vm_compute in Hin.
    assert (isSpace c = true); [|congruence].
    repeat (apply elem_of_cons in Hin as [->|Hin]); [by vm_compute..|].
    by apply elem_of_nil in Hin.
  - exists 1, (js " "), (js "a" ++ [10%N] ++ js "b").
    split; [done|]. split; [lia|]. split; [done|]. split.
    + by repeat constructor.
    + by apply Exists_cons_hd.
  - by vm_compute.
Qed.

(** C2, amended. The text before the caret is a heading trigger exactly
    when it is one to six hashes, then white space, then at least one
    character, none of which is a line terminator (white space counts as
    such a character). On a match the first group is the hashes, so the
    level is their number; the second group is the remainder, which
    starts after the longest run of white space unless that leaves
    nothing, in which case it is the last white space character; and the
    rewriter, when the text run is attached, puts a new element with tag
    h<level> in the tree whose text is that remainder. *)
Theorem heading_trigger (s : jsstring) :
  (is_Some (re_match headingRe s) ↔ ∃ k ws r, headingShape s k ws r) ∧
  (∀ m, re_match headingRe s = Some m →
     ∃ k ws r,
       headingShape s k ws r ∧
       group 1 m = replicate k (ch "#") ∧ length (group 1 m) = k ∧
       group 2 m = r ∧
       (∀ c, r !! 0 = Some c → isSpace c = true → length r = 1) ∧
       detectBlock s = Some (HeadingMatch k r)) ∧
  (∀ m w rg t p d tg pp l1 l2,
     re_match headingRe s = Some m →
     Attached w t p d tg pp l1 l2 →
     selection w = Some (Some rg) → startContainer rg = t →
     substringTo (startOffset rg) d = s →
     ∃ w' el,
       processLiveFormatting spaceEvent w = (Ok (), w') ∧
       nodes w !! el = None ∧
       elementWithText w' el ("h" +:+ decimal (length (group 1 m))) p (group 2 m)).
Proof.
  split; [apply re_match_heading_is_Some|]. split.
  - intros m Hm. pose proof Hm as Hm'.
    apply re_match_heading in Hm as (k & ws & r & Hshape & -> & Hg).
    assert (detectBlock s = Some (HeadingMatch k r)) as Hd.
    { unfold detectBlock. rewrite Hm'. unfold group. simpl. by rewrite length_replicate. }
    exists k, ws, r. unfold group. simpl. rewrite length_replicate. done.
  - intros m w rg t p d tg pp l1 l2 Hm Hatt Hs Hc Hsub. subst t.
    pose proof (processLive_detect spaceEvent w rg _ _ _ Hs
                  (att_text _ _ _ _ _ _ _ _ Hatt)) as Hrun.
    change (detect spaceEvent ?d ?o) with (detectBlock (substringTo o d)) in Hrun.
    rewrite Hsub in Hrun. unfold detectBlock in Hrun. rewrite Hm in Hrun.
    cbn [firstMatch fmap option_fmap option_map applyTransform] in Hrun.
    destruct (replaceWithHeading_done w _ p d tg pp l1 l2 (length (group 1 m))
                (group 2 m) (substringFrom (startOffset rg) d) Hatt)
      as (w' & el & Hrun' & Hdone).
    exists w', el. split; [congruence|].
    destruct Hdone as [_ Hel Hfel _ _]. rewrite decide_True in Hel by done. done.
Qed.

Lemma heading_trigger_witness :
  ∃ w' el,
    processLiveFormatting spaceEvent (page (js "## Two ") 7) = (Ok (), w') ∧
    nodes (page (js "## Two ") 7) !! el = None ∧
    elementWithText w' el "h2" 2%positive (js "Two ").
Proof.
  exact (proj2 (proj2 (heading_trigger (js "## Two ")))
           {| m_full := js "## Two "; m_groups := [js "##"; js "Two "]; m_index := 0 |}
           (page (js "## Two ") 7) (mkRange 3 7 3 7) 3%positive 2%positive
           (js "## Two ") "div" (Some 1%positive) [] [] eq_refl
           (Build_Attached (page (js "## Two ") 7) 3%positive 2%positive
              (js "## Two ") "div" (Some 1%positive) [] []
              eq_refl eq_refl (not_elem_of_nil _) (not_elem_of_nil _))
           eq_refl eq_refl eq_refl).
Defined.

(** C4, as the claim states it, fails for white space after the caret
    of a block trigger: here one space follows the caret, and after the
    rewrite the list is the only child of the editor: the space is gone,
    and the text content went from "- a  " to "a ". *)
Lemma leftover_whitespace_counterexample :
  let w := page (js "- a  ") 4 in
  let w' := (processLiveFormatting spaceEvent w).2 in
  substringFrom 4 (js "- a  ") = js " " ∧
  nodes w' !! 2%positive =
    Some (mkNode (ElementNode "div") (Some 1%positive) [6%positive]) ∧
  nodes w' !! 6%positive =
    Some (mkNode (ElementNode "ul") (Some 2%positive) [4%positive]) ∧
  textContent w' 2%positive = js "a ".
Proof. repeat split; vm_compute; reflexivity. Qed.

(** The example of the claim: the text run "# Title extra" with the
    caret after "Title" gives a heading holding "Title" and a sibling text
    node holding " extra"; with the inserted space in the run and the
    caret after it, the heading holds "Title " and the sibling " extra". *)
Example leftover_example :
  (let w' := (processLiveFormatting spaceEvent (page (js "# Title extra") 7)).2 in
   nodes w' !! 2%positive =
     Some (mkNode (ElementNode "div") (Some 1%positive) [4%positive; 6%positive]) ∧
   nodes w' !! 4%positive =
     Some (mkNode (ElementNode "h1") (Some 2%positive) [5%positive]) ∧
   nodes w' !! 5%positive = Some (mkNode (TextNode (js "Title")) (Some 4%positive) []) ∧
   nodes w' !! 6%positive = Some (mkNode (TextNode (js " extra")) (Some 2%positive) [])) ∧
  (let w' := (processLiveFormatting spaceEvent (page (js "# Title  extra") 8)).2 in
   nodes w' !! 2%positive =
     Some (mkNode (ElementNode "div") (Some 1%positive) [4%positive; 6%positive]) ∧
   nodes w' !! 4%positive =
     Some (mkNode (ElementNode "h1") (Some 2%positive) [5%positive]) ∧
   nodes w' !! 5%positive = Some (mkNode (TextNode (js "Title ")) (Some 4%positive) []) ∧
   nodes w' !! 6%positive = Some (mkNode (TextNode (js " extra")) (Some 2%positive) [])).
Proof. repeat split; vm_compute; reflexivity. Qed.

(** C4, amended. A transform of an attached text run puts in its place,
    in this order, a text node for the text before the match when that
    text is not empty, the new element, and a text node for the text after
    the match when it is kept; each kept text is a node of its own next to
    the new element, never part of it, and the new element holds the
    captured text only. An inline rewriter keeps any text after the match
    that is not empty; a block rewriter keeps the text after the caret
    only when it has a character that is not white space. Nothing else
    that existed changes. For an inline match found in the text run, the
    run is the text before, the match and the text after. *)
Theorem leftover_text (w : Editor) (t p : NodeId) (d : jsstring) (tg : string)
    (pp : option NodeId) (l1 l2 : list NodeId) (after : jsstring) (m : TriggerMatch) :
  Attached w t p d tg pp l1 l2 →
  ∃ w' el tgt bef aft,
    applyTransform t after m w = (Ok (), w') ∧
    nodes w' !! p = Some (mkNode (ElementNode tg) pp (l1 ++ (bef ++ el :: aft) ++ l2)) ∧
    (∀ n, n ∈ bef ++ el :: aft → nodes w !! n = None) ∧
    keptText w' p (beforeOf d m) (truthy (beforeOf d m)) bef ∧
    keptText w' p (afterOf d after m) (keepsAfter m (afterOf d after m)) aft ∧
    elementWithText w' tgt (tagOf m) (if decide (tgt = el) then p else el) (contentOf m) ∧
    (tgt = el ∨ nodes w' !! el = Some (mkNode (ElementNode "ul") (Some p) [tgt])) ∧
    (∀ n, is_Some (nodes w !! n) → n ≠ p → n ≠ t → nodes w' !! n = nodes w !! n) ∧
    (∀ re m', re_match re d = Some m' →
       m = BoldMatch m' ∨ m = ItalicMatch m' ∨ m = CodeMatch m' →
       d = beforeOf d m ++ m_full m' ++ afterOf d after m).
Proof.
  intros Hatt.
  destruct (applyTransform_done w t p d tg pp l1 l2 after m Hatt)
    as (w' & el & tgt & bef & aft & Hrun & [Hrep Hbef Haft Hcontent Houter Hnew _ _]).
  exists w', el, tgt, bef, aft. split; [done|].
  destruct Hrep as [Hp _ Hframe Hfresh _ _ _].
  repeat split; try done.
  - destruct Houter as [?|[_ ?]]; [by left|by right].
  - intros re m' Hm [->|[->| ->]]; by apply (re_match_split re).
Qed.

Lemma leftover_text_witness :
  ∃ w' el tgt bef aft,
    replaceWithHeading 3%positive 1 (js "Title") (js " extra")
      (page (js "# Title extra") 7) = (Ok (), w') ∧
    nodes w' !! 2%positive =
      Some (mkNode (ElementNode "div") (Some 1%positive) ([] ++ (bef ++ el :: aft) ++ [])) ∧
    (∀ n, n ∈ bef ++ el :: aft → nodes (page (js "# Title extra") 7) !! n = None) ∧
    keptText w' 2%positive [] false bef ∧
    keptText w' 2%positive (js " extra") true aft ∧
    elementWithText w' tgt "h1" (if decide (tgt = el) then 2%positive else el) (js "Title") ∧
    (tgt = el ∨ nodes w' !! el = Some (mkNode (ElementNode "ul") (Some 2%positive) [tgt])) ∧
    (∀ n, is_Some (nodes (page (js "# Title extra") 7) !! n) →
          n ≠ 2%positive → n ≠ 3%positive →
          nodes w' !! n = nodes (page (js "# Title extra") 7) !! n) ∧
    (∀ re m', re_match re (js "# Title extra") = Some m' →
       HeadingMatch 1 (js "Title") = BoldMatch m' ∨
       HeadingMatch 1 (js "Title") = ItalicMatch m' ∨
       HeadingMatch 1 (js "Title") = CodeMatch m' →
       js "# Title extra" = [] ++ m_full m' ++ js " extra").
Proof.
  exact (leftover_text (page (js "# Title extra") 7) 3%positive 2%positive
           (js "# Title extra") "div" (Some 1%positive) [] [] (js " extra")
           (HeadingMatch 1 (js "Title"))
           (Build_Attached (page (js "# Title extra") 7) 3%positive 2%positive
              (js "# Title extra") "div" (Some 1%positive) [] []
              eq_refl eq_refl (not_elem_of_nil _) (not_elem_of_nil _))).
Defined.

(** A text run can hold more than one trigger. The event converts the
    first one; the text after it stays in the tree as a text node of its
    own, for a later event to look at. *)
Example later_trigger_example :
  let e := mkInputEvent "insertText" (Some (js "*")) in
  let w' := (processLiveFormatting e (page (js "**a** **b**") 11)).2 in
  nodes w' !! 2%positive =
    Some (mkNode (ElementNode "div") (Some 1%positive) [4%positive; 6%positive]) ∧
  nodes w' !! 6%positive =
    Some (mkNode (TextNode (js " **b**")) (Some 2%positive) []) ∧
  matches boldStarRe (js " **b**") = true.
Proof. repeat split; vm_compute; reflexivity. Qed.



(** C7, as the claim states it, fails for the inline transforms: the
    caret is not put inside the new element. Here the new element is the
    node 4 and the caret is in its parent, the node 2, at offset 1, right
    after the new element. *)
Lemma inline_caret_counterexample :
  let e := mkInputEvent "insertText" (Some (js "*")) in
  let w' := (processLiveFormatting e (page (js "**a**") 5)).2 in
  nodes w' !! 4%positive =
    Some (mkNode (ElementNode "strong") (Some 2%positive) [5%positive]) ∧
  nodes w' !! 2%positive =
    Some (mkNode (ElementNode "div") (Some 1%positive) [4%positive]) ∧
  selection w' = Some (Some (mkRange 2 1 2 1)).
Proof. repeat split; vm_compute; reflexivity. Qed.

(** C7, amended. After a transform of a text run that is in the document,
    with a selection present, the caret is collapsed at a position of the
    new tree, in a node that is in the document and is not the removed
    text run: for a block transform in the new element that holds the
    text (the heading, the list item, the blockquote), at the end of its
    content; for an inline transform in the parent of the new element,
    right after the new element. *)
Theorem caret_after_transform (w : Editor) (t p : NodeId) (d : jsstring)
    (tg : string) (pp : option NodeId) (l1 l2 : list NodeId)
    (s : option Range) (after : jsstring) (m : TriggerMatch) :
  Attached w t p d tg pp l1 l2 →
  selection w = Some s →
  InDocument w t →
  ∃ w' el tgt c k,
    applyTransform t after m w = (Ok (), w') ∧
    caretAt w' c k ∧ isConnected w' c = true ∧ c ≠ t ∧
    nodes w !! tgt = None ∧
    elementWithText w' tgt (tagOf m) (if decide (tgt = el) then p else el) (contentOf m) ∧
    if isBlock m
    then c = tgt ∧ k = (if truthy (contentOf m) then 1 else 0)
    else c = p ∧ tgt = el ∧ 1 ≤ k ∧
         ∃ siblings, nodes w' !! p = Some (mkNode (ElementNode tg) pp siblings) ∧
                     siblings !! (k - 1) = Some el.
Proof.
  intros Hatt Hs Hdoc.
  destruct (applyTransform_done w t p d tg pp l1 l2 after m Hatt)
    as (w' & el & tgt & bef & aft & Hrun & Hdone).
  pose proof Hdone as [Hrep _ _ Hcontent Houter Hnew Hsel Hconn].
  specialize (Hconn Hdoc). rewrite Hs in Hsel. cbv zeta in Hsel. rewrite Hconn in Hsel.
  eexists w', el, tgt, _, _. split; [done|]. split; [exact Hsel|]. split; [done|].
  destruct Hatt as [Ht Hp _ _].
  split; [|split; [done|split; [done|]]].
  - unfold caretContainer. destruct (isBlock m); intros ->; congruence.
  - unfold caretContainer, caretOffset. destruct (isBlock m) eqn:Hb; [done|].
    assert (tgt = el) as -> by (destruct Houter as [?|[? _]]; congruence).
    split; [done|]. split; [done|]. split; [lia|].
    eexists. split; [apply (rep_parent _ _ _ _ _ _ _ _ _ _ Hrep)|].
    rewrite Nat.sub_1_r. cbn [pred]. rewrite <- (app_assoc bef).
    apply indexOf_lookup. set_solver.
Qed.

Lemma caret_after_transform_witness :
  ∃ w' el tgt c k,
    replaceWithList 3%positive (js "item ") [] (page (js "- item ") 7) = (Ok (), w') ∧
    caretAt w' c k ∧ isConnected w' c = true ∧ c ≠ 3%positive ∧
    nodes (page (js "- item ") 7) !! tgt = None ∧
    elementWithText w' tgt "li" (if decide (tgt = el) then 2%positive else el)
      (js "item ") ∧
    (c = tgt ∧ k = 1).
Proof.
  exact (caret_after_transform (page (js "- item ") 7) 3%positive 2%positive
           (js "- item ") "div" (Some 1%positive) [] [] (Some (mkRange 3 7 3 7)) []
           (ListMatch (js "item "))
           (Build_Attached (page (js "- item ") 7) 3%positive 2%positive
              (js "- item ") "div" (Some 1%positive) [] []
              eq_refl eq_refl (not_elem_of_nil _) (not_elem_of_nil _))
           eq_refl
           (conj (ex_intro _ (mkNode DocumentNode None [2%positive])
                    (conj eq_refl eq_refl)) eq_refl)).
Defined.

(** ** Properties of the document store *)

Section Store.

Lemma firstByUpdatedAtDesc_newest best l r :
  (∀ x, x ∈ l → updated_at x < updated_at r) →
  (∀ b, best = Some b → updated_at b < updated_at r) →
  firstByUpdatedAtDesc best (l ++ [r]) = Some r.
Proof.
  revert best. induction l as [|x l IH]; intros best Hl Hb; simpl.
  - destruct best as [b|]; [|done].
    specialize (Hb b eq_refl). apply Nat.ltb_lt in Hb. by rewrite Hb.
  - destruct best as [b|].
    + destruct (updated_at b <? updated_at x);
        (apply IH; [set_solver|intros ? [= <-]; auto; apply Hl; set_solver]).
    + apply IH; [set_solver|]. intros ? [= <-]. apply Hl. set_solver.
Qed.

(** Saving appends one row and leaves the rows that were there as they
    were; it fails only when the database is not initialized. *)
Lemma saveContent_appends content now tbl :
  ∃ row, saveContent content now (mkDatabaseService (Some tbl)) =
           inr (mkDatabaseService (Some (mkTable (rows tbl ++ [row]) (row_id row)))) ∧
         row_content row = toWellFormed content ∧ updated_at row = now ∧
         row_id row = S (sequence tbl).
Proof. by exists (mkRow (S (sequence tbl)) (toWellFormed content) now now). Qed.

(** Nothing saved reads as [null]. *)
Lemma getLatestContent_empty : getLatestContent newDatabase = inr None.
Proof. done. Qed.

(** When the clock has moved on since every earlier save, the content
    saved last is the content read, as its UTF-8 form reads. *)
Lemma save_then_load content now tbl :
  (∀ x, x ∈ rows tbl → updated_at x < now) →
  ∃ s', saveContent content now (mkDatabaseService (Some tbl)) = inr s' ∧
        getLatestContent s' = inr (Some (toWellFormed content)).
Proof.
  intros Hnew. eexists. split; [done|]. unfold getLatestContent. simpl.
  rewrite firstByUpdatedAtDesc_newest; [done|done|done].
Qed.

End Store.

(** C10. The store is append-only and reads [null] when nothing was saved,
    as the claim says, but the round trip fails: two saves within the
    same second of the clock carry the same [updated_at], and the content
    read back is the one saved first, not the one saved last. The same
    happens, whatever the order among equal timestamps, when the clock is
    set back between two saves. *)
Theorem latest_content_not_last :
  (∃ s1 s2, saveContent (js "first") 5 newDatabase = inr s1 ∧
            saveContent (js "second") 5 s1 = inr s2 ∧
            getLatestContent s2 = inr (Some (js "first"))) ∧
  (∃ s1 s2, saveContent (js "first") 5 newDatabase = inr s1 ∧
            saveContent (js "second") 3 s1 = inr s2 ∧
            getLatestContent s2 = inr (Some (js "first"))).
Proof. split; by eexists _, _. Qed.

(** * Further properties of the code *)

(** ** Searching, both ways *)

Section Search.

Lemma search_Some r pre rest i m :
  search r pre rest i = Some m ↔
  ∃ j caps out,
    j ≤ length rest ∧
    run r (reverse (take j rest) ++ pre) (drop j rest) = Some (caps, out) ∧
    (∀ j', j' < j → run r (reverse (take j' rest) ++ pre) (drop j' rest) = None) ∧
    m = {| m_full := take (length (drop j rest) - length out) (drop j rest);
           m_groups := caps; m_index := i + j |}.
Proof.
  revert pre i. induction rest as [|c rest IH]; intros pre i; simpl.
  - split.
    + destruct (run r pre []) as [[caps out]|] eqn:E; [|done]. intros [= <-].
      exists 0, caps, out. rewrite Nat.add_0_r.
      split; [done|]. split; [done|]. split; [intros; lia|done].
    + intros (j & caps & out & Hj & Hrun & _ & ->).
      replace j with 0 in * by lia. simpl in *. by rewrite Hrun, Nat.add_0_r.
  - destruct (run r pre (c :: rest)) as [[caps out]|] eqn:E.
    + split.
      * intros [= <-]. exists 0, caps, out. rewrite Nat.add_0_r.
        split; [lia|]. split; [done|]. split; [intros; lia|done].
      * intros (j & caps' & out' & Hj & Hrun & Hfirst & ->).
        destruct j as [|j].
        -- simpl in *. rewrite E in Hrun. injection Hrun as <- <-.
           by rewrite Nat.add_0_r.
        -- specialize (Hfirst 0 ltac:(lia)). simpl in Hfirst. congruence.
    + rewrite IH. split.
      * intros (j & caps & out & Hj & Hrun & Hfirst & ->).
        exists (S j), caps, out. cbn [take drop]. rewrite reverse_cons, <- app_assoc.
        split; [lia|]. split; [done|]. split; [|f_equal; lia].
        intros [|j'] Hj'; [done|]. cbn [take drop]. rewrite reverse_cons, <- app_assoc.
        apply Hfirst. lia.
      * intros (j & caps & out & Hj & Hrun & Hfirst & ->).
        destruct j as [|j]; [simpl in Hrun; congruence|].
        exists j, caps, out. cbn [take drop] in Hrun.
        rewrite reverse_cons, <- app_assoc in Hrun.
        split; [lia|]. split; [done|]. split; [|f_equal; lia].
        intros j' Hj'. specialize (Hfirst (S j') ltac:(lia)).
        cbn [take drop] in Hfirst. by rewrite reverse_cons, <- app_assoc in Hfirst.
Qed.

Lemma search_None r pre rest i :
  search r pre rest i = None ↔
  ∀ j, j ≤ length rest → run r (reverse (take j rest) ++ pre) (drop j rest) = None.
Proof.
  revert pre i. induction rest as [|c rest IH]; intros pre i; simpl.
  - destruct (run r pre []) as [[caps out]|] eqn:E; split; try done.
    + intros H. specialize (H 0 ltac:(lia)). simpl in H. congruence.
    + intros _ j Hj. replace j with 0 by lia. done.
  - destruct (run r pre (c :: rest)) as [[caps out]|] eqn:E.
    + split; [done|]. intros H. specialize (H 0 ltac:(lia)). simpl in H. congruence.
    + rewrite IH. split.
      * intros H [|j] Hj; [done|]. cbn [take drop]. rewrite reverse_cons, <- app_assoc.
        apply H. lia.
      * intros H j Hj. specialize (H (S j) ltac:(lia)). cbn [take drop] in H.
        by rewrite reverse_cons, <- app_assoc in H.
Qed.

End Search.

(** ** The inline patterns, both ways *)

Section InlineShapes.

Lemma run_one c r pre rest res :
  run (One (CChar c) :: r) pre rest = Some res ↔
  ∃ rest', rest = c :: rest' ∧ run r (c :: pre) rest' = Some res.
Proof.
  split; [apply run_one_inv|]. intros (rest' & -> & H). simpl.
  by rewrite N.eqb_refl.
Qed.

Lemma in_class c (g : jsstring) :
  c ∉ g → Forall (λ x, cls_match (CNot [c]) x = true) g.
Proof.
  intros Hc. apply Forall_forall. intros x Hx. simpl.
  destruct (x =? c)%N eqn:E; [|done]. apply N.eqb_eq in E as ->. done.
Qed.

(** A group of characters other than [c], then [c]: the group is all the
    text up to the first [c]. *)
Lemma run_group_close c r pre rest caps out :
  run (Rep true (CNot [c]) 1 None :: One (CChar c) :: r) pre rest = Some (caps, out) ↔
  ∃ g rest' caps',
    rest = g ++ c :: rest' ∧ g ≠ [] ∧ (c ∉ g) ∧ caps = g :: caps' ∧
    run r (c :: reverse g ++ pre) rest' = Some (caps', out).
Proof.
  split.
  - intros H. apply run_rep_inv in H as (g & rest1 & caps' & -> & Hf & Hl & -> & H).
    apply run_one_inv in H as (rest' & -> & H).
    exists g, rest', caps'. split; [done|]. split; [by destruct g; simpl in Hl; [lia|]|].
    split; [by apply not_in_class|done].
  - intros (g & rest' & caps' & -> & Hg & Hc & -> & H).
    cbn [run].
    assert (span (CNot [c]) None (g ++ c :: rest') = length g) as ->.
    { eapply span_stop; [by apply span_prefix, in_class| |].
      - by rewrite drop_app_length.
      - simpl. by rewrite N.eqb_refl. }
    apply backtrack_top; [destruct g; simpl; [done|lia]|].
    rewrite take_app_length, drop_app_length. simpl. rewrite N.eqb_refl.
    by rewrite H.
Qed.

Lemma run_bold c pre rest caps out :
  run [One (CChar c); One (CChar c); Rep true (CNot [c]) 1 None;
       One (CChar c); One (CChar c)] pre rest = Some (caps, out) ↔
  ∃ g, rest = [c; c] ++ g ++ [c; c] ++ out ∧ g ≠ [] ∧ (c ∉ g) ∧ caps = [g].
Proof.
  rewrite run_one. setoid_rewrite run_one. setoid_rewrite run_group_close.
  setoid_rewrite run_one. simpl. split.
  - intros (? & -> & ? & -> & g & ? & ? & -> & ? & ? & -> & ? & -> & [= <- <-]).
    by exists g.
  - intros (g & -> & ? & ? & ->). do 2 (eexists; split; [done|]).
    exists g. do 2 eexists. split; [done|]. do 3 (split; [done|]). by eexists.
Qed.

Lemma run_code c pre rest caps out :
  run [One (CChar c); Rep true (CNot [c]) 1 None; One (CChar c)] pre rest =
    Some (caps, out) ↔
  ∃ g, rest = [c] ++ g ++ [c] ++ out ∧ g ≠ [] ∧ (c ∉ g) ∧ caps = [g].
Proof.
  rewrite run_one. setoid_rewrite run_group_close. simpl. split.
  - intros (? & -> & g & ? & ? & -> & ? & ? & -> & [= <- <-]). by exists g.
  - intros (g & -> & ? & ? & ->). eexists. split; [done|].
    exists g. by do 2 eexists.
Qed.

Lemma run_not_behind c r pre rest res :
  run (NotBehind (CChar c) :: r) pre rest = Some res ↔
  head pre ≠ Some c ∧ run r pre rest = Some res.
Proof.
  split; [apply run_not_behind_inv|]. intros [Hb H]. simpl.
  destruct pre as [|c' pre]; [done|].
  destruct (c' =? c)%N eqn:E; [|done]. apply N.eqb_eq in E as ->. done.
Qed.

Lemma run_not_ahead c r pre rest res :
  run (NotAhead (CChar c) :: r) pre rest = Some res ↔
  head rest ≠ Some c ∧ run r pre rest = Some res.
Proof.
  split; [apply run_not_ahead_inv|]. intros [Hb H]. simpl.
  destruct rest as [|c' rest]; [done|].
  destruct (c' =? c)%N eqn:E; [|done]. apply N.eqb_eq in E as ->. done.
Qed.

Lemma run_italic c pre rest caps out :
  run [NotBehind (CChar c); One (CChar c); Rep true (CNot [c]) 1 None;
       One (CChar c); NotAhead (CChar c)] pre rest = Some (caps, out) ↔
  ∃ g, rest = [c] ++ g ++ [c] ++ out ∧ g ≠ [] ∧ (c ∉ g) ∧ caps = [g] ∧
       head pre ≠ Some c ∧ head out ≠ Some c.
Proof.
  rewrite run_not_behind, run_one. setoid_rewrite run_group_close.
  setoid_rewrite run_not_ahead. simpl. split.
  - intros (? & ? & -> & g & ? & ? & -> & ? & ? & -> & ? & [= <- <-]). by exists g.
  - intros (g & -> & ? & ? & -> & ? & ?). split; [done|]. eexists. split; [done|].
    exists g. by do 2 eexists.
Qed.

(** From a description of the runs of a pattern to its matches. *)
Lemma re_match_first re delim c lone s m :
  (∀ pre rest caps out,
     run re pre rest = Some (caps, out) ↔
     ∃ g, rest = delim ++ g ++ delim ++ out ∧ g ≠ [] ∧ (c ∉ g) ∧ caps = [g] ∧
          (lone = true → head pre ≠ Some c ∧ head out ≠ Some c)) →
  re_match re s = Some m ↔
  ∃ pre g post, firstOccurrence delim c lone s pre g post ∧ m = matchOf delim pre g.
Proof.
  intros Hrun. unfold re_match. rewrite search_Some.
  assert (∀ pre g post, occursAt delim c lone s pre g post →
            run re (reverse (take (length pre) s) ++ []) (drop (length pre) s) =
              Some ([g], post)) as Hocc.
  { intros pre g post (-> & Hg & Hc & Hl). rewrite take_app_length, drop_app_length.
    apply Hrun. exists g. do 4 (split; [done|]).
    intros Hlone. rewrite app_nil_r, head_reverse. by apply Hl. }
  split.
  - intros (j & caps & out & Hj & H & Hfirst & ->).
    apply Hrun in H as (g & Hd & Hg & Hc & -> & Hl).
    exists (take j s), g, out. split; [split|].
    + split; [by rewrite <- Hd, take_drop|]. do 2 (split; [done|]).
      intros Hlone. rewrite app_nil_r, head_reverse in Hl. by apply Hl.
    + intros pre' g' post' Hocc'. rewrite length_take, Nat.min_l by done.
      destruct (decide (j ≤ length pre')); [done|].
      pose proof (Hocc _ _ _ Hocc') as H. rewrite Hfirst in H by lia. done.
    + unfold matchOf. rewrite length_take, Nat.min_l by done. f_equal.
      apply take_suffix. rewrite Hd. by rewrite !app_assoc.
  - intros (pre & g & post & [Hocc' Hfirst] & ->).
    assert (length pre ≤ length s) as Hlen.
    { destruct Hocc' as (-> & _). rewrite length_app. lia. }
    exists (length pre), [g], post. split; [done|].
    split; [by apply Hocc|]. split.
    + intros j' Hj'.
      destruct (run re (reverse (take j' s) ++ []) (drop j' s))
        as [[caps out]|] eqn:E; [|done].
      apply Hrun in E as (g' & Hd & Hg' & Hc' & -> & Hl').
      specialize (Hfirst (take j' s) g' out).
      rewrite length_take, Nat.min_l in Hfirst by lia.
      exfalso. apply (Nat.lt_irrefl j').
      eapply Nat.lt_le_trans; [done|]. apply Hfirst.
      split; [by rewrite <- Hd, take_drop|]. do 2 (split; [done|]).
      intros Hlone. rewrite app_nil_r, head_reverse in Hl'. by apply Hl'.
    + destruct Hocc' as (-> & _). unfold matchOf. f_equal. rewrite drop_app_length.
      symmetry. apply take_suffix. by rewrite !app_assoc.
Qed.

End InlineShapes.

(** X2. What the five inline patterns find in a text run: the first place
    where a text without the delimiter character, and not empty, stands
    between two delimiters. Bold takes doubled stars or doubled
    underscores and code takes backticks, whatever stands around them;
    italic takes a single star or underscore that has no further star or
    underscore next to it, before the opening one or after the closing
    one. The match array holds the delimited text as its only group and
    starts where the opening delimiter stands. *)
Theorem inline_trigger (s : jsstring) (m : RegExpMatchArray) :
  (re_match boldStarRe s = Some m ↔
   ∃ pre g post, firstOccurrence (js "**") (ch "*") false s pre g post ∧
                 m = matchOf (js "**") pre g) ∧
  (re_match boldUnderRe s = Some m ↔
   ∃ pre g post, firstOccurrence (js "__") (ch "_") false s pre g post ∧
                 m = matchOf (js "__") pre g) ∧
  (re_match italicStarRe s = Some m ↔
   ∃ pre g post, firstOccurrence (js "*") (ch "*") true s pre g post ∧
                 m = matchOf (js "*") pre g) ∧
  (re_match italicUnderRe s = Some m ↔
   ∃ pre g post, firstOccurrence (js "_") (ch "_") true s pre g post ∧
                 m = matchOf (js "_") pre g) ∧
  (re_match codeRe s = Some m ↔
   ∃ pre g post, firstOccurrence (js "`") (ch "`") false s pre g post ∧
                 m = matchOf (js "`") pre g).
Proof.
  split; [|split; [|split; [|split]]].
  - apply (re_match_first boldStarRe (js "**") (ch "*") false).
    intros pre rest caps out. unfold boldStarRe. rewrite run_bold. split.
    + intros (g & ? & ? & ? & ?). exists g. by do 4 (split; [done|]).
    + intros (g & ? & ? & ? & ? & _). by exists g.
  - apply (re_match_first boldUnderRe (js "__") (ch "_") false).
    intros pre rest caps out. unfold boldUnderRe. rewrite run_bold. split.
    + intros (g & ? & ? & ? & ?). exists g. by do 4 (split; [done|]).
    + intros (g & ? & ? & ? & ? & _). by exists g.
  - apply (re_match_first italicStarRe (js "*") (ch "*") true).
    intros pre rest caps out. unfold italicStarRe. rewrite run_italic. split.
    + intros (g & ? & ? & ? & ? & ? & ?). exists g. by do 4 (split; [done|]).
    + intros (g & ? & ? & ? & ? & H). destruct (H eq_refl). by exists g.
  - apply (re_match_first italicUnderRe (js "_") (ch "_") true).
    intros pre rest caps out. unfold italicUnderRe. rewrite run_italic. split.
    + intros (g & ? & ? & ? & ? & ? & ?). exists g. by do 4 (split; [done|]).
    + intros (g & ? & ? & ? & ? & H). destruct (H eq_refl). by exists g.
  - apply (re_match_first codeRe (js "`") (ch "`") false).
    intros pre rest caps out. unfold codeRe. rewrite run_code. split.
    + intros (g & ? & ? & ? & ?). exists g. by do 4 (split; [done|]).
    + intros (g & ? & ? & ? & ? & _). by exists g.
Qed.

(** ** A bold span that is being typed *)

Section HalfTyped.

Lemma split_at_first {A} (c : A) (l1 r1 l2 r2 : list A) :
  c ∉ l2 → l1 ++ c :: r1 = l2 ++ c :: r2 →
  (l1 = l2 ∧ r1 = r2) ∨ (∃ x, l1 = l2 ++ c :: x ∧ r2 = x ++ c :: r1).
Proof.
  revert l1. induction l2 as [|y l2 IH]; intros l1 Hc H.
  - destruct l1 as [|z l1]; simplify_eq/=; [by left|]. right. by exists l1.
  - apply not_elem_of_cons in Hc as [Hy Hc].
    destruct l1 as [|z l1]; [simplify_eq/=|]. injection H as -> H.
    destruct (IH l1 Hc H) as [[-> ->]|(x & -> & ->)]; [by left|]. right. by exists x.
Qed.

Lemma half_typed c bold italic pre g :
  bold = [One (CChar c); One (CChar c); Rep true (CNot [c]) 1 None;
          One (CChar c); One (CChar c)] →
  italic = [NotBehind (CChar c); One (CChar c); Rep true (CNot [c]) 1 None;
            One (CChar c); NotAhead (CChar c)] →
  c ∉ pre → c ∉ g →
  re_match bold (pre ++ [c; c] ++ g ++ [c]) = None ∧
  re_match italic (pre ++ [c; c] ++ g ++ [c]) = None.
Proof.
  intros -> -> Hpre Hg.
  assert (∀ x y : jsstring, x ++ c :: y ≠ []) as Hne by (by intros [|??] ?).
  assert (∀ l1 r1, l1 ++ c :: r1 = g ++ [c] → l1 = g ∧ r1 = []) as Hlast.
  { intros l1 r1 H. change (g ++ [c]) with (g ++ c :: []) in H.
    apply (split_at_first _ _ _ _ _ Hg) in H as [[-> ->]|(x & _ & H)]; [done|].
    symmetry in H. by apply Hne in H. }
  split.
  - destruct (re_match _ _) as [m|] eqn:E; [exfalso|done].
    apply (re_match_first _ [c; c] c false) in E
      as (pre' & g' & post' & [(Hs & Hg' & Hc' & _) _] & _).
    2:{ intros. rewrite run_bold. split.
        - intros (g0 & ? & ? & ? & ?). exists g0. by do 4 (split; [done|]).
        - intros (g0 & ? & ? & ? & ? & _). by exists g0. }
    simpl in Hs. symmetry in Hs.
    apply (split_at_first _ _ _ _ _ Hpre) in Hs as [[-> Hs]|(x & -> & Hs)].
    + injection Hs as Hs. by apply Hlast in Hs as [_ ?].
    + destruct x as [|y x]; simpl in Hs.
      * injection Hs as Hs. symmetry in Hs.
        apply (Hlast []) in Hs as [_ Hs]. by apply Hne in Hs.
      * injection Hs as _ Hs. symmetry in Hs. by apply Hlast in Hs as [_ ?].
  - destruct (re_match _ _) as [m|] eqn:E; [exfalso|done].
    apply (re_match_first _ [c] c true) in E
      as (pre' & g' & post' & [(Hs & Hg' & Hc' & Hl) _] & _).
    2:{ intros. rewrite run_italic. split.
        - intros (g0 & ? & ? & ? & ? & ? & ?). exists g0. by do 4 (split; [done|]).
        - intros (g0 & ? & ? & ? & ? & Hx). destruct (Hx eq_refl). by exists g0. }
    destruct (Hl eq_refl) as [Hbehind Hahead].
    simpl in Hs. symmetry in Hs.
    apply (split_at_first _ _ _ _ _ Hpre) in Hs as [[-> Hs]|(x & -> & Hs)].
    + destruct g' as [|y g']; [done|]. injection Hs as -> _. set_solver.
    + destruct x as [|y x]; simpl in Hs.
      * by rewrite last_snoc in Hbehind.
      * injection Hs as _ Hs. symmetry in Hs. apply Hlast in Hs as [_ Hs].
        by destruct g'.
Qed.

End HalfTyped.

(** X3. A bold span can be typed to its end: when the text run holds the
    opening two stars, a text without stars and one closing star, with no
    star before them, neither the bold pattern nor the italic pattern
    matches, so the first closing star does not turn the span into
    italic. The same holds with underscores. *)
Theorem half_typed_bold (c : char) (bold italic : regex) (pre g : jsstring) :
  (c, bold, italic) ∈ [(ch "*", boldStarRe, italicStarRe);
                       (ch "_", boldUnderRe, italicUnderRe)] →
  c ∉ pre → c ∉ g →
  re_match bold (pre ++ [c; c] ++ g ++ [c]) = None ∧
  re_match italic (pre ++ [c; c] ++ g ++ [c]) = None.
Proof.
  intros [[= -> -> ->]|[[= -> -> ->]|?%elem_of_nil]%elem_of_cons]%elem_of_cons;
    [| |done]; by apply half_typed.
Qed.

Lemma half_typed_bold_witness :
  re_match boldStarRe (js "a **b*") = None ∧ re_match italicStarRe (js "a **b*") = None.
Proof.
  apply (half_typed_bold (ch "*") boldStarRe italicStarRe (js "a ") (js "b")).
  - apply list_elem_of_here.
  - apply (bool_decide_unpack _). by vm_compute.
  - apply (bool_decide_unpack _). by vm_compute.
Defined.

(** ** The list and blockquote patterns, both ways *)

Section MarkerPatterns.

Lemma drop_span_spaces rest : drop (span CSpace None rest) rest = dropSpaces rest.
Proof.
  induction rest as [|c rest IH]; simpl; [done|].
  by destruct (isSpace c).
Qed.

Lemma run_marker_tail pre rest caps out :
  run [Rep false CSpace 0 None; Rep true CDot 0 None; Eol] pre rest = Some (caps, out) ↔
  Forall notLineTerminator (dropSpaces rest) ∧ caps = [dropSpaces rest] ∧ out = [].
Proof.
  change (run [Rep false CSpace 0 None; Rep true CDot 0 None; Eol] pre rest)
    with (backtrack 0 (span CSpace None rest) (λ j,
            '(caps, out) ← run [Rep true CDot 0 None; Eol]
                               (reverse (take j rest) ++ pre) (drop j rest);
            Some (caps, out))).
  rewrite <- drop_span_spaces. split.
  - intros H. apply backtrack_Some in H as (j & Hj & H & Hfirst).
    destruct (run _ _ (drop j rest)) as [[caps' out']|] eqn:E; [|done].
    injection H as -> ->.
    apply run_dot_end_inv in E as (_ & Hf & -> & ->).
    destruct (decide (j = span CSpace None rest)) as [->|Hne]; [done|].
    specialize (Hfirst (span CSpace None rest) ltac:(lia)). cbv beta in Hfirst.
    rewrite run_dot_end in Hfirst; [done|lia|].
    replace (span CSpace None rest) with (j + (span CSpace None rest - j)) by lia.
    rewrite <- drop_drop. by apply Forall_drop.
  - intros (Hf & -> & ->). apply backtrack_top; [lia|].
    by rewrite run_dot_end by (done || lia).
Qed.

Lemma set_match cs c : cls_match (CSet cs) c = true ↔ c ∈ cs.
Proof.
  simpl. rewrite existsb_exists. split.
  - intros (x & Hx & ->%N.eqb_eq). by apply list_elem_of_In.
  - intros Hc. exists c. split; [by apply list_elem_of_In|apply N.eqb_refl].
Qed.

Lemma re_match_marker p s m :
  re_match [Bol; One p; Rep false CSpace 0 None; Rep true CDot 0 None; Eol] s = Some m ↔
  ∃ c rest, s = c :: rest ∧ cls_match p c = true ∧
            Forall notLineTerminator (dropSpaces rest) ∧
            m = {| m_full := s; m_groups := [dropSpaces rest]; m_index := 0 |}.
Proof.
  rewrite re_match_bol.
  change (run [One p; Rep false CSpace 0 None; Rep true CDot 0 None; Eol] [] s)
    with (match s with
          | c :: rest' =>
              if cls_match p c
              then run [Rep false CSpace 0 None; Rep true CDot 0 None; Eol] [c] rest'
              else None
          | [] => None
          end).
  destruct s as [|c rest].
  { split; [done|]. by intros (? & ? & ? & _). }
  destruct (cls_match p c) eqn:Hc.
  2:{ split; [done|]. intros (? & ? & [= <- <-] & ? & _). congruence. }
  destruct (run _ [c] rest) as [[caps out]|] eqn:E.
  - apply run_marker_tail in E as (Hf & -> & ->). simpl. rewrite firstn_all. split.
    + intros [= <-]. by exists c, rest.
    + by intros (? & ? & [= <- <-] & _ & _ & ->).
  - split; [done|]. intros (? & ? & [= <- <-] & _ & Hf & _). exfalso.
    assert (run [Rep false CSpace 0 None; Rep true CDot 0 None; Eol] [c] rest =
            Some ([dropSpaces rest], [])) as E' by by apply run_marker_tail.
    congruence.
Qed.

End MarkerPatterns.

(** X1. What the list and blockquote patterns accept: a text that starts with
    the marker, one of [-], [*], [+] for a list and [>] for a blockquote,
    and has no line terminator after the white space that follows the
    marker. The captured text is the text after the marker without its
    leading white space; the white space at its end stays. *)
Theorem marker_trigger (s : jsstring) (m : RegExpMatchArray) :
  (re_match listRe s = Some m ↔
   ∃ c rest, s = c :: rest ∧ c ∈ [ch "-"; ch "*"; ch "+"] ∧
             Forall notLineTerminator (dropSpaces rest) ∧
             m = {| m_full := s; m_groups := [dropSpaces rest]; m_index := 0 |}) ∧
  (re_match blockquoteRe s = Some m ↔
   ∃ rest, s = ch ">" :: rest ∧
           Forall notLineTerminator (dropSpaces rest) ∧
           m = {| m_full := s; m_groups := [dropSpaces rest]; m_index := 0 |}).
Proof.
  unfold listRe, blockquoteRe. rewrite !re_match_marker. split.
  - split; intros (c & rest & ? & Hc & ?); exists c, rest;
      (split; [done|]); (split; [by apply set_match|done]).
  - split.
    + intros (c & rest & -> & Hc%N.eqb_eq & ?). subst c. by exists rest.
    + intros (rest & -> & ?). exists (ch ">"), rest. split; [done|].
      split; [apply N.eqb_refl|done].
Qed.

(** ** The placeholder *)

Section Placeholder.

Lemma dropSpaces_head s :
  dropSpaces s = [] ∨ ∃ c r, dropSpaces s = c :: r ∧ isSpace c = false.
Proof.
  induction s as [|c s IH]; simpl; [by left|].
  destruct (isSpace c) eqn:E; [done|]. right. by exists c, s.
Qed.

Lemma dropSpaces_nil s : dropSpaces s = [] ↔ Forall whiteSpace s.
Proof.
  induction s as [|c s IH]; simpl; [done|]. unfold whiteSpace at 1.
  destruct (isSpace c) eqn:E.
  - rewrite IH. split; [by constructor|by inversion 1].
  - split; [done|]. inversion 1; simplify_eq. unfold whiteSpace in *. congruence.
Qed.

(** [s.trim()] is empty exactly when [s] is white space only. *)
Lemma trim_blank s : truthy (trim s) = false ↔ Forall whiteSpace s.
Proof.
  unfold trim. rewrite <- dropSpaces_nil.
  destruct (dropSpaces_head s) as [->|(c & r & -> & Hc)]; [done|].
  split; [|done]. intros H. exfalso.
  assert (reverse (dropSpaces (reverse (c :: r))) = []) as E
    by by destruct (reverse _).
  apply (f_equal reverse) in E. rewrite reverse_involutive in E. simpl in E.
  apply dropSpaces_nil in E. rewrite Forall_reverse in E.
  inversion E; simplify_eq. unfold whiteSpace in *. congruence.
Qed.

Lemma handlePlaceholder_run w :
  handlePlaceholder w = (Ok (), set_classEmpty (editorIsBlank w) w).
Proof.
  unfold handlePlaceholder, showPlaceholder, hidePlaceholder, bind, get, modify.
  by destruct (editorIsBlank w) eqn:E; rewrite ?E.
Qed.

Lemma debouncedSave_run w : debouncedSave w = (Ok (), rescheduled w).
Proof.
  unfold debouncedSave, rescheduled, bind, get, clearTimeout, setTimeout, modify, ret.
  destruct w as [? ? ? ? ? ? [[|k]|] ? ?]; done.
Qed.

End Placeholder.

(** ** One input event *)

Section InputEvent.

Lemma getNode_missing w n : nodes w !! n = None → getNode n w = (Throw TypeError, w).
Proof. intros H. unfold getNode, bind, get. by rewrite H. Qed.

Lemma bind_throw {A B} (m : M A) (k : A → M B) w x w1 :
  m w = (Throw x, w1) → bind m k w = (Throw x, w1).
Proof. intros H. unfold bind. by rewrite H. Qed.

(** In any state the formatting step finds nothing to do, or stops at a
    caret that names no node, or is one call of a rewriter. *)
Lemma processLive_cases e w :
  processLiveFormatting e w = (Ok (), w) ∨
  processLiveFormatting e w = (Throw TypeError, w) ∨
  ∃ t after m, processLiveFormatting e w = applyTransform t after m w.
Proof.
  assert ((processSpaceTriggeredFormatting w = (Ok (), w) ∧
           processInlineFormatting w = (Ok (), w)) ∨
          (processSpaceTriggeredFormatting w = (Throw TypeError, w) ∧
           processInlineFormatting w = (Throw TypeError, w)) ∨
          ∃ r d q cs, selection w = Some (Some r) ∧
            nodes w !! startContainer r = Some (mkNode (TextNode d) q cs))
    as [[H1 H2]|[[H1 H2]|(r & d & q & cs & Hs & Hn)]].
  { destruct (selection w) as [[r|]|] eqn:Hs;
      [|left; apply process_no_range; by auto..].
    destruct (nodes w !! startContainer r) as [[k q cs]|] eqn:Hn.
    - destruct k as [|tag|d].
      + left. by apply (process_not_text w r _ Hs Hn).
      + left. by apply (process_not_text w r _ Hs Hn).
      + right. right. by exists r, d, q, cs.
    - right. left.
      unfold processSpaceTriggeredFormatting, processInlineFormatting.
      rewrite !(bind_run _ _ _ (selection w) w) by done. rewrite Hs.
      by rewrite !(bind_throw _ _ _ _ _ (getNode_missing _ _ Hn)). }
  - left. by apply processLive_idle.
  - unfold processLiveFormatting.
    destruct (isInsertText e && _); [by right; left|].
    destruct (isInsertText e); [by right; left|by left].
  - rewrite (processLive_detect e w r d q cs Hs Hn).
    destruct (detect e d (startOffset r)) as [m|]; [|by left].
    right. right. by eexists _, _, _.
Qed.

(** What the formatting step does to the flag and the timers. *)
Lemma processLive_effect e w :
  env (processLiveFormatting e w).2 = env w ∧
  (processLiveFormatting e w = (Ok (), w) ∨
   processLiveFormatting e w = (Throw TypeError, w) ∨
   (isProcessing (processLiveFormatting e w).2 = true ∧
    clock (processLiveFormatting e w).2 =
      match (processLiveFormatting e w).1 with
      | Ok _ => scheduled w
      | Throw _ => clock w
      end)).
Proof.
  destruct (processLive_cases e w) as [H|[H|(t & after & m & H)]]; rewrite H.
  - split; [done|by left].
  - split; [done|by right; left].
  - destruct (applyTransform_effect t after m w) as (Hf & He & Hc).
    split; [done|]. right. right. by rewrite <- H in *.
Qed.

Lemma onInput_run e w :
  isProcessing w = false →
  onInput e w =
  match processLiveFormatting e (set_classEmpty (editorIsBlank w) w) with
  | (Ok _, w2) => (Ok (), rescheduled w2)
  | (Throw x, w2) => (Throw x, w2)
  end.
Proof.
  intros Hp. unfold onInput.
  rewrite (bind_run _ _ _ w w) by done. rewrite Hp. cbn [negb].
  rewrite (bind_run _ _ _ _ _ (handlePlaceholder_run w)).
  unfold bind at 1.
  destruct (processLiveFormatting e _) as [[[]|x] w2]; [|done].
  apply debouncedSave_run.
Qed.

Lemma onInput_ignored e w : isProcessing w = true → onInput e w = (Ok (), w).
Proof.
  intros Hp. unfold onInput. rewrite (bind_run _ _ _ w w) by done. by rewrite Hp.
Qed.

End InputEvent.

(** X4. The placeholder after an input event. When the event is not ignored,
    the class [empty] is on the editing surface afterwards exactly when
    the text of the surface, as the event found it, was white space only:
    the class is set before the formatting runs, and neither the
    formatting nor the scheduling of the save touches it. *)
Theorem input_placeholder (e : InputEvent) (w : Editor) :
  isProcessing w = false →
  classEmpty (onInput e w).2 = editorIsBlank w ∧
  (editorIsBlank w = true ↔ Forall whiteSpace (textContent w (editor w))).
Proof.
  intros Hp. split.
  - rewrite (onInput_run e w Hp).
    destruct (processLive_effect e (set_classEmpty (editorIsBlank w) w)) as [He _].
    destruct (processLiveFormatting e _) as [[[]|x] w2]; simpl in *;
      unfold env in He; by simplify_eq.
  - unfold editorIsBlank. rewrite <- trim_blank.
    by destruct (truthy _).
Qed.

Lemma input_placeholder_witness :
  classEmpty (onInput spaceEvent (page (js " ") 1)).2 = true.
Proof.
  exact (proj1 (input_placeholder spaceEvent (page (js " ") 1) eq_refl)).
Defined.

(** X5. An input event that is not an insertion of text, a deletion for one,
    never reformats: when it is not ignored, it sets the placeholder and
    restarts the save timer, and the tree, the selection and the flag are
    as they were. *)
Theorem input_without_insertion (e : InputEvent) (w : Editor) :
  inputType e ≠ "insertText" →
  isProcessing w = false →
  onInput e w = (Ok (), rescheduled (set_classEmpty (editorIsBlank w) w)) ∧
  nodes (onInput e w).2 = nodes w ∧
  selection (onInput e w).2 = selection w ∧
  isProcessing (onInput e w).2 = false.
Proof.
  intros He Hp. rewrite (onInput_run e w Hp).
  unfold processLiveFormatting, isInsertText. rewrite bool_decide_false by done.
  simpl. by destruct w as [? ? ? ? ? ? [[|k]|] ? ?].
Qed.

Lemma input_without_insertion_witness :
  let e := mkInputEvent "deleteContentBackward" None in
  let w := page (js "**a**") 5 in
  nodes (onInput e w).2 = nodes w ∧
  selection (onInput e w).2 = selection w ∧
  isProcessing (onInput e w).2 = false.
Proof.
  apply (input_without_insertion (mkInputEvent "deleteContentBackward" None)
           (page (js "**a**") 5)); [by vm_compute|reflexivity].
Defined.

(** ** Timers *)

Section Timers.

Implicit Types (w : Editor).

Lemma TimersOk_ext w w' :
  debounceTimer w' = debounceTimer w → timers w' = timers w →
  nextTimer w' = nextTimer w → TimersOk w → TimersOk w'.
Proof.
  intros Hd Ht Hn [H1 H2 H3 H4 H5].
  split; rewrite ?Hd, ?Ht, ?Hn; done.
Qed.

Lemma TimersOk_filter w w' (P : nat * (TimerTask * nat) → Prop)
    `{∀ t, Decision (P t)} :
  debounceTimer w' = debounceTimer w → timers w' = filter P (timers w) →
  nextTimer w' = nextTimer w → TimersOk w → TimersOk w'.
Proof.
  intros Hd Ht Hn [H1 H2 H3 H4 H5].
  split; rewrite ?Hd, ?Ht, ?Hn; try done.
  - intros t [_ ?]%list_elem_of_filter. by apply H2.
  - eapply sublist_NoDup; [done|]. apply fmap_sublist, sublist_filter.
  - intros id Hid. destruct (H4 id Hid) as [? Hs]. split; [done|].
    intros t [_ ?]%list_elem_of_filter. by apply Hs.
  - intros t [_ ?]%list_elem_of_filter. by apply H5.
Qed.

Lemma TimersOk_scheduled w w' :
  debounceTimer w' = debounceTimer w → clock w' = scheduled w →
  TimersOk w → TimersOk w'.
Proof.
  intros Hd Hc [H1 H2 H3 H4 H5]. unfold clock, scheduled in Hc.
  injection Hc as Ht Hn.
  split; rewrite ?Hd, ?Ht, ?Hn.
  - lia.
  - intros t [Ht'| ->%list_elem_of_singleton]%elem_of_app; simpl; [|lia].
    specialize (H2 t Ht'). lia.
  - rewrite fmap_app. apply NoDup_app. split; [done|]. split; [|apply NoDup_singleton].
    intros id (t & Heq & Ht')%list_elem_of_fmap Hin. simpl in Hin.
    apply list_elem_of_singleton in Hin. specialize (H2 t Ht'). lia.
  - intros id Hid. destruct (H4 id Hid) as [? Hs]. split; [lia|].
    intros t [Ht'| ->%list_elem_of_singleton]%elem_of_app; simpl; [by apply Hs|lia].
  - intros t [Ht'| ->%list_elem_of_singleton]%elem_of_app; simpl; [by apply H5|done].
Qed.

Lemma TimersOk_rescheduled w : TimersOk w → TimersOk (rescheduled w).
Proof.
  intros [H1 H2 H3 H4 H5]. unfold rescheduled.
  set (pending := match debounceTimer w with
                  | Some (S _ as t) => filter (λ x : nat * (TimerTask * nat), x.1 ≠ t) (timers w)
                  | _ => timers w
                  end).
  assert (∀ t, t ∈ pending → t ∈ timers w) as Hsub.
  { subst pending. destruct (debounceTimer w) as [[|k]|]; [done| |done].
    by intros t [_ ?]%list_elem_of_filter. }
  assert (∀ t, t ∈ pending → t.2.1 ≠ AutoSave) as Hnone.
  { intros t Ht Hs. destruct (H5 t (Hsub _ Ht) Hs) as [Hd _].
    specialize (H2 t (Hsub _ Ht)). subst pending. rewrite Hd in Ht.
    destruct (t.1) as [|k] eqn:E; [lia|].
    apply list_elem_of_filter in Ht as [Hne _]. congruence. }
  assert (NoDup pending.*1) as Hnd.
  { subst pending. destruct (debounceTimer w) as [[|k]|]; [done| |done].
    eapply sublist_NoDup; [done|]. apply fmap_sublist, sublist_filter. }
  split; simpl.
  - lia.
  - intros t [Ht| ->%list_elem_of_singleton]%elem_of_app; simpl; [|lia].
    specialize (H2 t (Hsub _ Ht)). lia.
  - rewrite fmap_app. apply NoDup_app. split; [done|]. split; [|apply NoDup_singleton].
    intros id (t & Heq & Ht)%list_elem_of_fmap Hin. simpl in Hin.
    apply list_elem_of_singleton in Hin. specialize (H2 t (Hsub _ Ht)). lia.
  - intros id [= <-]. split; [lia|].
    intros t [Ht| ->%list_elem_of_singleton]%elem_of_app; [|done].
    specialize (H2 t (Hsub _ Ht)). lia.
  - intros t [Ht| ->%list_elem_of_singleton]%elem_of_app; simpl.
    + intros Hs. by destruct (Hnone t Ht).
    + done.
Qed.

Lemma onTimeout_run id w :
  onTimeout id w =
  match list_find (λ t : nat * (TimerTask * nat), t.1 = id) (timers w) with
  | Some (_, (_, (ClearProcessing, _))) =>
      (Ok (), set_isProcessing false
                (set_timers (filter (λ t, t.1 ≠ id) (timers w)) (nextTimer w) w))
  | Some (_, (_, (AutoSave, _))) =>
      (Ok (), set_timers (filter (λ t, t.1 ≠ id) (timers w)) (nextTimer w) w)
  | None => (Ok (), w)
  end.
Proof.
  unfold onTimeout. rewrite (bind_run _ _ _ w w) by done.
  destruct (list_find _ _) as [[? [? [[] ?]]]|]; done.
Qed.

Lemma TimersOk_onTimeout id w : TimersOk w → TimersOk (onTimeout id w).2.
Proof.
  intros Hok. rewrite onTimeout_run.
  destruct (list_find _ _) as [[? [? [[] ?]]]|]; simpl; [| |done];
    by eapply (TimersOk_filter w _ (λ t, t.1 ≠ id)).
Qed.

Lemma TimersOk_processLive e w :
  TimersOk w → TimersOk (processLiveFormatting e w).2.
Proof.
  intros Hok. destruct (processLive_effect e w) as [He [H|[H|[_ Hc]]]];
    [by rewrite H..|].
  assert (debounceTimer (processLiveFormatting e w).2 = debounceTimer w) as Hd.
  { unfold env in He. by simplify_eq. }
  destruct ((processLiveFormatting e w).1).
  - by apply (TimersOk_scheduled w).
  - unfold clock in Hc. injection Hc as Ht Hn. by apply (TimersOk_ext w).
Qed.

Lemma TimersOk_onInput e w : TimersOk w → TimersOk (onInput e w).2.
Proof.
  intros Hok. destruct (isProcessing w) eqn:Hp.
  - by rewrite onInput_ignored.
  - rewrite onInput_run by done.
    pose proof (TimersOk_processLive e (set_classEmpty (editorIsBlank w) w)
                  (TimersOk_ext w (set_classEmpty (editorIsBlank w) w)
                     eq_refl eq_refl eq_refl Hok)) as H.
    destruct (processLiveFormatting e _) as [[[]|x] w2]; simpl in *; [|done].
    by apply TimersOk_rescheduled.
Qed.

Lemma keeps_clear {X} (f : Editor → X) :
  (∀ g w, f (set_nodes g w) = f w) →
  (∀ s w, f (set_selection s w) = f w) →
  (∀ b w, f (set_classEmpty b w) = f w) →
  keeps f clear.
Proof.
  intros Hn Hs Hc. unfold clear, clearInnerHTML, showPlaceholder.
  apply keeps_bind; [apply keeps_get|]. intros w0.
  apply keeps_bind.
  - apply keeps_bind; [apply keeps_get|]. intros w1.
    apply keeps_bind; [apply keeps_getNode|]. intros node.
    apply keeps_bind; [apply keeps_forEach; intros; by apply keeps_setParent|].
    intros _. apply keeps_bind; [by apply keeps_setChildren|].
    intros _. by apply keeps_set_selection.
  - intros _. apply keeps_bind; [apply keeps_get|]. intros w1.
    destruct (editorIsBlank w1); [|apply keeps_ret]. intros w. apply Hc.
Qed.

Lemma TimersOk_pageStep pe w : TimersOk w → TimersOk (pageStep pe w).2.
Proof.
  intros Hok. destruct pe as [[e|id]| | | |g s]; simpl.
  - by apply TimersOk_onInput.
  - by apply TimersOk_onTimeout.
  - by apply (TimersOk_ext w).
  - unfold showPlaceholder, bind, get, modify.
    destruct (editorIsBlank w); by apply (TimersOk_ext w).
  - pose proof (keeps_clear (λ w, (debounceTimer w, timers w, nextTimer w))
                  ltac:(done) ltac:(done) ltac:(done) w) as H.
    simpl in H. injection H as Hd Ht Hn. by apply (TimersOk_ext w).
  - by apply (TimersOk_ext w).
Qed.

Lemma one_per_id (l : list (nat * (TimerTask * nat))) (P : nat * (TimerTask * nat) → Prop)
    `{∀ t, Decision (P t)} id :
  NoDup l.*1 → (∀ t, t ∈ l → P t → t.1 = id) → length (filter P l) ≤ 1.
Proof.
  induction l as [|t l IH]; intros Hnd Hid; [simpl; lia|].
  rewrite fmap_cons in Hnd. apply NoDup_cons in Hnd as [Hnot Hnd].
  destruct (decide (P t)) as [Ht|Ht].
  - rewrite filter_cons_True by done.
    assert (filter P l = []) as ->; [|simpl; lia].
    destruct (filter P l) as [|t' l'] eqn:E; [done|]. exfalso.
    assert (t' ∈ filter P l) as [Ht' Hin]%list_elem_of_filter by (rewrite E; left).
    apply Hnot. rewrite (Hid t ltac:(left) Ht), <- (Hid t' ltac:(by right) Ht').
    by apply list_elem_of_fmap_2.
  - rewrite filter_cons_False by done. apply IH; [done|].
    intros t' ??. apply Hid; [by right|done].
Qed.

End Timers.

(** X6. The save timer is debounced. Whatever happens on the page (input
    events and timers that reach the editor, focus changes, calls of
    [clear], edits of the content, listeners that throw), the timers stay
    as the page hands them out and at most one auto-save is pending: the
    one [debounceTimer] names. *)
Theorem one_pending_save (pes : list PageEvent) (w : Editor) :
  TimersOk w →
  TimersOk (runPage pes w) ∧
  length (filter (λ t, isAutoSave t = true) (timers (runPage pes w))) ≤ 1.
Proof.
  intros Hok.
  assert (TimersOk (runPage pes w)) as Hok'.
  { revert w Hok. induction pes as [|pe pes IH]; intros w Hok; [done|].
    simpl. by apply IH, TimersOk_pageStep. }
  split; [done|]. destruct Hok' as [_ _ Hnd _ Hsave].
  destruct (debounceTimer (runPage pes w)) as [id|] eqn:Hd.
  - apply (one_per_id _ _ id); [done|].
    intros t Ht Hs. destruct (Hsave t Ht) as [[= ->] _]; [|done].
    unfold isAutoSave in Hs. by destruct (t.2.1).
  - apply (one_per_id _ _ 0); [done|].
    intros t Ht Hs. destruct (Hsave t Ht) as [[=] _].
    unfold isAutoSave in Hs. by destruct (t.2.1).
Qed.

Lemma one_pending_save_witness :
  let w := runPage [Deliver (EvInput spaceEvent); Deliver (EvInput spaceEvent);
                    Deliver (EvTimeout 1); Deliver (EvInput spaceEvent)]
                   (page (js "- a ") 4) in
  TimersOk w ∧ length (filter (λ t, isAutoSave t = true) (timers w)) ≤ 1.
Proof.
  apply (one_pending_save _ (page (js "- a ") 4)).
  split; simpl; [lia|by intros ? ?%elem_of_nil|apply NoDup_nil_2|done|
                 by intros ? ?%elem_of_nil].
Defined.

(** ** The flag and its timer *)

Section Release.

Implicit Types (w : Editor).

Lemma same_id (l : list (nat * (TimerTask * nat))) t1 t2 :
  NoDup l.*1 → t1 ∈ l → t2 ∈ l → t1.1 = t2.1 → t1 = t2.
Proof.
  induction l as [|t l IH]; intros Hnd H1 H2 Heq; [by apply elem_of_nil in H1|].
  rewrite fmap_cons in Hnd. apply NoDup_cons in Hnd as [Hnot Hnd].
  apply elem_of_cons in H1 as [->|H1]; apply elem_of_cons in H2 as [->|H2].
  - done.
  - destruct Hnot. rewrite Heq. by apply list_elem_of_fmap_2.
  - destruct Hnot. rewrite <- Heq. by apply list_elem_of_fmap_2.
  - by apply IH.
Qed.

Lemma find_timer w t :
  NoDup (timers w).*1 → t ∈ timers w →
  ∃ i, list_find (λ x : nat * (TimerTask * nat), x.1 = t.1) (timers w) = Some (i, t).
Proof.
  intros Hnd Ht.
  destruct (list_find (λ x : nat * (TimerTask * nat), x.1 = t.1) (timers w))
    as [[i x]|] eqn:E.
  - apply list_find_Some in E as (Hx & Heq & _).
    apply list_elem_of_lookup_2 in Hx.
    rewrite (same_id _ x t Hnd Hx Ht Heq). by exists i.
  - apply list_find_None in E. rewrite Forall_forall in E. by destruct (E t Ht).
Qed.

Lemma Covered_onTimeout id w : Covered w → Covered (onTimeout id w).2.
Proof.
  intros [Hok Hflag]. split; [by apply TimersOk_onTimeout|].
  rewrite onTimeout_run.
  destruct (list_find _ _) as [[i [id' [[] d]]]|] eqn:E; simpl; [done| |done].
  apply list_find_Some in E as (Hx & Heq & _). simpl in Heq. subst id'.
  apply list_elem_of_lookup_2 in Hx.
  intros Hp. destruct (Hflag Hp) as (id0 & Hin). exists id0.
  apply list_elem_of_filter. split; [|done]. simpl. intros ->.
  by pose proof (same_id _ _ _ (ok_nodup _ Hok) Hin Hx eq_refl).
Qed.

Lemma Covered_onInput e w :
  Covered w → (onInput e w).1 = Ok () → Covered (onInput e w).2.
Proof.
  intros [Hok Hflag] Hrun. split; [by apply TimersOk_onInput|].
  destruct (isProcessing w) eqn:Hp.
  { rewrite onInput_ignored by done. simpl. intros _. by apply Hflag. }
  rewrite onInput_run in Hrun |- * by done.
  set (w1 := set_classEmpty (editorIsBlank w) w) in *.
  destruct (processLive_effect e w1) as [He [H|[H|[Hf Hc]]]].
  - rewrite H. simpl. by rewrite Hp.
  - by rewrite H in Hrun.
  - destruct (processLiveFormatting e w1) as [[[]|x] w2]; simpl in *; [|done].
    intros _. exists (nextTimer w).
    unfold clock, scheduled in Hc. injection Hc as Ht Hn.
    assert (debounceTimer w2 = debounceTimer w) as Hd.
    { unfold env in He. by simplify_eq. }
    apply elem_of_app. left. rewrite Hd, Ht.
    assert ((nextTimer w, (ClearProcessing, 10)) ∈
            timers w ++ [(nextTimer w, (ClearProcessing, 10))]) as Hin.
    { apply elem_of_app. right. apply list_elem_of_singleton. done. }
    destruct (debounceTimer w) as [[|k]|] eqn:Hdw; [done| |done].
    apply list_elem_of_filter. split; [|done]. simpl.
    destruct (ok_debounce _ Hok _ Hdw) as [? _]. lia.
Qed.

Lemma Covered_pageStep pe w :
  Covered w → (pageStep pe w).1 = Ok () → Covered (pageStep pe w).2.
Proof.
  intros Hc Hrun. destruct pe as [[e|id]| | | |g s]; simpl in *.
  - by apply Covered_onInput.
  - by apply Covered_onTimeout.
  - destruct Hc as [Hok Hflag]. split; [by apply (TimersOk_ext w)|done].
  - destruct Hc as [Hok Hflag]. unfold showPlaceholder, bind, get, modify.
    destruct (editorIsBlank w); (split; [by apply (TimersOk_ext w)|done]).
  - destruct Hc as [Hok Hflag].
    split; [by apply (TimersOk_pageStep Clear)|].
    pose proof (keeps_clear (λ w, (isProcessing w, timers w))
                  ltac:(done) ltac:(done) ltac:(done) w) as H.
    simpl in H. injection H as -> ->. done.
  - destruct Hc as [Hok Hflag]. split; [by apply (TimersOk_ext w)|done].
Qed.

End Release.

(** X8. The editor cannot stay closed to input. As long as no listener
    throws, in every state the page reaches in which input is being
    ignored, the timer that ends it is pending, and when that timer fires
    the flag is cleared. *)
Theorem flag_is_released (pes : list PageEvent) (w : Editor) :
  Covered w → quiet pes w = true →
  Covered (runPage pes w) ∧
  (isProcessing (runPage pes w) = true →
   ∃ id, (id, (ClearProcessing, 10)) ∈ timers (runPage pes w) ∧
         isProcessing (onTimeout id (runPage pes w)).2 = false).
Proof.
  intros Hc Hq.
  assert (Covered (runPage pes w)) as Hc'.
  { revert w Hc Hq. induction pes as [|pe pes IH]; intros w Hc Hq; [done|].
    simpl in *. destruct (pageStep pe w).1 as [[]|] eqn:E; [|done].
    apply IH; [|done]. by apply Covered_pageStep. }
  split; [done|]. intros Hp. destruct Hc' as [Hok Hflag].
  destruct (Hflag Hp) as (id & Hin). exists id. split; [done|].
  rewrite onTimeout_run.
  destruct (find_timer _ _ (ok_nodup _ Hok) Hin) as (i & Hfind).
  simpl in Hfind. by rewrite Hfind.
Qed.

Lemma flag_is_released_witness :
  let w := runPage [Deliver (EvInput spaceEvent); Blur] (page (js "- a ") 4) in
  isProcessing w = true ∧
  ∃ id, (id, (ClearProcessing, 10)) ∈ timers w ∧
        isProcessing (onTimeout id w).2 = false.
Proof.
  split; [vm_compute; reflexivity|].
  refine (proj2 (flag_is_released [Deliver (EvInput spaceEvent); Blur]
                   (page (js "- a ") 4) _ _) _);
    [|vm_compute; reflexivity..].
  split; [|done].
  split; simpl; [lia|by intros ? ?%elem_of_nil|apply NoDup_nil_2|done|
                 by intros ? ?%elem_of_nil].
Defined.

(** ** One rewriter call and its timer *)

Section Rounds.

Implicit Types (w : Editor).

Lemma filter_all {A} (P : A → Prop) `{∀ x, Decision (P x)} (l : list A) :
  Forall P l → filter P l = l.
Proof.
  induction 1 as [|x l Hx _ IH]; [done|]. by rewrite filter_cons_True, IH.
Qed.

Lemma filter_none {A} (P : A → Prop) `{∀ x, Decision (P x)} (l : list A) :
  Forall (λ x, ¬ P x) l → filter P l = [].
Proof.
  induction 1 as [|x l Hx _ IH]; [done|]. by rewrite filter_cons_False.
Qed.

Lemma applyTransform_detached w t T after m :
  nodes w !! t = Some T → parentNode T = None →
  ∃ w', applyTransform t after m w = (Ok (), w').
Proof.
  intros Ht Hp. destruct m; cbn [applyTransform].
  - destruct (simpleBlock_detached ("h" +:+ decimal level) w t T text after Ht Hp)
      as (w' & ? & _). by exists w'.
  - destruct (list_detached w t T text after Ht Hp) as (w' & ? & _). by exists w'.
  - destruct (simpleBlock_detached "blockquote" w t T text after Ht Hp)
      as (w' & ? & _). by exists w'.
  - destruct (inline_detached "strong" w t T m Ht Hp) as (w' & ? & _). by exists w'.
  - destruct (inline_detached "em" w t T m Ht Hp) as (w' & ? & _). by exists w'.
  - destruct (inline_detached "code" w t T m Ht Hp) as (w' & ? & _). by exists w'.
Qed.

Lemma processLive_returns e w :
  CaretOk w → ∃ w', processLiveFormatting e w = (Ok (), w').
Proof.
  intros Hok. destruct (selection w) as [[r|]|] eqn:Hs.
  2,3: exists w; apply processLive_idle; apply process_no_range; by auto.
  destruct (Hok r Hs) as ([k q cs] & Hn & Htext).
  destruct k as [|tag|d].
  1,2: exists w; apply processLive_idle; by apply (process_not_text w r _ Hs Hn).
  destruct (Htext d eq_refl) as [Hcs Hpar]. simpl in Hcs. subst cs.
  rewrite (processLive_detect e w r d q [] Hs Hn).
  destruct (detect e d (startOffset r)) as [m|]; [|by exists w].
  destruct q as [p|].
  - destruct (Hpar p eq_refl) as (tg & pp & l1 & l2 & Hp & H1 & H2).
    destruct (applyTransform_done w (startContainer r) p d tg pp l1 l2
                (substringFrom (startOffset r) d) m) as (w' & ? & ? & ? & ? & ? & _).
    { by split. }
    by exists w'.
  - by eapply applyTransform_detached.
Qed.

End Rounds.

(** X9. A rewriter call and its timer. The timer a rewriter registers has the
    id the page hands out next; when it fires, the flag is cleared, the
    pending timers are those from before the call, and the tree and the
    selection are as the rewriter left them. *)
Theorem transform_then_release (w w' : Editor) (t : NodeId) (after : jsstring)
    (m : TriggerMatch) :
  (∀ x, x ∈ timers w → x.1 < nextTimer w) →
  applyTransform t after m w = (Ok (), w') →
  isProcessing w' = true ∧
  onTimeout (nextTimer w) w' =
    (Ok (), set_isProcessing false (set_timers (timers w) (S (nextTimer w)) w')).
Proof.
  intros Hids Hrun. destruct (applyTransform_effect t after m w) as (Hf & _ & Hc).
  rewrite Hrun in Hf, Hc. simpl in Hf, Hc. split; [done|].
  unfold clock, scheduled in Hc. injection Hc as Ht Hn.
  assert (Forall (λ x : nat * (TimerTask * nat), x.1 ≠ nextTimer w) (timers w)) as Hall.
  { apply Forall_forall. intros x Hx. specialize (Hids x Hx). lia. }
  rewrite onTimeout_run, Ht, Hn.
  rewrite list_find_app_r by (by apply list_find_None). simpl.
  rewrite decide_True by done. simpl.
  rewrite filter_app, (filter_all _ _ Hall). simpl.
  rewrite filter_cons_False, filter_nil, app_nil_r by (simpl; auto). done.
Qed.

Lemma transform_then_release_witness :
  let w := page (js "**a**") 5 in
  let w' := (replaceWithBold 3%positive
               {| m_full := js "**a**"; m_groups := [js "a"]; m_index := 0 |} w).2 in
  isProcessing w' = true ∧
  onTimeout 1 w' = (Ok (), set_isProcessing false (set_timers [] 2 w')).
Proof.
  apply (transform_then_release (page (js "**a**") 5) _ 3%positive []
           (BoldMatch {| m_full := js "**a**"; m_groups := [js "a"]; m_index := 0 |})).
  - by intros x ?%elem_of_nil.
  - vm_compute. reflexivity.
Defined.

(** X7. Every accepted input event restarts the save timer. When the event
    is not ignored and its listener returns, the auto-save that was
    pending is cancelled and a new one, due in 500 ms, is the last timer
    registered; its id is new and is the value of [debounceTimer]. The
    timers that clear the flag are not touched. *)
Theorem input_restarts_save_timer (e : InputEvent) (w : Editor) :
  TimersOk w → isProcessing w = false → (onInput e w).1 = Ok () →
  ∃ id,
    debounceTimer (onInput e w).2 = Some id ∧
    last (timers (onInput e w).2) = Some (id, (AutoSave, 500)) ∧
    nextTimer w ≤ id ∧
    (∀ t, t ∈ timers w → t.2.1 = AutoSave → t ∉ timers (onInput e w).2) ∧
    (∀ t, t ∈ timers w → t.2.1 = ClearProcessing → t ∈ timers (onInput e w).2).
Proof.
  intros Hok Hp Hrun. rewrite onInput_run in Hrun |- * by done.
  set (w1 := set_classEmpty (editorIsBlank w) w) in *.
  assert (∃ w2, processLiveFormatting e w1 = (Ok (), w2) ∧
                debounceTimer w2 = debounceTimer w ∧ nextTimer w ≤ nextTimer w2 ∧
                (timers w2 = timers w ∨
                 timers w2 = timers w ++ [(nextTimer w, (ClearProcessing, 10))]))
    as (w2 & -> & Hd & Hn & Ht).
  { destruct (processLive_effect e w1) as [He [H|[H|[Hf Hc]]]].
    - exists w1. by rewrite H; auto.
    - by rewrite H in Hrun.
    - destruct (processLiveFormatting e w1) as [[[]|x] w2]; simpl in *; [|done].
      exists w2. unfold env in He. unfold clock, scheduled in Hc.
      injection He as _ _ _ Hd. injection Hc as Ht Hn. subst w1. simpl in *.
      split; [done|]. split; [done|]. split; [lia|by right]. }
  exists (nextTimer w2). simpl. rewrite last_snoc. do 3 (split; [done|]).
  assert (∀ t, t ∈ timers w → t ∈ timers w2) as Hsub.
  { intros t Hin. destruct Ht as [->| ->]; [done|]. apply elem_of_app. by left. }
  rewrite Hd. split.
  - intros t Hin Hs. destruct (ok_save _ Hok t Hin Hs) as [Hdw _].
    pose proof (ok_ids _ Hok t Hin) as Hid. rewrite Hdw.
    destruct (t.1) as [|k] eqn:E; [lia|].
    intros [[Hne _]%list_elem_of_filter|Heq%list_elem_of_singleton]%elem_of_app.
    + by simpl in Hne.
    + rewrite Heq in E. simpl in E. lia.
  - intros t Hin Hs. apply elem_of_app. left.
    destruct (debounceTimer w) as [[|k]|] eqn:Hdw; [by apply Hsub| |by apply Hsub].
    apply list_elem_of_filter. split; [|by apply Hsub].
    intros Heq. destruct (ok_debounce _ Hok _ Hdw) as [_ Hauto].
    specialize (Hauto t Hin Heq). congruence.
Qed.

Lemma input_restarts_save_timer_witness :
  let w := page (js "- a ") 4 in
  ∃ id,
    debounceTimer (onInput spaceEvent w).2 = Some id ∧
    last (timers (onInput spaceEvent w).2) = Some (id, (AutoSave, 500)) ∧
    nextTimer w ≤ id ∧
    (∀ t, t ∈ timers w → t.2.1 = AutoSave → t ∉ timers (onInput spaceEvent w).2) ∧
    (∀ t, t ∈ timers w → t.2.1 = ClearProcessing →
          t ∈ timers (onInput spaceEvent w).2).
Proof.
  apply (input_restarts_save_timer spaceEvent (page (js "- a ") 4)).
  - split; simpl; [lia|by intros ? ?%elem_of_nil|apply NoDup_nil_2|done|
                   by intros ? ?%elem_of_nil].
  - reflexivity.
  - vm_compute. reflexivity.
Defined.

(** X10. The input listener returns. When the caret, if there is one, is in a
    node of the tree, and a text run that holds it is childless and
    listed once by its parent, an element, the listener raises no
    exception, whatever the event and the text. *)
Theorem input_returns (e : InputEvent) (w : Editor) :
  CaretOk w → ∃ w', onInput e w = (Ok (), w').
Proof.
  intros Hok. destruct (isProcessing w) eqn:Hp.
  - exists w. by apply onInput_ignored.
  - rewrite onInput_run by done.
    destruct (processLive_returns e (set_classEmpty (editorIsBlank w) w) Hok)
      as (w2 & ->).
    by eexists.
Qed.

Lemma input_returns_witness :
  ∃ w', onInput spaceEvent (page (js "> quote ") 8) = (Ok (), w').
Proof.
  apply (input_returns spaceEvent (page (js "> quote ") 8)).
  intros r [= <-]. eexists. split; [reflexivity|].
  intros d _. split; [reflexivity|]. intros p [= <-].
  exists "div", (Some 1%positive), [], []. split; [reflexivity|].
  split; apply not_elem_of_nil.
Defined.

(** ** Clearing the editor *)

Section Clearing.

Implicit Types (w : Editor).

Lemma forEach_detach w cs :
  (∀ c, c ∈ cs → is_Some (nodes w !! c)) →
  ∃ h, forEach (setParent None) cs w = (Ok (), set_nodes (λ _, h) w) ∧
       (∀ c, c ∈ cs → ∃ C, nodes w !! c = Some C ∧
                           h !! c = Some (mkNode (kind C) None (childNodes C))) ∧
       (∀ n, n ∉ cs → h !! n = nodes w !! n).
Proof.
  revert w. induction cs as [|c cs IH]; intros w Hcs.
  - exists (nodes w). split; [by destruct w|]. split; [by intros ? ?%elem_of_nil|done].
  - destruct (Hcs c ltac:(left)) as [C HC].
    cbn [forEach]. rewrite (bind_run _ _ _ _ _ (setParent_run w c C None HC)).
    set (w1 := upd c (mkNode (kind C) None (childNodes C)) w).
    destruct (IH w1) as (h & Hrun & Hin & Hout).
    { intros c' Hc'. unfold w1. destruct (decide (c = c')) as [->|Hne].
      - rewrite lookup_upd_eq. by eexists.
      - rewrite lookup_upd_ne by done. apply Hcs. by right. }
    exists h. split; [by rewrite Hrun|]. split.
    + intros c' [->|Hc']%elem_of_cons.
      * exists C. split; [done|]. destruct (decide (c ∈ cs)) as [Hdup|Hnew].
        -- destruct (Hin c Hdup) as (C1 & HC1 & ->). unfold w1 in HC1.
           rewrite lookup_upd_eq in HC1. by injection HC1 as <-.
        -- rewrite (Hout c Hnew). unfold w1. by rewrite lookup_upd_eq.
      * destruct (Hin c' Hc') as (C1 & HC1 & ->). unfold w1 in HC1.
        destruct (decide (c = c')) as [->|Hne].
        -- rewrite lookup_upd_eq in HC1. injection HC1 as <-. by exists C.
        -- rewrite lookup_upd_ne in HC1 by done. by exists C1.
    + intros n [Hn1 Hn2]%not_elem_of_cons. rewrite (Hout n Hn2). unfold w1.
      by rewrite lookup_upd_ne.
Qed.

End Clearing.

(** X11. [clear()] empties the editing surface and shows the placeholder, in
    any state of the flag and of the placeholder: the editor element has
    no child and no text afterwards, its former children have no parent,
    no other node changes, the class [empty] is set, and a caret that was
    in the editor or below it is at the start of the editor. The flag and
    the timers are not touched. *)
Theorem clear_empties (w : Editor) (E : Node) (tg : string) :
  nodes w !! editor w = Some E → kind E = ElementNode tg →
  editor w ∉ childNodes E →
  (∀ c, c ∈ childNodes E → is_Some (nodes w !! c)) →
  ∃ w',
    clear w = (Ok (), w') ∧
    nodes w' !! editor w = Some (mkNode (ElementNode tg) (parentNode E) []) ∧
    (∀ c, c ∈ childNodes E →
       ∃ C, nodes w !! c = Some C ∧
            nodes w' !! c = Some (mkNode (kind C) None (childNodes C))) ∧
    (∀ n, n ≠ editor w → n ∉ childNodes E → nodes w' !! n = nodes w !! n) ∧
    textContent w' (editor w') = [] ∧
    classEmpty w' = true ∧
    (∀ r, selection w = Some (Some r) →
       isInclusiveDescendant w (startContainer r) (editor w) = true →
       ∃ r', selection w' = Some (Some r') ∧
             startContainer r' = editor w ∧ startOffset r' = 0) ∧
    isProcessing w' = isProcessing w ∧ timers w' = timers w ∧ editor w' = editor w.
Proof.
  intros HE Hk Hself Hcs.
  destruct (forEach_detach w (childNodes E) Hcs) as (h & Hrun & Hin & Hout).
  unfold clear, clearInnerHTML.
  rewrite (bind_run _ _ _ w w) by done.
  rewrite bind_bind, (bind_run _ _ _ w w) by done.
  rewrite bind_bind, (bind_run _ _ _ _ _ (getNode_run w _ _ HE)).
  rewrite bind_bind, (bind_run _ _ _ _ _ Hrun).
  set (w1 := set_nodes (λ _, h) w).
  assert (nodes w1 !! editor w = Some E) as HE1.
  { unfold w1. simpl. by rewrite (Hout _ Hself). }
  rewrite bind_bind, (bind_run _ _ _ _ _ (setChildren_run w1 _ _ [] HE1)).
  set (w2 := upd (editor w) _ w1).
  set (sel := match selection w with
              | Some (Some r) => Some (Some (relocate w (editor w) r))
              | s => s
              end).
  rewrite (bind_run _ _ _ () (set_selection sel w2)) by done.
  set (w3 := set_selection sel w2).
  assert (nodes w3 !! editor w =
          Some (mkNode (ElementNode tg) (parentNode E) [])) as HE3.
  { unfold w3, w2. cbn [nodes set_selection]. rewrite lookup_upd_eq. by rewrite Hk. }
  assert (editorIsBlank w3 = true) as Hblank.
  { unfold editorIsBlank, textContent. cbn [textContentOf].
    change (editor w3) with (editor w). by rewrite HE3. }
  unfold showPlaceholder. rewrite (bind_run _ _ _ w3 w3) by done. rewrite Hblank.
  eexists. split; [done|]. cbn [snd].
  change (nodes (set_classEmpty true w3)) with (nodes w3).
  split; [done|]. split; [|split; [|split; [|split; [done|split; [|done]]]]].
  - intros c Hc. destruct (Hin c Hc) as (C & HC & HhC). exists C. split; [done|].
    unfold w3, w2. cbn [nodes set_selection]. rewrite lookup_upd_ne by set_solver.
    done.
  - intros n Hn1 Hn2. unfold w3, w2. cbn [nodes set_selection].
    rewrite lookup_upd_ne by done. by apply Hout.
  - unfold textContent. cbn [textContentOf].
    change (editor (set_classEmpty true w3)) with (editor w).
    change (nodes (set_classEmpty true w3)) with (nodes w3). by rewrite HE3.
  - intros r Hs Hdesc. exists (relocate w (editor w) r).
    unfold w3, sel. cbn [selection set_classEmpty set_selection]. rewrite Hs.
    split; [done|]. unfold relocate. by rewrite Hdesc.
Qed.

Lemma clear_empties_witness :
  let w := page (js "some text") 4 in
  ∃ w',
    clear w = (Ok (), w') ∧
    nodes w' !! 2%positive = Some (mkNode (ElementNode "div") (Some 1%positive) []) ∧
    (∀ c, c ∈ [3%positive] →
       ∃ C, nodes w !! c = Some C ∧
            nodes w' !! c = Some (mkNode (kind C) None (childNodes C))) ∧
    (∀ n, n ≠ 2%positive → n ∉ [3%positive] → nodes w' !! n = nodes w !! n) ∧
    textContent w' (editor w') = [] ∧
    classEmpty w' = true ∧
    (∀ r, selection w = Some (Some r) →
       isInclusiveDescendant w (startContainer r) 2%positive = true →
       ∃ r', selection w' = Some (Some r') ∧
             startContainer r' = 2%positive ∧ startOffset r' = 0) ∧
    isProcessing w' = isProcessing w ∧ timers w' = timers w ∧ editor w' = editor w.
Proof.
  apply (clear_empties (page (js "some text") 4)
           (mkNode (ElementNode "div") (Some 1%positive) [3%positive]) "div"
           eq_refl eq_refl).
  - by intros [=]%list_elem_of_singleton.
  - intros c ->%list_elem_of_singleton. by eexists.
Defined.

(** ** The keyboard and the clipboard *)

(** X12. What the [keydown] and [paste] listeners ask of the page. The default
    action of a key is prevented exactly for Tab and for [b], [i], [u]
    typed in lower case with the meta or the control key held; Tab always
    inserts two spaces, whatever the modifiers; a shortcut asks for its
    one formatting command with no value; no key leads to more than one
    command. A paste always has its default action prevented, and inserts
    the plain text of the clipboard, unchanged, when there is one and it is
    not empty, and nothing otherwise. *)
Theorem page_requests (e : KeyboardEvent) (paste : option jsstring) :
  (PreventDefault ∈ handleKeydown e ↔
   key e = "Tab" ∨
   ((metaKey e = true ∨ ctrlKey e = true) ∧ key e ∈ ["b"; "i"; "u"])) ∧
  (∀ command value, ExecCommand command value ∈ handleKeydown e ↔
     (key e = "Tab" ∧ command = "insertText" ∧ value = Some (js "  ")) ∨
     ((metaKey e = true ∨ ctrlKey e = true) ∧ value = None ∧
      (key e, command) ∈ [("b", "bold"); ("i", "italic"); ("u", "underline")])) ∧
  length (filter (λ r, isExecCommand r = true) (handleKeydown e)) ≤ 1 ∧
  handlePaste paste =
    PreventDefault ::
    match paste with
    | Some (c :: text) => [ExecCommand "insertText" (Some (c :: text))]
    | _ => []
    end.
Proof.
  destruct e as [k m c]. unfold handleKeydown, toggleFormat. cbn [key metaKey ctrlKey].
  split; [|split; [|split]].
  - repeat case_bool_decide; subst; destruct m, c; cbn [orb app];
      rewrite ?elem_of_cons, ?elem_of_nil; naive_solver.
  - intros command value.
    repeat case_bool_decide; subst; destruct m, c; cbn [orb app];
      rewrite ?elem_of_cons, ?elem_of_nil; naive_solver.
  - repeat case_bool_decide; simplify_eq; destruct m, c; vm_compute; lia.
  - by destruct paste as [[|??]|].
Qed.

(** ** More on the document store *)

Section StoreReads.

(** Text without surrogate code units is stored as it is. *)
Lemma toWellFormed_plain s :
  Forall (λ c, isHighSurrogate c = false ∧ isLowSurrogate c = false) s →
  toWellFormed s = s.
Proof.
  induction 1 as [|c s [Hh Hl] _ IH]; [done|].
  cbn [toWellFormed]. by rewrite Hh, Hl, IH.
Qed.

Lemma firstByUpdatedAtDesc_spec best l :
  match firstByUpdatedAtDesc best l with
  | None => best = None ∧ l = []
  | Some r =>
      (best = Some r ∧ ∀ x, x ∈ l → updated_at x ≤ updated_at r) ∨
      (∃ l1 l2, l = l1 ++ r :: l2 ∧
                (∀ b, best = Some b → updated_at b < updated_at r) ∧
                (∀ x, x ∈ l1 → updated_at x < updated_at r) ∧
                (∀ x, x ∈ l2 → updated_at x ≤ updated_at r))
  end.
Proof.
  revert best. induction l as [|y l IH]; intros best; simpl.
  - destruct best as [b|]; [|done]. left. split; [done|]. by intros x ?%elem_of_nil.
  - destruct best as [b|].
    + destruct (updated_at b <? updated_at y) eqn:Hlt.
      * apply Nat.ltb_lt in Hlt. specialize (IH (Some y)).
        destruct (firstByUpdatedAtDesc (Some y) l) as [r|]; [|by destruct IH].
        right. destruct IH as [[[= ->] Hle]|(l1 & l2 & -> & Hb & H1 & H2)].
        -- exists [], l. repeat split; [by intros ? [= <-]|by intros ? ?%elem_of_nil|done].
        -- exists (y :: l1), l2. specialize (Hb y eq_refl).
           repeat split; [intros ? [= <-]; lia| |done].
           intros x [->|?]%elem_of_cons; [done|by apply H1].
      * apply Nat.ltb_ge in Hlt. specialize (IH (Some b)).
        destruct (firstByUpdatedAtDesc (Some b) l) as [r|]; [|by destruct IH].
        destruct IH as [[[= ->] Hle]|(l1 & l2 & -> & Hb & H1 & H2)].
        -- left. split; [done|]. intros x [->|?]%elem_of_cons; [done|by apply Hle].
        -- right. exists (y :: l1), l2. specialize (Hb b eq_refl).
           repeat split; [by intros ? [= <-]| |done].
           intros x [->|?]%elem_of_cons; [lia|by apply H1].
    + specialize (IH (Some y)).
      destruct (firstByUpdatedAtDesc (Some y) l) as [r|]; [|by destruct IH].
      right. destruct IH as [[[= ->] Hle]|(l1 & l2 & -> & Hb & H1 & H2)].
      * exists [], l. repeat split; [done|by intros ? ?%elem_of_nil|done].
      * exists (y :: l1), l2. specialize (Hb y eq_refl).
        repeat split; [done| |done].
        intros x [->|?]%elem_of_cons; [done|by apply H1].
Qed.

Lemma saveAll_run saves tbl :
  saveAll saves (mkDatabaseService (Some tbl)) =
  inr (mkDatabaseService
         (Some (mkTable (rows tbl ++ savedRows (sequence tbl) saves)
                        (sequence tbl + length saves)))).
Proof.
  revert tbl. induction saves as [|[c t] saves IH]; intros [rs sq]; simpl.
  - unfold savedRows. simpl. by rewrite app_nil_r, Nat.add_0_r.
  - rewrite IH. simpl. unfold savedRows. simpl.
    rewrite <- app_assoc. simpl. rewrite Nat.add_0_r.
    do 4 f_equal; [|lia]. do 2 f_equal.
    apply imap_ext. intros i [c' t'] _. simpl. f_equal. lia.
Qed.

Lemma elem_of_savedRows seq saves x :
  x ∈ savedRows seq saves → ∃ save, save ∈ saves ∧ updated_at x = save.2.
Proof.
  unfold savedRows. intros (i & save & -> & Hi)%elem_of_lookup_imap.
  exists save. split; [by eapply list_elem_of_lookup_2|done].
Qed.

End StoreReads.



(** X15. Round trip. When the last save of a run carries a time stamp greater
    than those of all the rows before it, the content it saved is the
    content read back, as its UTF-8 form reads: unchanged when it has no
    surrogate code unit. *)
Theorem last_save_read_back (tbl : Table) (saves : list (jsstring * nat))
    (content : jsstring) (now : nat) :
  (∀ x, x ∈ rows tbl → updated_at x < now) →
  (∀ save, save ∈ saves → save.2 < now) →
  ∃ s', saveAll (saves ++ [(content, now)]) (mkDatabaseService (Some tbl)) = inr s' ∧
        getLatestContent s' = inr (Some (toWellFormed content)) ∧
        (Forall (λ c, isHighSurrogate c = false ∧ isLowSurrogate c = false) content →
         getLatestContent s' = inr (Some content)).
Proof.
  intros Hold Hsaves.
  enough (∃ s', saveAll (saves ++ [(content, now)]) (mkDatabaseService (Some tbl)) = inr s' ∧
                getLatestContent s' = inr (Some (toWellFormed content)))
    as (s' & ? & Hget).
  { exists s'. split; [done|]. split; [done|].
    intros Hplain. by rewrite Hget, toWellFormed_plain. }
  rewrite saveAll_run. eexists. split; [done|].
  unfold getLatestContent. simpl. unfold savedRows.
  rewrite imap_app. simpl. rewrite app_assoc.
  rewrite firstByUpdatedAtDesc_newest; [done| |done].
  simpl. intros x [?|Hx]%elem_of_app; [by apply Hold|].
  apply (elem_of_savedRows (sequence tbl)) in Hx as (save & ? & ->). by apply Hsaves.
Qed.

Lemma last_save_read_back_witness :
  ∃ s', saveAll [(js "a", 1); (js "b", 2); (js "c", 4)] newDatabase = inr s' ∧
        getLatestContent s' = inr (Some (js "c")).
Proof.
  destruct (last_save_read_back (mkTable [] 0) [(js "a", 1); (js "b", 2)] (js "c") 4)
    as (s' & Hrun & Hget & _).
  - by intros x ?%elem_of_nil.
  - intros save [->|[->|?%elem_of_nil]%elem_of_cons]%elem_of_cons; simpl; [lia|lia|done].
  - by exists s'.
Defined.

(** X16. A save is shadowed by an earlier one that is not older: after a save
    at a time later than all the rows before it, further saves at that
    time or at earlier times do not change what is read back. *)
Theorem later_saves_shadowed (tbl : Table) (content : jsstring) (now : nat)
    (saves : list (jsstring * nat)) :
  (∀ x, x ∈ rows tbl → updated_at x < now) →
  (∀ save, save ∈ saves → save.2 ≤ now) →
  ∃ s', saveAll ((content, now) :: saves) (mkDatabaseService (Some tbl)) = inr s' ∧
        getLatestContent s' = inr (Some (toWellFormed content)).
Proof.
  intros Hold Hsaves. rewrite saveAll_run. eexists. split; [done|].
  unfold getLatestContent. simpl.
  pose proof (firstByUpdatedAtDesc_spec None
    (rows tbl ++ savedRows (sequence tbl) ((content, now) :: saves))) as H.
  destruct (firstByUpdatedAtDesc None _) as [r|] eqn:E; simpl.
  2:{ destruct H as [_ H]. by destruct (rows tbl). }
  destruct H as [[? _]|(l1 & l2 & Hl & _ & H1 & H2)]; [done|].
  do 2 f_equal.
  set (row := mkRow (S (sequence tbl + 0)) (toWellFormed content) now now).
  assert (∀ x, x ∈ l1 ++ r :: l2 → updated_at x ≤ now) as Hall.
  { rewrite <- Hl. intros x [?%Hold|Hx]%elem_of_app; [lia|].
    apply elem_of_savedRows in Hx as (save & [->|?]%elem_of_cons & ->); [done|].
    by apply Hsaves. }
  assert (row ∈ l1 ++ r :: l2) as Hrow.
  { rewrite <- Hl. apply elem_of_app. right. unfold savedRows. simpl. left. }
  assert (updated_at r = now) as Hr.
  { apply Nat.le_antisymm; [apply Hall; set_solver|].
    apply elem_of_app in Hrow as [Hr|[Hr|Hr]%elem_of_cons].
    - apply H1 in Hr. simpl in Hr. lia.
    - by rewrite <- Hr.
    - apply H2 in Hr. simpl in Hr. lia. }
  (* [r] is the first row at time [now], and so is [row] *)
  assert (l1 = rows tbl) as ->.
  { unfold savedRows in Hl. simpl in Hl. fold row in Hl.
    clear -Hl H1 Hold Hr. revert l1 Hl H1. induction (rows tbl) as [|y ys IH]; intros l1 Hl H1.
    - destruct l1 as [|z l1]; [done|]. simpl in Hl. injection Hl as <- _.
      specialize (H1 row ltac:(left)). simpl in H1. lia.
    - destruct l1 as [|z l1]; simpl in Hl.
      + injection Hl as -> _. specialize (Hold r ltac:(left)). lia.
      + injection Hl as -> Hl. f_equal. apply IH; [set_solver|done|set_solver]. }
  apply app_inv_head in Hl. unfold savedRows in Hl. simpl in Hl. by injection Hl as <- _.
Qed.

Lemma later_saves_shadowed_witness :
  ∃ s', saveAll [(js "first", 5); (js "second", 5); (js "third", 3)] newDatabase = inr s' ∧
        getLatestContent s' = inr (Some (js "first")).
Proof.
  apply (later_saves_shadowed (mkTable [] 0) (js "first") 5 [(js "second", 5); (js "third", 3)]).
  - by intros x ?%elem_of_nil.
  - intros save [->|[->|?%elem_of_nil]%elem_of_cons]%elem_of_cons; simpl; [lia|lia|done].
Defined.
